(** * cucim.skimage.filters.thresholding: a shallow embedding

    The development follows [thresholding.py]: the sparse inclusion-exclusion
    kernel and the windowed mean / standard deviation of [_mean_std], the
    pointwise formulas of [threshold_niblack] and [threshold_sauvola], the
    window validation of [threshold_local], Li's iterative minimum
    cross-entropy threshold [threshold_li] and [apply_hysteresis_threshold].

    Numbers are modelled as the code has them: Python [int]s and window sizes
    as [Z], fixed-width integer pixels as [Z] with the wrap-around of their
    dtype written out, and float64 values (Python [float], [numpy.float64])
    as Rocq's primitive binary64 [float], whose operations are the IEEE 754
    ones the interpreter executes. *)

From Stdlib Require Import String ZArith List Bool Lia Floats.
Import ListNotations.

(** ** Exceptions and outcomes of a call *)

(** What [image.ravel()[0]], [cp.nan] or a threshold can be: a numpy integer
    scalar or a float. *)
Inductive scalar : Type :=
| SInt (z : Z)
| SFloat (f : float).

(** The exceptions the modelled functions raise, one constructor per [raise]
    statement (or per raising library call), with the values its message
    names. *)
Inductive exception : Type :=
| ValueError_block_size_len
    (* "len(block_size) must equal image.ndim." *)
| ValueError_block_size_even (block_size : list Z)
    (* "block_size must be odd! Given block_size ... contains even values." *)
| ValueError_invalid_method
    (* "Invalid method specified. ..." *)
| NotImplementedError_generic
    (* "TODO: implement generic_filter" *)
| ValueError_window_size (w : list Z)
    (* raised by _validate_window_size, naming the window *)
| ValueError_initial_guess (initial_guess : float) (image_min image_max : scalar)
    (* "The initial guess for threshold_li must be within the range of the
       image. Got ... for image min ... and max ...." *)
| TypeError_initial_guess
    (* "Incorrect type for `initial_guess`; ..." *)
| ValueError_zero_size_reduction
    (* cp.min of an empty array *)
| ValueError_math_domain
    (* math.log of a float that is not positive *)
| ZeroDivisionError.
    (* float division by zero; np.average with weights summing to zero *)

Inductive result (A : Type) : Type :=
| Ok (a : A)
| Raise (e : exception).
Arguments Ok {A} a.
Arguments Raise {A} e.

Definition bind {A B} (c : result A) (k : A -> result B) : result B :=
  match c with
  | Ok a => k a
  | Raise e => Raise e
  end.

Notation "x <- c ;; k" := (bind c (fun x => k))
  (at level 61, c at next level, right associativity).

(** ** float64 helpers *)

Module F64.
Open Scope float_scope.

(** Conversion of an integer to float64, rounding to nearest even. *)
Definition of_Z (z : Z) : float := SF2Prim (binary_normalize prec emax z 0 false).

(** [numpy.array_equal(a, b, equal_nan=True)] on one element. *)
Definition same (x y : float) : bool := (x =? y) || (is_nan x && is_nan y).

(** [cp.clip(x, a_min, a_max)]: CuPy's element kernel
    [x < a_min ? a_min : (x > a_max ? a_max : x)]; a bound given as [None]
    is replaced by the infinity of its side. *)
Definition clip (x : float) (a_min a_max : option float) : float :=
  let lo := match a_min with Some v => v | None => neg_infinity end in
  let hi := match a_max with Some v => v | None => infinity end in
  if x <? lo then lo else if hi <? x then hi else x.

(** Two classes of the specification floats [spec_float] in which the
    primitive operations are read: the floats that are not nan and not below
    zero, and the finite floats (zeros included) of a given sign. *)
Definition SFnonneg (x : spec_float) : bool :=
  match x with
  | S754_zero _ | S754_infinity false | S754_finite false _ _ => true
  | _ => false
  end.

Definition SFfinite_signed (sx : bool) (x : spec_float) : bool :=
  match x with
  | S754_zero s | S754_finite s _ _ => Bool.eqb s sx
  | _ => false
  end.

End F64.

(** ** The sparse kernel of [_mean_std] (lines 967-970) *)

Module SparseKernel.
Open Scope Z_scope.

(** [itertools.product] of the pools: the last pool advances fastest. *)
Fixpoint product {A : Type} (pools : list (list A)) : list (list A) :=
  match pools with
  | [] => [[]]
  | pool :: rest => flat_map (fun x => map (cons x) (product rest)) pool
  end.

(** [np.sum(indices)] *)
Definition sum (l : list Z) : Z := fold_right Z.add 0 l.

(** [kernel_indices]: the [itertools.product] of the pairs [(0, _w)], one
    pair for each [_w] in [w]. *)
Definition kernel_indices (w : list Z) : list (list Z) :=
  product (map (fun _w => [0; _w]) w).

(** [kernel_values = [(-1) ** (image.ndim % 2 != np.sum(indices) % 2)
                      for indices in kernel_indices]];
    the exponent is a Python [bool], 1 when the parities differ. *)
Definition kernel_values (ndim : nat) (kernel_indices : list (list Z)) : list Z :=
  map (fun indices =>
         (-1) ^ Z.b2z (negb (Z.of_nat ndim mod 2 =? sum indices mod 2)))
      kernel_indices.

(** A corner of the hyper-rectangle of shape [w]: per axis either the near
    coordinate 0 or the far coordinate [w_i]. *)
Definition corner (w c : list Z) : Prop :=
  Forall2 (fun wi ci => ci = 0 \/ ci = wi) w c.

(** The indicator bits of a corner: 1 on each axis where the far coordinate
    was chosen. *)
Definition far_bits (c : list Z) : list Z :=
  map (fun ci => if ci =? 0 then 0 else 1) c.

(** A valid window shape: every size positive and odd. *)
Definition valid_window (w : list Z) : Prop :=
  Forall (fun k => 0 < k /\ Z.odd k = true) w.

End SparseKernel.

(** ** Dense N-dimensional float64 arrays, row-major *)

Module NDArray.
Open Scope float_scope.

Record ndarray : Type := mk { shape : list nat; data : list float }.

Definition ndim (a : ndarray) : nat := length (shape a).

(** All multi-indices of a shape, in row-major order. *)
Fixpoint indices (shape : list nat) : list (list nat) :=
  match shape with
  | [] => [[]]
  | n :: rest => flat_map (fun i => map (cons i) (indices rest)) (seq 0 n)
  end.

(** Flat offset of a multi-index. *)
Fixpoint ravel (shape idx : list nat) : nat :=
  match shape, idx with
  | _ :: rest, i :: idx' => i * fold_right Nat.mul 1%nat rest + ravel rest idx'
  | _, _ => 0
  end.

Definition get (a : ndarray) (idx : list nat) : float :=
  nth (ravel (shape a) idx) (data a) nan.

(** The array of the given shape whose element at [idx] is [f idx]. *)
Definition build (shape : list nat) (f : list nat -> float) : ndarray :=
  mk shape (map f (indices shape)).

(** Element-wise operations; the two operands of [zip_with] have one shape. *)
Definition map_array (f : float -> float) (a : ndarray) : ndarray :=
  mk (shape a) (map f (data a)).

Definition zip_with (f : float -> float -> float) (a b : ndarray) : ndarray :=
  mk (shape a) (map (fun xy => f (fst xy) (snd xy)) (combine (data a) (data b))).

(** [numpy.array_equal(a, b, equal_nan=True)] *)
Definition array_equal (a b : ndarray) : bool :=
  (if list_eq_dec Nat.eq_dec (shape a) (shape b) then true else false)
  && Nat.eqb (length (data a)) (length (data b))
  && forallb (fun xy => F64.same (fst xy) (snd xy)) (combine (data a) (data b)).

(** [a[mask]] *)
Fixpoint select {A : Type} (a : list A) (mask : list bool) : list A :=
  match a, mask with
  | x :: a', b :: mask' => if b then x :: select a' mask' else select a' mask'
  | _, _ => []
  end.

(** Source index of [cp.pad(..., mode='reflect')] along an axis of length
    [n]: the array is mirrored about its first and last element without
    repeating them; an axis of length one repeats its element. *)
Definition reflect_index (n i : Z) : Z :=
  if (n <=? 1)%Z then 0%Z
  else let p := (2 * (n - 1))%Z in
       let r := (i mod p)%Z in
       if (r <? n)%Z then r else (p - r)%Z.

(** [cp.pad(image, pad_width, mode='reflect')] *)
Definition pad_reflect (image : ndarray) (pad_width : list (Z * Z)) : ndarray :=
  let padded_shape :=
    map (fun nw => Z.to_nat (Z.of_nat (fst nw) + fst (snd nw) + snd (snd nw)))
        (combine (shape image) pad_width) in
  build padded_shape
        (fun idx =>
           get image
               (map (fun t => Z.to_nat (reflect_index (Z.of_nat (fst (fst t)))
                                                      (Z.of_nat (snd t) - fst (snd (fst t)))))
                    (combine (combine (shape image) pad_width) idx))).

End NDArray.

(** ** Windowed mean and standard deviation, Niblack and Sauvola *)

Module MeanStd.
Import NDArray.
Open Scope float_scope.

(** [w] of [_mean_std], [window_size] of Niblack and Sauvola: an [int], or
    an iterable of [int]. *)
Inductive window : Type :=
| WScalar (w : Z)
| WIterable (w : list Z).

(** Modelled from the spec: [_validate_window_size] of [filters/_sparse.py],
    which is not among the source files.  The spec has it reject even or
    non-positive window dimensions with a validation error naming the
    offending window. *)
Definition _validate_window_size (axis_sizes : list Z) : result unit :=
  if existsb (fun axis_size => ((axis_size mod 2 =? 0) || (axis_size <=? 0))%Z) axis_sizes
  then Raise (ValueError_window_size axis_sizes)
  else Ok tt.

(** The window sizes a scalar or an iterable [w] stands for (lines 952-953). *)
Definition resolve_window (image : ndarray) (w : window) : list Z :=
  match w with
  | WScalar k => repeat k (ndim image)
  | WIterable l => l
  end.

(** [_misc.prod(w)] *)
Definition prod (w : list Z) : Z := fold_right Z.mul 1%Z w.

(** Lines 982-985 on one element: the raw variance estimate [g2 - m * m] is
    clipped below at 0, then the square root is taken. *)
Definition std_of (g2 m : float) : float :=
  sqrt (F64.clip (g2 - m * m) (Some 0) None).

Section WithCollaborators.

(** [transform.integral_image(padded, dtype=np.float64)] and
    [_sparse._correlate_sparse(integral, kernel_shape, kernel_indices,
    kernel_values)]: functions of the repository kept outside the source
    files read here. *)
Variable integral_image : ndarray -> ndarray.
Variable _correlate_sparse : ndarray -> list Z -> list (list Z) -> list Z -> ndarray.

(** [util.dtype_limits(image, clip_negative=False)] *)
Variable dtype_limits : ndarray -> float * float.

(** [_mean_std(image, w)] up to line 981: the local mean [m] and the local
    second moment [g2].  [image] is given in its working float dtype
    ([image.astype(float_dtype)] is the identity on a float64 image). *)
Definition local_moments (image : ndarray) (w : window) : result (ndarray * ndarray) :=
  let w := resolve_window image w in
  _ <- _validate_window_size w ;;
  let pad_width := map (fun k => (k / 2 + 1, k / 2)%Z) w in
  let padded := pad_reflect image pad_width in
  let integral := integral_image padded in
  let padded := zip_with mul padded padded in
  let integral_sq := integral_image padded in
  let kernel_indices := SparseKernel.kernel_indices w in
  let kernel_values := SparseKernel.kernel_values (ndim image) kernel_indices in
  let total_window_size := prod w in
  let kernel_shape := map (fun _w => (_w + 1)%Z) w in
  let m := _correlate_sparse integral kernel_shape kernel_indices kernel_values in
  let m := map_array (fun x => x / F64.of_Z total_window_size) m in
  let g2 := _correlate_sparse integral_sq kernel_shape kernel_indices kernel_values in
  let g2 := map_array (fun x => x / F64.of_Z total_window_size) g2 in
  Ok (m, g2).

(** [_mean_std(image, w)], lines 952-986. *)
Definition _mean_std (image : ndarray) (w : window) : result (ndarray * ndarray) :=
  mg <- local_moments image w ;;
  let '(m, g2) := mg in
  let s := zip_with std_of g2 m in
  Ok (m, s).

(** [threshold_niblack(image, window_size, k)], lines 1048-1049 *)
Definition threshold_niblack (image : ndarray) (window_size : window) (k : float)
  : result ndarray :=
  ms <- _mean_std image window_size ;;
  let '(m, s) := ms in
  Ok (zip_with (fun m s => m - k * s) m s).

(** [threshold_sauvola(image, window_size, k, r)], lines 1105-1109 *)
Definition threshold_sauvola (image : ndarray) (window_size : window) (k : float)
           (r : option float) : result ndarray :=
  let r := match r with
           | None => let '(imin, imax) := dtype_limits image in 0.5 * (imax - imin)
           | Some r => r
           end in
  ms <- _mean_std image window_size ;;
  let '(m, s) := ms in
  Ok (zip_with (fun m s => m * (1 + k * ((s / r) - 1))) m s).

End WithCollaborators.

(** *** The collaborators as the spec describes them *)

(** Sequential float64 sum of a list. *)
Definition fsum (l : list float) : float := fold_left add l 0.

(** Modelled from the spec: [integral_image] of [transform/integral.py],
    which is not among the source files.  The spec describes an array of the
    shape of its source plus one in each dimension, whose element at
    multi-index [i] is the sum of all source elements with indices strictly
    less than [i] in every axis. *)
Definition integral_image (a : ndarray) : ndarray :=
  build (map S (shape a)) (fun i => fsum (map (get a) (indices i))).

(** Modelled from the spec: [_correlate_sparse] of [filters/_sparse.py],
    which is not among the source files.  The spec describes an output of
    the unpadded image shape whose element at a position is the sum over the
    kernel terms of [sign_c * integral[position + corner_c]]. *)
Definition _correlate_sparse (integral : ndarray) (kernel_shape : list Z)
           (kernel_indices : list (list Z)) (kernel_values : list Z) : ndarray :=
  let out_shape :=
    map (fun nk => (fst nk - Z.to_nat (snd nk))%nat) (combine (shape integral) kernel_shape) in
  build out_shape
        (fun position =>
           fsum (map (fun cv =>
                        F64.of_Z (snd cv)
                        * get integral
                              (map (fun pc => (fst pc + Z.to_nat (snd pc))%nat)
                                   (combine position (fst cv))))
                     (combine kernel_indices kernel_values))).

(** Modelled from the spec: [dtype_limits] of [util], which is not among the
    source files.  The spec has [R] default to half the dynamic range of the
    numeric type of the image; for an image of 8-bit unsigned pixels that
    range is 0 to 255. *)
Definition dtype_limits_uint8 (_ : ndarray) : float * float := (0, 255).

End MeanStd.

(** ** [threshold_local] *)

Module Local.
Import NDArray.
Open Scope float_scope.

(** [block_size]: an [int], or a sequence of [int]. *)
Inductive block_size_arg : Type :=
| BScalar (b : Z)
| BSeq (bs : list Z).

Section WithFilters.

(** [mode] and [cval], handed unchanged to the filters. *)
Variable boundary : Type.

(** [_shared.filters.gaussian], [ndi.uniform_filter] and [ndi.median_filter],
    each writing its result to [thresh_image]. *)
Variable gaussian : ndarray -> list float -> boundary -> ndarray.
Variable uniform_filter : ndarray -> list Z -> boundary -> ndarray.
Variable median_filter : ndarray -> list Z -> boundary -> ndarray.

(** [threshold_local(image, block_size, method, offset, mode, param, cval)],
    lines 228-261.  [param] is the sigma of the gaussian method. *)
Definition threshold_local (image : ndarray) (block_size : block_size_arg)
           (method : string) (offset : float) (mode_cval : boundary)
           (param : option (list float)) : result ndarray :=
  block_size <-
    match block_size with
    | BScalar b => Ok (repeat b (ndim image))
    | BSeq bs =>
        if negb (Nat.eqb (length bs) (ndim image))
        then Raise ValueError_block_size_len
        else Ok bs
    end ;;
  if existsb (fun b => (b mod 2 =? 0)%Z) block_size
  then Raise (ValueError_block_size_even block_size)
  else
    thresh_image <-
      (if String.eqb method "generic" then Raise NotImplementedError_generic
       else if String.eqb method "gaussian" then
         let sigma := match param with
                      | None => map (fun b => F64.of_Z (b - 1) / 6) block_size
                      | Some sigma => sigma
                      end in
         Ok (gaussian image sigma mode_cval)
       else if String.eqb method "mean" then
         Ok (uniform_filter image block_size mode_cval)
       else if String.eqb method "median" then
         Ok (median_filter image block_size mode_cval)
       else Raise ValueError_invalid_method) ;;
    Ok (map_array (fun t => t - offset) thresh_image).

End WithFilters.

(** The block sizes a scalar or a sequence [block_size] stands for. *)
Definition resolve_block_size (image : ndarray) (block_size : block_size_arg) : list Z :=
  match block_size with
  | BScalar b => repeat b (ndim image)
  | BSeq bs => bs
  end.

(** A filter that returns its input: it stands for the three filters where
    a call is evaluated that ends before any of them runs. *)
Definition no_filter (T : Type) (image : ndarray) (_ : T) (_ : unit) : ndarray := image.

End Local.

(** ** [apply_hysteresis_threshold] *)

Module Hysteresis.
Import NDArray.
Open Scope float_scope.

(** [low] and [high]: a float, or an array of the shape of [image]. *)
Inductive threshold_arg : Type :=
| TScalar (x : float)
| TArray (a : list float).

(** Element-wise application of a binary operation with broadcasting of a
    scalar operand. *)
Definition broadcast (f : float -> float -> float) (a b : threshold_arg) : threshold_arg :=
  match a, b with
  | TScalar x, TScalar y => TScalar (f x y)
  | TScalar x, TArray ys => TArray (map (f x) ys)
  | TArray xs, TScalar y => TArray (map (fun x => f x y) xs)
  | TArray xs, TArray ys => TArray (map (fun xy => f (fst xy) (snd xy)) (combine xs ys))
  end.

(** [cp.clip(low, a_min=None, a_max=high)] *)
Definition clip_max (low high : threshold_arg) : threshold_arg :=
  broadcast (fun l h => F64.clip l None (Some h)) low high.

(** [image > t] *)
Definition greater (image : list float) (t : threshold_arg) : list bool :=
  match t with
  | TScalar x => map (fun p => x <? p) image
  | TArray xs => map (fun px => snd px <? fst px) (combine image xs)
  end.

(** [cp.unique] of labels: the distinct values, ascending. *)
Fixpoint insert_unique (x : nat) (l : list nat) : list nat :=
  match l with
  | [] => [x]
  | y :: l' => if Nat.ltb x y then x :: l
               else if Nat.eqb x y then l
               else y :: insert_unique x l'
  end.

Definition unique (l : list nat) : list nat := fold_right insert_unique [] l.

(** [table[i] = True] *)
Fixpoint set_true (table : list bool) (i : nat) : list bool :=
  match table, i with
  | [], _ => []
  | _ :: t, O => true :: t
  | b :: t, S i' => b :: set_true t i'
  end.

Section WithLabel.

(** [ndi.label(mask)]: the labels of the connected components of a boolean
    mask of the given shape (0 for background) and their number. *)
Variable label : list nat -> list bool -> list nat * nat.

(** [apply_hysteresis_threshold(image, low, high)], lines 1149-1164 *)
Definition apply_hysteresis_threshold (image : ndarray) (low high : threshold_arg)
  : list bool :=
  let low := clip_max low high in
  let mask_low := greater (data image) low in
  let mask_high := greater (data image) high in
  let '(labels_low, num_labels) := label (shape image) mask_low in
  let nonzero_sums := unique (select labels_low mask_high) in
  let connected_to_high := repeat false (num_labels + 1) in
  let connected_to_high := fold_left set_true nonzero_sums connected_to_high in
  let thresholded := map (fun l => nth l connected_to_high false) labels_low in
  thresholded.

End WithLabel.

(** Python's [min(low, high)]: [high] when [high < low], else [low]. *)
Definition py_min (low high : float) : float := if high <? low then high else low.

(** Labels of the runs of a one-dimensional mask, numbered from 1 in order
    of appearance; what [ndi.label] returns on a one-dimensional array. *)
Fixpoint label_runs (mask : list bool) (prev : bool) (n : nat) : list nat * nat :=
  match mask with
  | [] => ([], n)
  | b :: mask' =>
      if b then
        let n' := if prev then n else S n in
        let '(ls, k) := label_runs mask' true n' in (n' :: ls, k)
      else
        let '(ls, k) := label_runs mask' false n in (O :: ls, k)
  end.

Definition label_1d (_ : list nat) (mask : list bool) : list nat * nat :=
  label_runs mask false 0.

End Hysteresis.

(** ** [threshold_li] *)

Module Li.
Import NDArray.
Open Scope float_scope.

(** An integer dtype ([image.dtype.kind in 'iu']): its width and signedness,
    and the wrap-around of its arithmetic. *)
Record int_dtype : Type := { bits : Z; signed : bool }.

Definition wrap (dt : int_dtype) (z : Z) : Z :=
  if signed dt
  then ((z + 2 ^ (bits dt - 1)) mod 2 ^ bits dt - 2 ^ (bits dt - 1))%Z
  else (z mod 2 ^ bits dt)%Z.

(** The pixels of [image], of integer kind or of float kind. *)
Inductive pixels : Type :=
| IntPixels (dt : int_dtype) (px : list Z)
| FloatPixels (px : list float).

(** [initial_guess]: [None], a callable from the array of intensities to a
    float, a scalar, or an object of another type. *)
Inductive guess : Type :=
| GuessNone
| GuessCallable (f : pixels -> float)
| GuessScalar (x : float)
| GuessOther.

(** How a call ends: with a returned threshold, with an exception, or still
    iterating when the fuel of the model is used up (the loop of the source
    has no iteration cap). *)
Inductive outcome : Type :=
| Return (threshold : scalar)
| Raised (e : exception)
| Iterating.

(** [tolerance or default]: the default is taken when [tolerance] is [None]
    or zero. *)
Definition py_or (tolerance : option float) (default : result float) : result float :=
  match tolerance with
  | None => default
  | Some t => if t =? 0 then default else Ok t
  end.

(** [cp.min] and [cp.max] of a non-empty array; an empty one has no identity
    for the reduction. *)
Definition cp_min (a : list float) : result float :=
  match a with
  | [] => Raise ValueError_zero_size_reduction
  | x :: rest => Ok (fold_left (fun acc y => if y <? acc then y else acc) rest x)
  end.

Definition cp_max (a : list float) : result float :=
  match a with
  | [] => Raise ValueError_zero_size_reduction
  | x :: rest => Ok (fold_left (fun acc y => if acc <? y then y else acc) rest x)
  end.

(** [cp.unique]: the distinct values in ascending order. *)
Fixpoint insert_unique (x : float) (l : list float) : list float :=
  match l with
  | [] => [x]
  | y :: l' => if x <? y then x :: l
               else if x =? y then l
               else y :: insert_unique x l'
  end.

Definition unique (a : list float) : list float := fold_right insert_unique [] a.

(** [cp.diff]: the differences of consecutive elements. *)
Fixpoint diff (a : list float) : list float :=
  match a with
  | x :: (y :: _) as rest => (y - x) :: diff rest
  | _ => []
  end.

(** [100 * np.finfo(float).eps] *)
Definition eps : float := 100 * 0x1p-52.

(** Division of Python floats. *)
Definition py_div (x y : float) : result float :=
  if y =? 0 then Raise ZeroDivisionError else Ok (x / y).

Section WithLibrary.

(** The sum reduction inside [cp.mean] and [np.average]. *)
Variable fsum : list float -> float.

(** [math.log] on the positive floats. *)
Variable log : float -> float.

(** [exposure.histogram(image.reshape(-1), source_range='image')] of an
    integer image: the counts (after [astype(float)]) and the bin centers, as
    the float64 values the loop compares and averages. *)
Variable histogram : list Z -> list float * list float.

(** [math.log]: a domain error on a float that is zero or negative; nan goes
    through. *)
Definition py_log (x : float) : result float :=
  if is_nan x then Ok x
  else if x <=? 0 then Raise ValueError_math_domain
  else Ok (log x).

(** [cp.mean] *)
Definition mean (a : list float) : float :=
  fsum a / F64.of_Z (Z.of_nat (length a)).

(** [np.average(a, weights=w)] *)
Definition average (a w : list float) : result float :=
  let scl := fsum w in
  if scl =? 0 then Raise ZeroDivisionError
  else Ok (fsum (map (fun aw => fst aw * snd aw) (combine a w)) / scl).

(** The right-hand side of the assignment to [t_next], lines 709-712 and
    728-729. *)
Definition li_update (mean_back mean_fore : float) : result float :=
  let num := mean_back - mean_fore in
  log_back <- py_log (mean_back + eps) ;;
  log_fore <- py_log (mean_fore + eps) ;;
  py_div num (log_back - log_fore).

(** One pass of the loop body for an integer image, lines 698-712. *)
Definition li_step_hist (hist bin_centers : list float) (t_curr : float) : result float :=
  let foreground := map (fun c => t_curr <? c) bin_centers in
  let background := map negb foreground in
  mean_fore <- average (select bin_centers foreground) (select hist foreground) ;;
  mean_back <- average (select bin_centers background) (select hist background) ;;
  li_update mean_back mean_fore.

(** One pass of the loop body for a float image, lines 722-729. *)
Definition li_step_image (image : list float) (t_curr : float) : result float :=
  let foreground := map (fun x => t_curr <? x) image in
  let mean_fore := mean (select image foreground) in
  let mean_back := mean (select image (map negb foreground)) in
  li_update mean_back mean_fore.

(** The [while abs(t_next - t_curr) > tolerance] loop and the final
    [t_next + image_min].  [calls] collects the arguments of [iter_callback]. *)
Fixpoint li_iterate (step : float -> result float) (tolerance image_min : float)
         (iter_callback : bool) (fuel : nat) (t_next t_curr : float)
         (calls : list float) : outcome * list float :=
  if tolerance <? abs (t_next - t_curr) then
    match fuel with
    | O => (Iterating, calls)
    | S fuel' =>
        let t_curr := t_next in
        match step t_curr with
        | Raise e => (Raised e, calls)
        | Ok t_next =>
            let calls := if iter_callback then calls ++ [t_next + image_min] else calls in
            li_iterate step tolerance image_min iter_callback fuel' t_next t_curr calls
        end
    end
  else (Return (SFloat (t_next + image_min)), calls).

(** Lines 681-735: the start of the iteration from the initial estimate. *)
Definition li_run (step : float -> result float) (tolerance image_min : float)
           (iter_callback : bool) (fuel : nat) (t_next : float) : outcome * list float :=
  let t_curr := -2 * tolerance in
  let calls := if iter_callback then [t_next + image_min] else [] in
  li_iterate step tolerance image_min iter_callback fuel t_next t_curr calls.

(** The state in which the initial estimate is resolved (line 663): the
    shifted finite image, its former minimum and the tolerance. *)
Inductive prepared : Type :=
| Early (r : outcome)
| Ready (image : pixels) (image_min : scalar) (tolerance : float).

(** Lines 636-661. *)
Definition li_prepare (image : pixels) (tolerance : option float) : prepared :=
  match image with
  | FloatPixels px =>
      let image := filter (fun x => negb (is_nan x)) px in
      match image with
      | [] => Early (Return (SFloat nan))
      | val0 :: _ =>
          if forallb (fun x => x =? val0) image then Early (Return (SFloat val0))
          else
            let image := filter is_finite image in
            match image with
            | [] => Early (Return (SFloat 0))
            | x :: rest =>
                let image_min := fold_left (fun acc y => if y <? acc then y else acc) rest x in
                let image := map (fun x => x - image_min) image in
                match py_or tolerance
                            (d <- cp_min (diff (unique image)) ;; Ok (d / 2)) with
                | Raise e => Early (Raised e)
                | Ok tolerance => Ready (FloatPixels image) (SFloat image_min) tolerance
                end
            end
      end
  | IntPixels dt px =>
      match px with
      | [] => Early (Return (SFloat nan))
      | val0 :: rest =>
          if forallb (fun x => (x =? val0)%Z) px then Early (Return (SInt val0))
          else
            let image_min := fold_left Z.min rest val0 in
            let image := map (fun x => wrap dt (x - image_min)) px in
            match py_or tolerance (Ok 0.5) with
            | Raise e => Early (Raised e)
            | Ok tolerance => Ready (IntPixels dt image) (SInt image_min) tolerance
            end
      end
  end.

(** The pixel values, the minimum and the maximum as the float64 values that
    enter float arithmetic and comparisons. *)
Definition values (image : pixels) : list float :=
  match image with
  | IntPixels _ px => map F64.of_Z px
  | FloatPixels px => px
  end.

Definition to_float (x : scalar) : float :=
  match x with
  | SInt z => F64.of_Z z
  | SFloat f => f
  end.

(** [cp.max(image)] and [cp.max(image) + image_min] in the dtype of the
    image. *)
Definition image_maximum (image : pixels) : scalar :=
  match image with
  | IntPixels _ [] => SInt 0
  | IntPixels _ (x :: rest) => SInt (fold_left Z.max rest x)
  | FloatPixels px => match cp_max px with Ok m => SFloat m | Raise _ => SFloat nan end
  end.

Definition add_scalar (image : pixels) (x y : scalar) : scalar :=
  match image, x, y with
  | IntPixels dt _, SInt a, SInt b => SInt (wrap dt (a + b))
  | _, _, _ => SFloat (to_float x + to_float y)
  end.

(** Lines 663-679: the initial estimate [t_next]. *)
Definition li_initial_guess (image : pixels) (image_min : scalar) (initial_guess : guess)
  : result float :=
  match initial_guess with
  | GuessNone => Ok (mean (values image))
  | GuessCallable f => Ok (f image)
  | GuessScalar x =>
      let t_next := x - to_float image_min in
      let image_max := add_scalar image (image_maximum image) image_min in
      if negb ((0 <? t_next) && (t_next <? to_float (image_maximum image)))
      then Raise (ValueError_initial_guess x image_min image_max)
      else Ok t_next
  | GuessOther => Raise TypeError_initial_guess
  end.

(** The loop body chosen by [image.dtype.kind], line 693. *)
Definition li_step (image : pixels) : float -> result float :=
  match image with
  | IntPixels _ px => let '(hist, bin_centers) := histogram px in li_step_hist hist bin_centers
  | FloatPixels px => li_step_image px
  end.

(** [threshold_li(image, tolerance=, initial_guess=, iter_callback=)], lines
    636-735.  [iter_callback] tells whether a callback was given; the second
    component lists the values it was called on. *)
Definition threshold_li (image : pixels) (tolerance : option float)
           (initial_guess : guess) (iter_callback : bool) (fuel : nat)
  : outcome * list float :=
  match li_prepare image tolerance with
  | Early r => (r, [])
  | Ready image image_min tolerance =>
      match li_initial_guess image image_min initial_guess with
      | Raise e => (Raised e, [])
      | Ok t_next =>
          li_run (li_step image) tolerance (to_float image_min) iter_callback fuel t_next
      end
  end.

(** The update in the words of the spec, for an integer image.  A bin is
    the pair of a bin center and its count.  The bins are split into
    background ([bin_center <= t_curr]) and foreground
    ([bin_center > t_curr]). *)
Definition spec_background (bins : list (float * float)) (t_curr : float)
  : list (float * float) :=
  filter (fun b => fst b <=? t_curr) bins.

Definition spec_foreground (bins : list (float * float)) (t_curr : float)
  : list (float * float) :=
  filter (fun b => t_curr <? fst b) bins.

(** The count-weighted mean bin center of a part: the sum of center times
    count over the sum of the counts. *)
Definition spec_weighted_mean (bins : list (float * float)) : float :=
  fsum (map (fun b => fst b * snd b) bins) / fsum (map snd bins).

(** 100 times the machine epsilon of float64. *)
Definition spec_eps : float := 100 * 0x1p-52.

(** [t_next = (mean_back - mean_fore)
            / (ln(mean_back + eps) - ln(mean_fore + eps))] *)
Definition spec_t_next (bins : list (float * float)) (t_curr : float) : float :=
  let mean_back := spec_weighted_mean (spec_background bins t_curr) in
  let mean_fore := spec_weighted_mean (spec_foreground bins t_curr) in
  (mean_back - mean_fore) / (log (mean_back + spec_eps) - log (mean_fore + spec_eps)).

(** Where that update is defined: each part has a total count other than
    zero, no logarithm is taken of zero or of a negative number, and the
    two logarithms differ. *)
Definition spec_defined (bins : list (float * float)) (t_curr : float) : bool :=
  let back := spec_background bins t_curr in
  let fore := spec_foreground bins t_curr in
  let mean_back := spec_weighted_mean back in
  let mean_fore := spec_weighted_mean fore in
  negb (fsum (map snd back) =? 0)
  && negb (fsum (map snd fore) =? 0)
  && negb (mean_back + spec_eps <=? 0)
  && negb (mean_fore + spec_eps <=? 0)
  && negb (log (mean_back + spec_eps) - log (mean_fore + spec_eps) =? 0).

End WithLibrary.

(** The iteration in the words of the spec: iterate while
    [|t_next - t_curr| > tolerance], each step setting [t_curr = t_next]
    before [t_next] is computed anew by an update that is defined there.
    [spec_iterates defined update tolerance t_curr t_next later final]: from
    [t_curr] and [t_next] the iteration computes the values [later] and ends
    with [t_next = final]. *)
Inductive spec_iterates (defined : float -> bool) (update : float -> float)
          (tolerance : float) : float -> float -> list float -> float -> Prop :=
| iterates_stop t_curr t_next :
    (tolerance <? abs (t_next - t_curr)) = false ->
    spec_iterates defined update tolerance t_curr t_next [] t_next
| iterates_step t_curr t_next later final :
    (tolerance <? abs (t_next - t_curr)) = true ->
    defined t_next = true ->
    spec_iterates defined update tolerance t_next (update t_next) later final ->
    spec_iterates defined update tolerance t_curr t_next (update t_next :: later) final.

(** Sequential float64 sum: one order in which the reduction can add. *)
Definition sum_seq (l : list float) : float := fold_left add l 0.

(** A stand-in for [math.log] where a call is evaluated that takes no
    logarithm. *)
Definition no_log (x : float) : float := x.

(** Modelled from the spec: [exposure.histogram] with
    [source_range='image'], which is not among the source files.  For an
    integer image the spec has the bins span the observed minimum to the
    observed maximum; the counts are returned as floats. *)
Definition histogram (image : list Z) : list float * list float :=
  match image with
  | [] => ([], [])
  | x :: rest =>
      let lo := fold_left Z.min rest x in
      let hi := fold_left Z.max rest x in
      let centers := map (fun i => (lo + Z.of_nat i)%Z) (seq 0 (Z.to_nat (hi - lo + 1))) in
      (map (fun c => F64.of_Z (Z.of_nat (count_occ Z.eq_dec image c))) centers,
       map F64.of_Z centers)
  end.

(** The dtype of 8-bit unsigned images. *)
Definition uint8 : int_dtype := {| bits := 8; signed := false |}.

Definition not_nan (x : float) : Prop := is_nan x = false.

(** [a] is strictly ascending: each element is below the next. *)
Fixpoint ascending (a : list float) : bool :=
  match a with
  | x :: (y :: _) as rest => (x <? y) && ascending rest
  | _ => true
  end.

End Li.

(** ** Histogram validation and the histogram-based thresholds *)

Module Histogram.
Import NDArray.
Local Open Scope nat_scope.

(** The exceptions of [_validate_image_histogram] and of the indexing and
    the [argmax] of the histogram-based thresholds. *)
Inductive error : Type :=
| Exception_no_input
    (* "Either image or hist must be provided." *)
| IndexError
    (* an index outside an array, as index 0 of an empty array *)
| ValueError_argmax_empty.
    (* "attempt to get an argmax of an empty sequence" *)

Inductive raises (A : Type) : Type :=
| Returns (a : A)
| Throws (e : error).
Arguments Returns {A} a.
Arguments Throws {A} e.

(** [a[start:end]] *)
Definition slice {A : Type} (a : list A) (start end_ : nat) : list A :=
  firstn (end_ - start) (skipn start a).

(** The index of the first [True] of a boolean array. *)
Fixpoint first_true (cond : list bool) : option nat :=
  match cond with
  | [] => None
  | b :: rest => if b then Some 0%nat else option_map S (first_true rest)
  end.

(** [cp.argmax] of a boolean array: the index of the first [True], 0 when
    there is none. *)
Definition argmax_bool (cond : list bool) : nat :=
  match first_true cond with
  | Some i => i
  | None => 0
  end.

Section WithDtype.

(** The dtype of the counts: its tests [c == 0] and [c > 0] and its
    conversion [astype(float)]. *)
Variable count : Type.
Variable eq_zero : count -> bool.
Variable gt_zero : count -> bool.
Variable astype_float : count -> float.

(** The pixels of an image and their test [p == q]. *)
Variable pixel : Type.
Variable pixel_eqb : pixel -> pixel -> bool.

(** [exposure.histogram(image.ravel(), nbins, source_range='image',
    normalize=normalize)] *)
Variable histogram : list pixel -> Z -> bool -> list count * list scalar.

(** [hist]: an array of counts, or a pair of counts and bin centers. *)
Inductive hist_arg : Type :=
| HistCounts (counts : list count)
| HistPair (counts : list count) (bin_centers : list scalar).

(** Lines 306-312: the zero bins at both ends are cut off. *)
Definition trim_zeros (counts : list count) (bin_centers : list scalar)
  : raises (list count * list scalar) :=
  match counts with
  | [] => Throws IndexError
  | first :: _ =>
      if eq_zero first || eq_zero (last counts first) then
        let cond := map gt_zero counts in
        let start := argmax_bool cond in
        let end_ := length cond - argmax_bool (rev cond) in
        Returns (slice counts start end_, slice bin_centers start end_)
      else Returns (counts, bin_centers)
  end.

(** [_validate_image_histogram(image, hist, nbins, normalize)], lines
    296-318 *)
Definition _validate_image_histogram (image : option (list pixel)) (hist : option hist_arg)
           (nbins : Z) (normalize : bool) : raises (list float * list scalar) :=
  match image, hist with
  | None, None => Throws Exception_no_input
  | _, Some hist =>
      let '(counts, bin_centers) :=
        match hist with
        | HistPair counts bin_centers => (counts, bin_centers)
        | HistCounts counts =>
            (counts, map (fun i => SInt (Z.of_nat i)) (seq 0 (length counts)))
        end in
      match trim_zeros counts bin_centers with
      | Throws e => Throws e
      | Returns (counts, bin_centers) => Returns (map astype_float counts, bin_centers)
      end
  | Some image, None =>
      let '(counts, bin_centers) := histogram image nbins normalize in
      Returns (map astype_float counts, bin_centers)
  end.

(** [skimage.filters.threshold_otsu], [threshold_yen] and
    [threshold_isodata] (with [return_all] false, and true) on a histogram
    given as [hist=(counts, bin_centers)]; [astype(cp.float32)]. *)
Variable _threshold_otsu_cpu : Z -> list float -> list scalar -> float.
Variable _threshold_yen_cpu : Z -> list float -> list scalar -> float.
Variable _threshold_isodata_cpu : Z -> list float -> list scalar -> float.
Variable _threshold_isodata_all_cpu : Z -> list float -> list scalar -> list float.
Variable astype_float32 : float -> float.

(** What a threshold function returns: a pixel of the image, a bin center,
    a computed float, or an array of them. *)
Inductive threshold : Type :=
| Pixel (p : pixel)
| Center (c : scalar)
| Centers (cs : list scalar)
| Computed (t : float)
| ComputedAll (ts : list float).

(** [threshold_otsu(image, nbins, hist=hist)], lines 362-380.  The warning
    on an image that looks like RGB changes no result. *)
Definition threshold_otsu (image : option (list pixel)) (nbins : Z) (hist : option hist_arg)
  : raises threshold :=
  let from_histogram :=
    match _validate_image_histogram image hist nbins false with
    | Throws e => Throws e
    | Returns (counts, bin_centers) =>
        Returns (Computed (_threshold_otsu_cpu nbins counts bin_centers))
    end in
  match image with
  | Some [] => Throws IndexError
  | Some (first_pixel :: rest) =>
      if forallb (fun p => pixel_eqb p first_pixel) (first_pixel :: rest)
      then Returns (Pixel first_pixel)
      else from_histogram
  | None => from_histogram
  end.

(** [threshold_yen(image, nbins, hist=hist)], lines 425-438 *)
Definition threshold_yen (image : option (list pixel)) (nbins : Z) (hist : option hist_arg)
  : raises threshold :=
  match _validate_image_histogram image hist nbins false with
  | Throws e => Throws e
  | Returns (counts, bin_centers) =>
      match bin_centers with
      | [c] => Returns (Center c)
      | _ => Returns (Computed (_threshold_yen_cpu nbins counts bin_centers))
      end
  end.

(** [threshold_isodata(image, nbins, return_all, hist=hist)], lines 502-521 *)
Definition threshold_isodata (image : option (list pixel)) (nbins : Z) (return_all : bool)
           (hist : option hist_arg) : raises threshold :=
  match _validate_image_histogram image hist nbins false with
  | Throws e => Throws e
  | Returns (counts, bin_centers) =>
      match bin_centers with
      | [c] => if return_all then Returns (Centers bin_centers) else Returns (Center c)
      | _ =>
          let counts := map astype_float32 counts in
          if return_all
          then Returns (ComputedAll (_threshold_isodata_all_cpu nbins counts bin_centers))
          else Returns (Computed (_threshold_isodata_cpu nbins counts bin_centers))
      end
  end.

(** [skimage.filters.threshold_minimum] and [threshold_multiotsu] on a
    histogram given as [hist=(counts, bin_centers)]. *)
Variable _threshold_minimum_cpu : Z -> Z -> list float -> list scalar -> float.
Variable _threshold_multiotsu_cpu : Z -> Z -> list float -> list scalar -> list float.

(** [threshold_minimum(image, nbins, max_num_iter, hist=hist)], lines
    792-802 *)
Definition threshold_minimum (image : option (list pixel)) (nbins max_num_iter : Z)
           (hist : option hist_arg) : raises threshold :=
  match _validate_image_histogram image hist nbins false with
  | Throws e => Throws e
  | Returns (counts, bin_centers) =>
      Returns (Computed (_threshold_minimum_cpu nbins max_num_iter counts bin_centers))
  end.

(** [threshold_multiotsu(image, classes, nbins, hist=hist)], lines
    1240-1256.  The warning on an image that looks like RGB changes no
    result. *)
Definition threshold_multiotsu (image : option (list pixel)) (classes nbins : Z)
           (hist : option hist_arg) : raises threshold :=
  match _validate_image_histogram image hist nbins true with
  | Throws e => Throws e
  | Returns (prob, bin_centers) =>
      let prob := map astype_float32 prob in
      Returns (ComputedAll (_threshold_multiotsu_cpu classes nbins prob bin_centers))
  end.

End WithDtype.

(** Counts held as integers: the tests [c == 0] and [c > 0]. *)
Definition int_eq_zero (c : Z) : bool := (c =? 0)%Z.
Definition int_gt_zero (c : Z) : bool := (0 <? c)%Z.

End Histogram.

(** ** The triangle threshold *)

Module Triangle.
Import Histogram.
Local Open Scope Z_scope.

(** int64 arithmetic wraps around. *)
Definition wrap64 (z : Z) : Z := (z + 2 ^ 63) mod 2 ^ 64 - 2 ^ 63.

(** [cp.argmax] of an array of counts: the index of the first occurrence of
    the maximum. *)
Fixpoint argmax_from (l : list Z) (i best : nat) (best_value : Z) : nat :=
  match l with
  | [] => best
  | x :: rest =>
      if best_value <? x then argmax_from rest (S i) i x
      else argmax_from rest (S i) best best_value
  end.

Definition argmax_int (l : list Z) : option nat :=
  match l with
  | [] => None
  | x :: rest => Some (argmax_from rest 1 0 x)
  end.

(** [cp.where(hist > 0)[0]] *)
Definition positive_indices (hist : list Z) : list nat :=
  filter (fun i => 0 <? nth i hist 0) (seq 0 (length hist)).

(** [a[i]] for an integer [i]: a negative index counts from the end. *)
Definition getitem {A : Type} (a : list A) (i : Z) : option A :=
  let n := Z.of_nat (length a) in
  if (0 <=? i) && (i <? n) then nth_error a (Z.to_nat i)
  else if (- n <=? i) && (i <? 0) then nth_error a (Z.to_nat (n + i))
  else None.

Section WithHistogram.

Variable pixel : Type.

(** [exposure.histogram(image.ravel(), nbins, source_range='image')]: the
    counts, of dtype int64, and the bin centers. *)
Variable histogram : list pixel -> Z -> list Z * list scalar.

(** [cp.argmax] of a float array, [None] for the [ValueError] on an empty
    array. *)
Variable argmax : list float -> option nat.

(** [threshold_triangle(image, nbins)], lines 869-919.  The indices
    [x1 + arg_low_level] lie within [hist], so what CuPy does with an index
    outside an array plays no part.  The in-place divisions by [norm] raise
    a [TypeError] on the integer operands and are redone out of place, with
    the same quotients. *)
Definition threshold_triangle (image : list pixel) (nbins : Z) : raises scalar :=
  let '(hist, bin_centers) := histogram image nbins in
  let nbins := Z.of_nat (length hist) in
  match argmax_int hist with
  | None => Throws ValueError_argmax_empty
  | Some arg_peak_height =>
      let peak_height := nth arg_peak_height hist 0 in
      match positive_indices hist with
      | [] => Throws IndexError
      | (first :: _) as positive =>
          let arg_peak_height := Z.of_nat arg_peak_height in
          let arg_low_level := Z.of_nat first in
          let arg_high_level := Z.of_nat (last positive first) in
          let flip := arg_peak_height - arg_low_level <? arg_high_level - arg_peak_height in
          let hist := if flip then rev hist else hist in
          let arg_low_level := if flip then nbins - arg_high_level - 1 else arg_low_level in
          let arg_peak_height :=
            if flip then nbins - arg_peak_height - 1 else arg_peak_height in
          let width := arg_peak_height - arg_low_level in
          let x1 := map Z.of_nat (seq 0 (Z.to_nat width)) in
          let y1 := map (fun x => nth (Z.to_nat (x + arg_low_level)) hist 0) x1 in
          let norm := PrimFloat.sqrt (F64.of_Z (wrap64 (peak_height ^ 2 + width ^ 2))) in
          let peak_height := (F64.of_Z peak_height / norm)%float in
          let width := (F64.of_Z width / norm)%float in
          let length :=
            map (fun '(x, y) => (peak_height * F64.of_Z x - width * F64.of_Z y)%float)
                (combine x1 y1) in
          match argmax length with
          | None => Throws ValueError_argmax_empty
          | Some a =>
              let arg_level := Z.of_nat a + arg_low_level in
              let arg_level := if flip then nbins - arg_level - 1 else arg_level in
              match getitem bin_centers arg_level with
              | Some c => Returns c
              | None => Throws IndexError
              end
          end
      end
  end.

End WithHistogram.

(** A [cp.argmax] of float arrays without NaN: the first occurrence of the
    maximum. *)
Fixpoint first_max_from (l : list float) (i best : nat) (best_value : float) : nat :=
  match l with
  | [] => best
  | x :: rest =>
      if (best_value <? x)%float then first_max_from rest (S i) i x
      else first_max_from rest (S i) best best_value
  end.

Definition first_max (l : list float) : option nat :=
  match l with
  | [] => None
  | x :: rest => Some (first_max_from rest 1 0 x)
  end.

End Triangle.

(** ** Predicates on the results of Li's threshold *)

Module LiEdge.
Import Li.

(** The calls of the callback end with the value that is returned. *)
Definition reported (r : outcome) (calls : list float) : Prop :=
  match r with
  | Return x => exists earlier t, calls = earlier ++ [t] /\ x = SFloat t
  | _ => True
  end.

(** [x] is a zero of either sign. *)
Definition is_zero (x : float) : Prop := exists s, Prim2SF x = S754_zero s.

End LiEdge.

(** ** What [ndi.label] is taken to return *)

Module HysteresisLabels.
Import NDArray Hysteresis.
Local Open Scope nat_scope.

(** [labels] and [num_labels] label [mask]: one label per pixel, the label
    0 on the pixels outside the mask and only there, and no label above
    [num_labels]. *)
Definition labelling (mask : list bool) (labels : list nat) (num_labels : nat) : Prop :=
  length labels = length mask
  /\ Forall (fun l => l <= num_labels) labels
  /\ forall i, nth i labels 0 = 0 <-> nth i mask false = false.

(** The pixels whose label is the label of a pixel above [high]. *)
Definition connected_to (labels : list nat) (mask_high : list bool) : list bool :=
  map (fun l => existsb (Nat.eqb l) (select labels mask_high)) labels.

End HysteresisLabels.

(** ** Normalized moments, the inertia tensor and its eigenvalues *)

From Stdlib Require Import Permutation.

Module Moments.
Import NDArray.
Local Open Scope nat_scope.

Inductive error : Type :=
| ValueError_order
    (* "Shape of image moments must be >= `order`" *)
| IndexError
    (* an index outside an array *)
| ValueError_diag.
    (* np.diag: "Input must be 1- or 2-d." *)

Inductive raises (A : Type) : Type :=
| Returns (a : A)
| Throws (e : error).
Arguments Returns {A} a.
Arguments Throws {A} e.

(** [l[i] = v] for an index inside [l]. *)
Fixpoint set_nth (l : list float) (i : nat) (v : float) : list float :=
  match l, i with
  | [], _ => []
  | _ :: t, O => v :: t
  | x :: t, S i' => x :: set_nth t i' v
  end.

(** [a[idx] = v] *)
Definition set (a : ndarray) (idx : list nat) (v : float) : ndarray :=
  mk (shape a) (set_nth (data a) (ravel (shape a) idx) v).

(** [np.zeros_like(a)] *)
Definition zeros_like (a : ndarray) : ndarray :=
  mk (shape a) (map (fun _ => 0%float) (data a)).

(** [itertools.product(range(order + 1), repeat=ndim)]: the tuples in
    lexicographic order. *)
Definition powers_upto (order : Z) (ndim : nat) : list (list nat) :=
  indices (repeat (Z.to_nat (order + 1)) ndim).

(** [sum(powers)] *)
Definition sum (powers : list nat) : nat := fold_right Nat.add 0 powers.

(** [idx] is an index inside an array of shape [shape]. *)
Definition in_range (idx shape : list nat) : Prop := Forall2 lt idx shape.

(** The data of [a] fill its shape. *)
Definition well_formed (a : ndarray) : Prop :=
  length (data a) = fold_right Nat.mul 1 (shape a).

Section WithPower.

(** [x ** y] on float64. *)
Variable pow : float -> float -> float.

(** The value assigned to [nu[powers]], lines 333-336. *)
Definition normalized (mu : ndarray) (mu0 : float) (powers : list nat) : float :=
  if sum powers <? 2 then nan
  else (get mu powers
        / pow mu0 (F64.of_Z (Z.of_nat (sum powers)) / F64.of_Z (Z.of_nat (ndim mu)) + 1))%float.

(** [moments_normalized(mu, order)], lines 327-337, on a float64 array
    [mu].  Past the check of the shape every [powers] is an index inside
    [nu]. *)
Definition moments_normalized (mu : ndarray) (order : Z) : raises ndarray :=
  if existsb (fun s => (Z.of_nat s <=? order)%Z) (shape mu)
  then Throws ValueError_order
  else
    let nu := zeros_like mu in
    match data mu with
    | [] => Throws IndexError
    | mu0 :: _ =>
        Returns (fold_left (fun nu powers => set nu powers (normalized mu mu0 powers))
                           (powers_upto order (ndim mu)) nu)
    end.

End WithPower.

(** [2 * np.eye(ndim, dtype=int)]: the rows. *)
Definition eye2 (ndim : nat) : list (list nat) :=
  map (fun i => map (fun j => if i =? j then 2 else 0) (seq 0 ndim)) (seq 0 ndim).

(** The [k]-th index that [mu[corners2]] reads, [corners2] being the tuple
    of the rows of [2 * eye]: the [k]-th entry of every row. *)
Definition corner2 (ndim k : nat) : list nat :=
  map (fun row => nth k row 0) (eye2 ndim).

(** Twice the [k]-th unit vector: the index of the second-order moment of
    axis [k]. *)
Definition twice_unit (ndim k : nat) : list nat :=
  map (fun a => if a =? k then 2 else 0) (seq 0 ndim).

(** [itertools.combinations(range(ndim), 2)] *)
Definition combinations2 (ndim : nat) : list (nat * nat) :=
  flat_map (fun i => map (pair i) (seq (S i) (ndim - S i))) (seq 0 ndim).

(** [mu_index]: zeros with a one at the two places of [dims]. *)
Definition mu_index (ndim : nat) (dims : nat * nat) : list nat :=
  map (fun k => if (k =? fst dims) || (k =? snd dims) then 1 else 0) (seq 0 ndim).

(** [np.diag(v)]: the square array with [v] on its diagonal. *)
Definition diag (v : list float) : ndarray :=
  build [length v; length v]
        (fun idx => match idx with
                    | [i; j] => if i =? j then nth i v 0%float else 0%float
                    | _ => 0%float
                    end).

Section WithSum.

(** [np.sum] of a float64 vector. *)
Variable fsum : list float -> float.

(** [inertia_tensor(image, mu)], lines 468-488, for a float64 array [mu] of
    the dimension of the image, as [moments_central] returns it: the image
    enters through [image.ndim] only.  [result.T[dims]] is the element
    [result[dims[1], dims[0]]] of the one array. *)
Definition inertia_tensor (mu : ndarray) : raises ndarray :=
  let ndim := ndim mu in
  if existsb (fun s => s <? 3) (shape mu) then Throws IndexError
  else if ndim =? 0 then Throws ValueError_diag
  else
    let mu0 := get mu (repeat 0 ndim) in
    let corners := map (fun k => get mu (corner2 ndim k)) (seq 0 ndim) in
    let total := fsum corners in
    let result := diag (map (fun c => ((total - c) / mu0)%float) corners) in
    Returns
      (fold_left
         (fun result dims =>
            let result := set result [fst dims; snd dims]
                              (- get mu (mu_index ndim dims) / mu0)%float in
            set result [snd dims; fst dims] (- get mu (mu_index ndim dims) / mu0)%float)
         (combinations2 ndim) result).

(** [x >= y] for every element and its successor. *)
Fixpoint descending (l : list float) : bool :=
  match l with
  | x :: (y :: _) as rest => (y <=? x)%float && descending rest
  | _ => true
  end.

(** What [sorted(l, reverse=True)] is taken to do on floats without NaN,
    where [<] orders them: to return the elements in descending order. *)
Definition sorts_descending (sorted_reverse : list float -> list float) : Prop :=
  forall l, Forall (fun x => is_nan x = false) l ->
            Permutation (sorted_reverse l) l /\ descending (sorted_reverse l) = true.

Section WithEigvalsh.

Variable image : Type.

(** [moments_central(image, order=order)] *)
Variable moments_central : image -> Z -> ndarray.

(** [np.linalg.eigvalsh] *)
Variable eigvalsh : ndarray -> list float.

(** [sorted(eigvals, reverse=True)] *)
Variable sorted_reverse : list float -> list float.

(** [inertia_tensor(image, mu)] with [mu] possibly [None], lines 468-469 *)
Definition inertia_tensor_of (im : image) (mu : option ndarray) : raises ndarray :=
  inertia_tensor (match mu with Some mu => mu | None => moments_central im 2 end).

(** [inertia_tensor_eigvals(image, mu, T)], lines 529-539.  [np.clip] with
    the lower bound 0 replaces what is below 0; the sign of a zero is the
    one [F64.clip] gives. *)
Definition inertia_tensor_eigvals (im : image) (mu T : option ndarray)
  : raises (list float) :=
  match (match T with
         | None => inertia_tensor_of im mu
         | Some T => Returns T
         end) with
  | Throws e => Throws e
  | Returns T =>
      let eigvals := eigvalsh T in
      let eigvals := map (fun x => F64.clip x (Some 0%float) None) eigvals in
      Returns (sorted_reverse eigvals)
  end.

End WithEigvalsh.

End WithSum.

(** Insertion into a descending list, and the sort by insertion: a sort of
    floats without NaN. *)
Fixpoint insert_descending (x : float) (l : list float) : list float :=
  match l with
  | [] => [x]
  | y :: rest => if (y <? x)%float then x :: l else y :: insert_descending x rest
  end.

Definition sort_descending (l : list float) : list float :=
  fold_right insert_descending [] l.

End Moments.

(** * Properties *)

(** ** Facts about float64 arithmetic *)

Module F64Facts.
Import F64.
Open Scope float_scope.

(** *** Comparison and classification *)

Lemma SFcompare_refl x : x <> S754_nan -> SFcompare x x = Some Eq.
Proof.
  destruct x as [s|s| |s m e]; simpl; intros H; try congruence.
  - now destruct s.
  - destruct s; rewrite Z.compare_refl, Pos.compare_cont_refl; reflexivity.
Qed.

Lemma SFcompare_antisym x y :
  SFcompare y x = option_map CompOpp (SFcompare x y).
Proof.
  destruct x as [sx|sx| |sx mx ex], y as [sy|sy| |sy my ey]; simpl;
    try reflexivity; try (destruct sx; reflexivity); try (destruct sy; reflexivity);
    try (destruct sx, sy; reflexivity).
  destruct sx, sy; simpl; try reflexivity;
    rewrite (Z.compare_antisym ex ey); destruct (ex ?= ey)%Z; simpl; try reflexivity;
    pose proof (Pos.compare_cont_antisym mx my Eq) as H; simpl in H;
    rewrite <- H; destruct (Pos.compare_cont Eq mx my); reflexivity.
Qed.

Lemma is_nan_spec x :
  is_nan x = match Prim2SF x with S754_nan => true | _ => false end.
Proof.
  unfold is_nan. rewrite eqb_spec. unfold SFeqb.
  destruct (Prim2SF x) eqn:E; try reflexivity;
    rewrite SFcompare_refl by discriminate; reflexivity.
Qed.

Lemma is_infinity_spec x :
  is_infinity x = match Prim2SF x with S754_infinity _ => true | _ => false end.
Proof.
  unfold is_infinity. rewrite eqb_spec, abs_spec.
  replace (Prim2SF infinity) with (S754_infinity false) by reflexivity.
  destruct (Prim2SF x) as [s|s| |s m e]; reflexivity.
Qed.

Lemma is_finite_spec x :
  is_finite x = match Prim2SF x with S754_nan | S754_infinity _ => false | _ => true end.
Proof.
  unfold is_finite. rewrite is_nan_spec, is_infinity_spec.
  destruct (Prim2SF x); reflexivity.
Qed.

(** *** Multiplication by one is exact *)

Lemma bounded_inv m e :
  bounded prec emax m e = true ->
  fexp prec emax (Z.pos (digits2_pos m) + e) = e /\ (e <= emax - prec)%Z.
Proof.
  unfold bounded, canonical_mantissa. rewrite andb_true_iff, Z.eqb_eq, Z.leb_le. tauto.
Qed.

Lemma digits2_pos_shift52 m :
  Z.pos (digits2_pos (m * 4503599627370496)) = (Z.pos (digits2_pos m) + 52)%Z.
Proof.
  rewrite Pos.mul_comm. cbn [Pos.mul digits2_pos].
  repeat rewrite Pos2Z.inj_succ. lia.
Qed.

Lemma shr_fexp_canonical m e :
  fexp prec emax (Z.pos (digits2_pos m) + e) = e ->
  shr_fexp prec emax (Z.pos m) e loc_Exact =
  ({| shr_m := Z.pos m; shr_r := false; shr_s := false |}, e).
Proof.
  intros Hc. unfold shr_fexp, Zdigits2. rewrite Hc, Z.sub_diag. reflexivity.
Qed.

Lemma shr_fexp_shift52 m e :
  fexp prec emax (Z.pos (digits2_pos m) + e) = e ->
  shr_fexp prec emax (Z.pos (m * 4503599627370496)) (e + -52) loc_Exact =
  ({| shr_m := Z.pos m; shr_r := false; shr_s := false |}, e).
Proof.
  intros Hc. unfold shr_fexp, Zdigits2.
  rewrite digits2_pos_shift52.
  replace (Z.pos (digits2_pos m) + 52 + (e + -52))%Z with (Z.pos (digits2_pos m) + e)%Z by lia.
  rewrite Hc. replace (e - (e + -52))%Z with 52%Z by lia.
  rewrite Pos.mul_comm. cbn [Pos.mul shr shr_record_of_loc iter_pos shr_1 orb].
  f_equal. lia.
Qed.

Lemma SF64mul_one x :
  valid_binary x = true ->
  SF64mul x (S754_finite false 4503599627370496 (-52)) = x.
Proof.
  destruct x as [s|s| |s m e]; simpl; intros Hv;
    try reflexivity; try (destruct s; reflexivity).
  apply bounded_inv in Hv. destruct Hv as [Hc He].
  unfold binary_round_aux. rewrite (shr_fexp_shift52 _ _ Hc).
  cbn [round_nearest_even loc_of_shr_record shr_m].
  rewrite (shr_fexp_canonical _ _ Hc). cbn [shr_m].
  apply Z.leb_le in He. rewrite He.
  now destruct s.
Qed.

Lemma mul_one x : x * 1 = x.
Proof.
  apply Prim2SF_inj. rewrite mul_spec.
  change (Prim2SF 1) with (S754_finite false 4503599627370496 (-52)).
  apply SF64mul_one, Prim2SF_valid.
Qed.

Open Scope Z_scope.

(** *** Rounding keeps a bounded mantissa finite; the square root *)

Lemma digits2_pos_size p : digits2_pos p = Pos.size p.
Proof. induction p; simpl; congruence. Qed.

Lemma Zdigits2_log2 p : Zdigits2 (Z.pos p) = Z.log2 (Z.pos p) + 1.
Proof.
  unfold Zdigits2. rewrite digits2_pos_size.
  destruct p; simpl; try rewrite Pos2Z.inj_succ; lia.
Qed.

Lemma Zdigits2_le m k : 0 <= m < 2 ^ k -> 0 <= k -> 0 <= Zdigits2 m <= k.
Proof.
  intros [H0 Hk] Hk0. destruct m as [|p|p]; try lia.
  - simpl. lia.
  - rewrite Zdigits2_log2.
    assert (Z.log2 (Z.pos p) < k) by (apply Z.log2_lt_pow2; lia).
    pose proof (Z.log2_nonneg (Z.pos p)). lia.
Qed.

Lemma iter_pos_nat {A} (f : A -> A) n x :
  iter_pos f n x = Nat.iter (Pos.to_nat n) f x.
Proof.
  revert x. induction n as [n IH|n IH|]; intros x; cbn [iter_pos].
  - rewrite !IH, Pos2Nat.inj_xI, <- Nat.iter_add, Nat.iter_succ_r.
    f_equal. lia.
  - rewrite !IH, Pos2Nat.inj_xO, <- Nat.iter_add. f_equal. lia.
  - reflexivity.
Qed.

Lemma shr_1_bound mrs : 0 <= shr_m mrs -> 0 <= shr_m (shr_1 mrs) /\ 2 * shr_m (shr_1 mrs) <= shr_m mrs.
Proof.
  destruct mrs as [m r s]. simpl. intros H.
  destruct m as [|[p|p|]|p]; simpl;
    try rewrite Pos2Z.inj_xI; try rewrite Pos2Z.inj_xO; lia.
Qed.

Lemma iter_shr_1_bound n mrs :
  0 <= shr_m mrs ->
  0 <= shr_m (Nat.iter n shr_1 mrs) /\ 2 ^ Z.of_nat n * shr_m (Nat.iter n shr_1 mrs) <= shr_m mrs.
Proof.
  intros H. induction n as [|n [IH1 IH2]].
  - cbn [Nat.iter nat_rect Z.of_nat]. rewrite Z.pow_0_r. lia.
  - rewrite Nat2Z.inj_succ, Z.pow_succ_r by lia. simpl Nat.iter.
    destruct (shr_1_bound _ IH1) as [H1 H2]. split; [assumption|].
    assert (0 < 2 ^ Z.of_nat n) by (apply Z.pow_pos_nonneg; lia).
    nia.
Qed.

Lemma shr_m_of_loc m l : shr_m (shr_record_of_loc m l) = m.
Proof. destruct l as [|[]]; reflexivity. Qed.

(** Exponent and mantissa after one alignment step. *)
Lemma shr_fexp_bound prec emax m e l :
  0 <= m ->
  let '(mrs, e1) := shr_fexp prec emax m e l in
  0 <= shr_m mrs /\ e <= e1 /\ e1 = Z.max e (fexp prec emax (Zdigits2 m + e)) /\
  2 ^ (e1 - e) * shr_m mrs <= m.
Proof.
  intros Hm. unfold shr_fexp, shr.
  destruct (fexp prec emax (Zdigits2 m + e) - e) as [|n|n] eqn:E.
  - rewrite shr_m_of_loc, Z.sub_diag, Z.pow_0_r. lia.
  - rewrite iter_pos_nat.
    destruct (iter_shr_1_bound (Pos.to_nat n) (shr_record_of_loc m l)) as [H1 H2].
    { now rewrite shr_m_of_loc. }
    rewrite shr_m_of_loc in H2. rewrite positive_nat_Z in H2.
    replace (e + Z.pos n - e) with (Z.pos n) by lia. repeat split; try lia; assumption.
  - rewrite shr_m_of_loc, Z.sub_diag, Z.pow_0_r. lia.
Qed.

Lemma round_nearest_even_bound m l : m <= round_nearest_even m l <= m + 1.
Proof. destruct l as [|[]]; simpl; try destruct (Z.even m); lia. Qed.

Lemma binary_round_aux_finite sx mx ex lx k :
  0 <= mx < 2 ^ k -> 0 <= k -> k + ex + 1 <= emax -> ex <= emax - prec ->
  SFfinite_signed sx (binary_round_aux prec emax sx mx ex lx) = true.
Proof.
  intros Hm Hk Hke He. unfold binary_round_aux.
  pose proof (shr_fexp_bound prec emax mx ex lx (proj1 Hm)) as H1.
  destruct (shr_fexp prec emax mx ex lx) as [mrs1 e1].
  destruct H1 as (H1a & H1b & H1c & H1d).
  set (m2 := round_nearest_even (shr_m mrs1) (loc_of_shr_record mrs1)).
  pose proof (round_nearest_even_bound (shr_m mrs1) (loc_of_shr_record mrs1)) as Hr.
  fold m2 in Hr.
  assert (Hm2 : 0 <= m2) by lia.
  pose proof (shr_fexp_bound prec emax m2 e1 loc_Exact Hm2) as H2.
  destruct (shr_fexp prec emax m2 e1 loc_Exact) as [mrs2 e2].
  destruct H2 as (H2a & H2b & H2c & H2d).
  destruct (shr_m mrs2) as [|p|p] eqn:Ep; try lia.
  { simpl. apply Bool.eqb_reflx. }
  assert (Hd : 0 <= Zdigits2 mx <= k) by (apply Zdigits2_le; lia).
  assert (He1 : e1 <= emax - prec).
  { rewrite H1c. unfold fexp, SpecFloat.emin, emax, prec in *. lia. }
  assert (Hd2 : Zdigits2 m2 + e1 <= emax).
  { destruct (Z.le_gt_cases (e1 - ex) k) as [Hle|Hgt].
    - assert (Hb : 0 <= m2 < 2 ^ (k - (e1 - ex) + 1)).
      { split; [assumption|].
        assert (shr_m mrs1 < 2 ^ (k - (e1 - ex))).
        { apply Z.mul_lt_mono_pos_l with (p := 2 ^ (e1 - ex)).
          - apply Z.pow_pos_nonneg; lia.
          - rewrite <- Z.pow_add_r by lia.
            replace (e1 - ex + (k - (e1 - ex))) with k by lia. lia. }
        rewrite Z.pow_add_r by lia. simpl (2 ^ 1). lia. }
      apply Zdigits2_le in Hb; lia.
    - assert (shr_m mrs1 = 0).
      { assert (2 ^ k < 2 ^ (e1 - ex)) by (apply Z.pow_lt_mono_r; lia). nia. }
      assert (Hb : 0 <= m2 < 2 ^ 1) by (simpl; lia).
      apply Zdigits2_le in Hb; unfold emax, prec in *; lia. }
  assert (He2 : e2 <= emax - prec).
  { rewrite H2c. unfold fexp, SpecFloat.emin, emax, prec in *. lia. }
  apply Z.leb_le in He2. rewrite He2. simpl. apply Bool.eqb_reflx.
Qed.

Lemma SF64sqrt_finite m e :
  bounded prec emax m e = true ->
  SFfinite_signed false (SF64sqrt (S754_finite false m e)) = true.
Proof.
  intros Hb. apply bounded_inv in Hb. destruct Hb as [Hc He].
  unfold SF64sqrt, SFsqrt, SFsqrt_core_binary.
  set (d := Zdigits2 (Z.pos m)).
  set (e' := Z.min (fexp prec emax (Z.div2 (d + e + 1))) (Z.div2 e)).
  set (s := e - 2 * e').
  assert (Hd : 1 <= d <= 53).
  { unfold d, Zdigits2. unfold fexp, SpecFloat.emin, emax, prec in Hc. lia. }
  assert (He' : 2 * e' <= e).
  { unfold e'. rewrite (Z.div2_div e).
    pose proof (Z.le_min_r (fexp prec emax (Z.div2 (d + e + 1))) (e / 2)) as Hmin.
    pose proof (Z.mul_div_le e 2 ltac:(lia)) as Hdiv.
    generalize dependent (Z.min (fexp prec emax (Z.div2 (d + e + 1))) (e / 2)).
    intros. lia. }
  assert (Hs : 0 <= s) by (unfold s; lia).
  assert (Hddef : d = Zdigits2 (Z.pos m)) by reflexivity.
  set (m' := match s with Z.pos _ => Z.shiftl (Z.pos m) s | 0 => Z.pos m | Z.neg _ => 0 end).
  assert (Hm' : m' = Z.pos m * 2 ^ s).
  { unfold m'. destruct s as [|p|p] eqn:Es.
    - rewrite Z.pow_0_r. lia.
    - apply Z.shiftl_mul_pow2. lia.
    - lia. }
  assert (Hsdef : s = e - 2 * e') by reflexivity.
  clearbody m' s e' d.
  pose proof (Z.sqrtrem_sqrt m') as Hq.
  destruct (Z.sqrtrem m') as [q r]. simpl in Hq. subst q.
  assert (Hmd : Z.pos m < 2 ^ d).
  { rewrite Hddef, Zdigits2_log2.
    pose proof (Z.log2_spec (Z.pos m) ltac:(lia)) as Hl.
    replace (Z.succ (Z.log2 (Z.pos m))) with (Z.log2 (Z.pos m) + 1) in Hl by lia. lia. }
  assert (H2s : 0 < 2 ^ s) by (apply Z.pow_pos_nonneg; lia).
  assert (Hm0 : 0 <= m') by (rewrite Hm'; lia).
  pose proof (Z.sqrt_spec m' Hm0) as Hsq. cbv zeta in Hsq.
  pose proof (Z.sqrt_nonneg m') as Hq0.
  set (k := (d + s + 1) / 2).
  assert (Hk : d + s <= 2 * k <= d + s + 1).
  { unfold k. Z.div_mod_to_equations. lia. }
  clearbody k.
  apply binary_round_aux_finite with (k := k).
  - split; [assumption|].
    assert (Hlt : m' < 2 ^ k * 2 ^ k).
    { rewrite <- Z.pow_add_r by lia.
      apply Z.lt_le_trans with (2 ^ (d + s)).
      - rewrite Hm', Z.pow_add_r by lia. nia.
      - apply Z.pow_le_mono_r; lia. }
    assert (0 < 2 ^ k) by (apply Z.pow_pos_nonneg; lia).
    nia.
  - lia.
  - unfold emax, prec in *. lia.
  - unfold emax, prec in *. lia.
Qed.

Close Scope Z_scope.

Open Scope float_scope.

Lemma ltb_neg_infinity x : (x <? neg_infinity) = false.
Proof.
  rewrite ltb_spec. change (Prim2SF neg_infinity) with (S754_infinity true).
  destruct (Prim2SF x) as [s|s| |s m e]; try reflexivity; destruct s; reflexivity.
Qed.

Lemma infinity_ltb x : (infinity <? x) = false.
Proof.
  rewrite ltb_spec. change (Prim2SF infinity) with (S754_infinity false).
  destruct (Prim2SF x) as [s|s| |s m e]; try reflexivity; destruct s; reflexivity.
Qed.

Lemma leb_zero_spec x : (0 <=? x) = SFnonneg (Prim2SF x).
Proof.
  rewrite leb_spec. change (Prim2SF 0) with (S754_zero false).
  destruct (Prim2SF x) as [s|s| |s m e]; try reflexivity; destruct s; reflexivity.
Qed.

Lemma ltb_zero_spec x :
  (x <? 0) = match Prim2SF x with
             | S754_infinity true | S754_finite true _ _ => true
             | _ => false
             end.
Proof.
  rewrite ltb_spec. change (Prim2SF 0) with (S754_zero false).
  destruct (Prim2SF x) as [s|s| |s m e]; try reflexivity; destruct s; reflexivity.
Qed.

Lemma not_ltb_zero_nonneg x :
  is_nan x = false -> (x <? 0) = false -> SFnonneg (Prim2SF x) = true.
Proof.
  rewrite is_nan_spec, ltb_zero_spec.
  destruct (Prim2SF x) as [s|s| |s m e]; try destruct s; simpl; congruence.
Qed.

Lemma leb_negb_ltb x y :
  is_nan x = false -> is_nan y = false -> negb (y <? x) = (x <=? y).
Proof.
  rewrite !is_nan_spec, ltb_spec, leb_spec. unfold SFltb, SFleb.
  rewrite (SFcompare_antisym (Prim2SF x) (Prim2SF y)).
  destruct (Prim2SF x) as [sx|sx| |sx mx ex] eqn:Ex; try discriminate;
    destruct (Prim2SF y) as [sy|sy| |sy my ey] eqn:Ey; try discriminate; intros _ _;
    destruct (SFcompare _ _) as [[]|] eqn:E; try reflexivity; simpl in E; 
    try discriminate; destruct sx; try discriminate; destruct sy; discriminate.
Qed.

Lemma ltb_abs_sub_not_nan tol a b :
  (tol <? abs (a - b)) = true -> is_nan a = false.
Proof.
  rewrite ltb_spec, abs_spec, sub_spec, is_nan_spec.
  destruct (Prim2SF a) as [sa|sa| |sa ma ea]; try reflexivity.
  simpl. destruct (Prim2SF tol); discriminate.
Qed.

Lemma same_refl x : F64.same x x = true.
Proof.
  unfold F64.same. unfold is_nan. destruct (x =? x); reflexivity.
Qed.

Lemma same_of_SF x y :
  match Prim2SF x, Prim2SF y with
  | S754_zero _, S754_zero _ => True
  | a, b => a = b
  end -> F64.same x y = true.
Proof.
  intros H. unfold F64.same. rewrite !is_nan_spec, eqb_spec. unfold SFeqb.
  destruct (Prim2SF x) as [sx|sx| |sx mx ex]; destruct (Prim2SF y) as [sy|sy| |sy my ey];
    try discriminate; try reflexivity; inversion H; subst;
    rewrite SFcompare_refl; try reflexivity; discriminate.
Qed.

Lemma mul_zero_finite s :
  is_finite s = true -> exists b, Prim2SF (0 * s) = S754_zero b.
Proof.
  rewrite is_finite_spec, mul_spec. change (Prim2SF 0) with (S754_zero false).
  destruct (Prim2SF s) as [b|b| |b m e]; try discriminate; intros _; simpl; eauto.
Qed.

Lemma sub_zero_same m z b :
  Prim2SF z = S754_zero b -> F64.same (m - z) m = true.
Proof.
  intros Hz. apply same_of_SF. rewrite sub_spec, Hz.
  destruct (Prim2SF m) as [sm|sm| |sm mm em]; simpl; try reflexivity.
  destruct sm, b; exact I.
Qed.

Lemma one_add_zero z b : Prim2SF z = S754_zero b -> 1 + z = 1.
Proof.
  intros Hz. apply Prim2SF_inj. rewrite add_spec, Hz. reflexivity.
Qed.

Lemma SFleb_trans x y z : SFleb x y = true -> SFleb y z = true -> SFleb x z = true.
Proof.
  unfold SFleb, SFcompare.
  destruct x as [[]|[]| |[] mx ex], y as [[]|[]| |[] my ey], z as [[]|[]| |[] mz ez];
    try (intros; reflexivity); try (intros; discriminate);
    change (Pos.compare_cont Eq) with Pos.compare;
    destruct (Z.compare_spec ex ey); destruct (Z.compare_spec ey ez);
    destruct (Z.compare_spec ex ez); try lia; try (intros; reflexivity); try (intros; discriminate);
    subst;
    destruct (Pos.compare_spec mx my); destruct (Pos.compare_spec my mz);
    destruct (Pos.compare_spec mx mz); simpl; try lia; try (intros; reflexivity); try (intros; discriminate).
Qed.

Lemma leb_trans x y z : (x <=? y) = true -> (y <=? z) = true -> (x <=? z) = true.
Proof. rewrite !leb_spec. apply SFleb_trans. Qed.

Lemma ltb_leb x y : (x <? y) = true -> (x <=? y) = true.
Proof.
  rewrite ltb_spec, leb_spec. unfold SFltb, SFleb.
  destruct (SFcompare _ _) as [[]|]; congruence.
Qed.

Lemma leb_refl x : is_nan x = false -> (x <=? x) = true.
Proof.
  rewrite is_nan_spec, leb_spec. unfold SFleb. intros H.
  rewrite SFcompare_refl; [reflexivity|]. destruct (Prim2SF x); congruence.
Qed.

Lemma binary_round_aux_not_nan sx mx ex lx :
  (0 <= mx)%Z -> binary_round_aux prec emax sx mx ex lx <> S754_nan.
Proof.
  intros Hm. unfold binary_round_aux.
  pose proof (shr_fexp_bound prec emax mx ex lx Hm) as H1.
  destruct (shr_fexp prec emax mx ex lx) as [mrs1 e1].
  destruct H1 as (H1a & _).
  pose proof (round_nearest_even_bound (shr_m mrs1) (loc_of_shr_record mrs1)) as Hr.
  pose proof (shr_fexp_bound prec emax
                (round_nearest_even (shr_m mrs1) (loc_of_shr_record mrs1)) e1 loc_Exact
                ltac:(lia)) as H2.
  destruct (shr_fexp prec emax _ e1 loc_Exact) as [mrs2 e2].
  destruct H2 as (H2a & _).
  destruct (shr_m mrs2) as [|p|p]; try discriminate; try lia.
  destruct (e2 <=? emax - prec)%Z; discriminate.
Qed.

Lemma binary_normalize_not_nan m e : binary_normalize prec emax m e false <> S754_nan.
Proof.
  destruct m as [|p|p]; simpl; try discriminate; unfold binary_round;
    destruct (shl_align _ _ _) as [mz ez]; apply binary_round_aux_not_nan; lia.
Qed.


Lemma sub_finite_not_nan a b :
  is_finite a = true -> is_finite b = true -> is_nan (b - a) = false.
Proof.
  rewrite !is_finite_spec, is_nan_spec, sub_spec.
  destruct (Prim2SF a) as [sa|sa| |sa ma ea]; try discriminate;
    destruct (Prim2SF b) as [sb|sb| |sb mb eb]; try discriminate; intros _ _.
  - simpl. destruct sb, sa; reflexivity.
  - reflexivity.
  - reflexivity.
  - unfold SF64sub, SFsub.
    match goal with |- context [binary_normalize ?p ?q ?m ?e ?s] =>
      pose proof (binary_normalize_not_nan m e) as Hn;
      destruct (binary_normalize p q m e s) end; congruence.
Qed.

Lemma sub_ascending_not_nan a b :
  (a <? b) = true -> is_nan (b - a) = false.
Proof.
  rewrite ltb_spec, is_nan_spec, sub_spec. unfold SFltb.
  destruct (Prim2SF a) as [sa|sa| |sa ma ea];
    destruct (Prim2SF b) as [sb|sb| |sb mb eb]; simpl; try discriminate;
    try (destruct sa, sb; simpl; intros; reflexivity || discriminate);
    try (destruct sb; reflexivity); try reflexivity.
  intros _.
  match goal with |- context [binary_normalize ?p ?q ?m ?e ?s] =>
    pose proof (binary_normalize_not_nan m e) as Hn;
    destruct (binary_normalize p q m e s) end; congruence.
Qed.

Lemma ltb_not_nan a b : (a <? b) = true -> is_nan a = false /\ is_nan b = false.
Proof.
  rewrite ltb_spec, !is_nan_spec. unfold SFltb.
  destruct (Prim2SF a), (Prim2SF b); simpl; try discriminate; auto.
Qed.

Lemma ltb_trichotomy x y :
  is_nan x = false -> is_nan y = false ->
  (x <? y) = false -> (x =? y) = false -> (y <? x) = true.
Proof.
  rewrite !is_nan_spec, !ltb_spec, eqb_spec. unfold SFltb, SFeqb.
  rewrite (SFcompare_antisym (Prim2SF x) (Prim2SF y)).
  destruct (Prim2SF x) as [sx|sx| |sx mx ex]; try discriminate;
    destruct (Prim2SF y) as [sy|sy| |sy my ey]; try discriminate; intros _ _;
    destruct (SFcompare _ _) as [[]|] eqn:E; simpl; try congruence;
    simpl in E; try discriminate; destruct sx; try discriminate; destruct sy; discriminate.
Qed.

Lemma ltb_trans x y z : (x <? y) = true -> (y <? z) = true -> (x <? z) = true.
Proof.
  rewrite !ltb_spec. unfold SFltb, SFcompare.
  destruct (Prim2SF x) as [[]|[]| |[] mx ex], (Prim2SF y) as [[]|[]| |[] my ey],
           (Prim2SF z) as [[]|[]| |[] mz ez];
    try (intros; reflexivity); try (intros; discriminate);
    change (Pos.compare_cont Eq) with Pos.compare;
    destruct (Z.compare_spec ex ey); destruct (Z.compare_spec ey ez);
    destruct (Z.compare_spec ex ez); try lia; try (intros; reflexivity); try (intros; discriminate);
    subst;
    destruct (Pos.compare_spec mx my); destruct (Pos.compare_spec my mz);
    destruct (Pos.compare_spec mx mz); simpl; try lia; try (intros; reflexivity); try (intros; discriminate).
Qed.

End F64Facts.

(** ** The sparse kernel *)

Module SparseKernelFacts.
Import SparseKernel.
Open Scope Z_scope.

Lemma kernel_indices_cons k w :
  kernel_indices (k :: w) =
  map (cons 0) (kernel_indices w) ++ map (cons k) (kernel_indices w).
Proof.
  unfold kernel_indices. simpl. now rewrite app_nil_r.
Qed.

Lemma kernel_indices_length w :
  length (kernel_indices w) = (2 ^ length w)%nat.
Proof.
  induction w as [|k w IH].
  - reflexivity.
  - rewrite kernel_indices_cons, length_app, !length_map, IH. simpl. lia.
Qed.

Lemma kernel_indices_corner w c :
  In c (kernel_indices w) <-> corner w c.
Proof.
  revert c. induction w as [|k w IH]; intros c.
  - simpl. split.
    + intros [ <- | [] ]. constructor.
    + intros H. inversion H. now left.
  - rewrite kernel_indices_cons, in_app_iff, !in_map_iff. split.
    + intros [ [c' [ <- Hc] ] | [c' [ <- Hc] ] ]; constructor; try (apply IH; assumption); auto.
    + intros H. inversion H as [|? ci ? c' Hci Hc']; subst.
      apply IH in Hc'. destruct Hci as [ -> | -> ]; [left|right]; eauto.
Qed.

Lemma NoDup_map_cons {A} (x : A) l : NoDup l -> NoDup (map (cons x) l).
Proof.
  induction 1 as [|y l Hy Hl IH]; simpl; constructor; auto.
  rewrite in_map_iff. intros [z [Hz Hin]]. inversion Hz; subst. contradiction.
Qed.

Lemma kernel_indices_NoDup w :
  Forall (fun k => k <> 0) w -> NoDup (kernel_indices w).
Proof.
  induction 1 as [|k w Hk Hw IH].
  - repeat constructor. intros [].
  - rewrite kernel_indices_cons. apply NoDup_app.
    + now apply NoDup_map_cons.
    + now apply NoDup_map_cons.
    + intros c. rewrite !in_map_iff. intros [a [<- _]] [b [Hb _]].
      inversion Hb. congruence.
Qed.

Lemma sum_far_bits_parity w c :
  valid_window w -> corner w c -> sum c mod 2 = sum (far_bits c) mod 2.
Proof.
  intros Hw Hc. induction Hc as [|k ci w c Hci Hc IH].
  - reflexivity.
  - inversion Hw as [|? ? [Hpos Hodd] Hw']; subst. specialize (IH Hw').
    simpl. rewrite Z.add_mod, IH, <- Z.add_mod by lia. 
    destruct Hci as [ -> | -> ].
    + reflexivity.
    + destruct (k =? 0) eqn:E; [apply Z.eqb_eq in E; lia|].
      rewrite Z.add_mod by lia. rewrite (Z.add_mod 1) by lia.
      rewrite Zodd_mod in Hodd. apply Z.eqb_eq in Hodd. now rewrite Hodd.
Qed.

(** C2.  For an image of dimensionality [ndim] and a valid (positive, odd)
    window shape [w] with one size per axis, the sparse kernel of [_mean_std]
    has exactly [2 ^ ndim] terms, one for each corner of the hyper-rectangle
    (every choice of 0 or [w_i] per axis, each once), and the value of a term
    is [+1] when the number of far coordinates of its corner has the parity
    of [ndim] and [-1] otherwise. *)
Theorem kernel_inclusion_exclusion (ndim : nat) (w : list Z) :
  length w = ndim -> valid_window w ->
  length (kernel_indices w) = (2 ^ ndim)%nat
  /\ NoDup (kernel_indices w)
  /\ (forall c, In c (kernel_indices w) <-> corner w c)
  /\ length (kernel_values ndim (kernel_indices w)) = (2 ^ ndim)%nat
  /\ kernel_values ndim (kernel_indices w) =
     map (fun c => if Z.of_nat ndim mod 2 =? sum (far_bits c) mod 2 then 1 else -1)
         (kernel_indices w).
Proof.
  intros Hlen Hw. repeat split.
  - now rewrite kernel_indices_length, Hlen.
  - apply kernel_indices_NoDup. eapply Forall_impl; [|exact Hw]. simpl. lia.
  - apply kernel_indices_corner.
  - apply kernel_indices_corner.
  - unfold kernel_values. now rewrite length_map, kernel_indices_length, Hlen.
  - unfold kernel_values. apply map_ext_in. intros c Hc.
    apply kernel_indices_corner in Hc.
    rewrite (sum_far_bits_parity _ _ Hw Hc).
    now destruct (Z.of_nat ndim mod 2 =? sum (far_bits c) mod 2).
Qed.

Lemma kernel_inclusion_exclusion_witness :
  length (kernel_indices [3; 5]) = 4%nat
  /\ kernel_values 2 (kernel_indices [3; 5]) = [1; -1; -1; 1].
Proof.
  destruct (kernel_inclusion_exclusion 2 [3; 5]) as (H1 & _ & _ & _ & H2).
  - reflexivity.
  - repeat constructor.
  - split; [exact H1 | rewrite H2; reflexivity].
Defined.
End SparseKernelFacts.

(** ** Windowed statistics, Niblack and Sauvola *)

Module MeanStdFacts.
Import F64 NDArray MeanStd F64Facts.
Open Scope float_scope.

Lemma sqrt_nonneg_class x :
  SFnonneg (Prim2SF x) = true ->
  (0 <=? sqrt x) = true
  /\ (is_finite x = true -> is_finite (sqrt x) = true).
Proof.
  rewrite leb_zero_spec, !is_finite_spec, sqrt_spec.
  pose proof (Prim2SF_valid x) as Hv.
  destruct (Prim2SF x) as [s|s| |s m e]; try discriminate.
  - intros _. simpl. auto.
  - destruct s; try discriminate. intros _. simpl. split; [reflexivity|discriminate].
  - destruct s; try discriminate. intros _.
    pose proof (SF64sqrt_finite m e Hv) as Hf.
    destruct (SF64sqrt (S754_finite false m e)) as [b|b| |b m' e']; try discriminate;
      destruct b; try discriminate; simpl; auto.
Qed.

Lemma std_of_clipped g2 m :
  let x := g2 - m * m in
  (is_nan x = false -> (0 <=? std_of g2 m) = true)
  /\ (is_finite x = true -> is_finite (std_of g2 m) = true)
  /\ (is_nan x = true -> is_nan (std_of g2 m) = true).
Proof.
  intros x. unfold std_of, F64.clip. fold x. rewrite infinity_ltb.
  destruct (x <? 0) eqn:Hneg.
  - repeat split; intros; try reflexivity.
    rewrite is_nan_spec in H. rewrite ltb_zero_spec in Hneg.
    destruct (Prim2SF x) as [s|s| |s mm e]; discriminate.
  - repeat split.
    + intros Hn. apply sqrt_nonneg_class. now apply not_ltb_zero_nonneg.
    + intros Hf. apply sqrt_nonneg_class; [|assumption].
      apply not_ltb_zero_nonneg; [|assumption].
      rewrite is_finite_spec in Hf. rewrite is_nan_spec.
      destruct (Prim2SF x); congruence.
    + rewrite !is_nan_spec, sqrt_spec. destruct (Prim2SF x); try discriminate. reflexivity.
Qed.

Section Collaborators.
Variable integral_image : ndarray -> ndarray.
Variable _correlate_sparse : ndarray -> list Z -> list (list Z) -> list Z -> ndarray.
Variable dtype_limits : ndarray -> float * float.

Lemma mean_std_of_moments image w m g2 :
  local_moments integral_image _correlate_sparse image w = Ok (m, g2) ->
  _mean_std integral_image _correlate_sparse image w = Ok (m, zip_with std_of g2 m).
Proof. unfold _mean_std. intros ->. reflexivity. Qed.

Lemma mean_std_inv image w m s :
  _mean_std integral_image _correlate_sparse image w = Ok (m, s) ->
  exists g2, local_moments integral_image _correlate_sparse image w = Ok (m, g2)
             /\ s = zip_with std_of g2 m.
Proof.
  unfold _mean_std.
  destruct (local_moments integral_image _correlate_sparse image w) as [[m' g2]|e]; simpl;
    [|discriminate].
  intros H. inversion H; subst. eauto.
Qed.


Lemma niblack_k_zero_point m s :
  is_finite s = true -> F64.same (m - 0 * s) m = true.
Proof.
  intros Hs. destruct (mul_zero_finite s Hs) as [b Hb].
  now apply sub_zero_same with (b := b).
Qed.

Lemma sauvola_k_zero_point m s r :
  is_finite (s / r - 1) = true -> m * (1 + 0 * (s / r - 1)) = m.
Proof.
  intros Hs. destruct (mul_zero_finite _ Hs) as [b Hb].
  rewrite (one_add_zero _ b Hb). apply mul_one.
Qed.

Lemma map_combine_fst (f : float * float -> float) (xs ys : list float) :
  length xs = length ys ->
  (forall x y, In (x, y) (combine xs ys) -> f (x, y) = x) ->
  map f (combine xs ys) = xs.
Proof.
  revert ys. induction xs as [|x xs IH]; intros [|y ys] Hlen Hf; try discriminate.
  - reflexivity.
  - simpl. rewrite Hf by (now left). f_equal. apply IH.
    + simpl in Hlen. congruence.
    + intros a b Hin. apply Hf. now right.
Qed.

Lemma forallb_same_combine (f : float * float -> float) (xs ys : list float) :
  length xs = length ys ->
  (forall x y, In (x, y) (combine xs ys) -> F64.same (f (x, y)) x = true) ->
  forallb (fun xy => F64.same (fst xy) (snd xy)) (combine (map f (combine xs ys)) xs) = true.
Proof.
  revert ys. induction xs as [|x xs IH]; intros [|y ys] Hlen Hf; try discriminate.
  - reflexivity.
  - simpl. rewrite Hf by (now left). simpl. apply IH.
    + simpl in Hlen. congruence.
    + intros a b Hin. apply Hf. now right.
Qed.

Lemma in_combine_forallb (p : float -> bool) (xs ys : list float) x y :
  forallb p ys = true -> In (x, y) (combine xs ys) -> p y = true.
Proof.
  intros Hp Hin. apply in_combine_r in Hin.
  rewrite forallb_forall in Hp. now apply Hp.
Qed.

(** C6, amended.  With [k = 0], [threshold_niblack] returns an array equal
    to the local mean of [_mean_std] (element-wise [==], nan matching nan)
    whenever the local standard deviation is finite at every pixel, and
    [threshold_sauvola] returns the local mean array itself whenever
    [s / r - 1] is finite at every pixel, for the given [r] or for the
    default half dtype range alike. *)
Theorem niblack_sauvola_k_zero image w m s :
  _mean_std integral_image _correlate_sparse image w = Ok (m, s) ->
  length (data m) = length (data s) ->
  (forallb is_finite (data s) = true ->
   exists t, threshold_niblack integral_image _correlate_sparse image w 0 = Ok t
             /\ array_equal t m = true)
  /\ (forall r : option float,
       forallb (fun sd =>
                  is_finite (sd / match r with
                                  | None => 0.5 * (snd (dtype_limits image) - fst (dtype_limits image))
                                  | Some r => r
                                  end - 1))
               (data s) = true ->
       threshold_sauvola integral_image _correlate_sparse dtype_limits image w 0 r = Ok m).
Proof.
  intros Hms Hlen. split.
  - intros Hfin. unfold threshold_niblack. rewrite Hms. simpl.
    eexists. split; [reflexivity|].
    unfold array_equal, zip_with. simpl.
    destruct (list_eq_dec Nat.eq_dec (shape m) (shape m)) as [_|Hne]; [|congruence].
    rewrite length_map, length_combine, <- Hlen, Nat.min_id, Nat.eqb_refl. simpl.
    apply forallb_same_combine; [assumption|].
    intros x y Hin. simpl. apply niblack_k_zero_point.
    eapply in_combine_forallb with (p := is_finite); eassumption.
  - intros r Hfin. unfold threshold_sauvola.
    destruct (dtype_limits image) as [imin imax]. simpl in Hfin.
    rewrite Hms. simpl. f_equal. unfold zip_with. destruct m as [shm dm]. simpl in *.
    f_equal. apply map_combine_fst; [assumption|].
    intros x y Hin. simpl. apply sauvola_k_zero_point.
    apply (in_combine_forallb _ _ _ _ _ Hfin Hin).
Qed.

End Collaborators.



Lemma niblack_sauvola_k_zero_witness :
  (exists t, threshold_niblack integral_image _correlate_sparse
                               (mk [3%nat] [2; 2; 2]) (WScalar 3) 0 = Ok t
             /\ array_equal t (mk [3%nat] [2; 2; 2]) = true)
  /\ threshold_sauvola integral_image _correlate_sparse dtype_limits_uint8
                       (mk [3%nat] [2; 2; 2]) (WScalar 3) 0 None
     = Ok (mk [3%nat] [2; 2; 2]).
Proof.
  destruct (niblack_sauvola_k_zero integral_image _correlate_sparse dtype_limits_uint8
              (mk [3%nat] [2; 2; 2]) (WScalar 3)
              (mk [3%nat] [2; 2; 2]) (mk [3%nat] [0; 0; 0])) as [Hn Hs].
  - vm_compute. reflexivity.
  - reflexivity.
  - split.
    + apply Hn. reflexivity.
    + apply (Hs None). reflexivity.
Defined.

(** C6 fails as stated: with [k = 0] and [r = 0] Sauvola's threshold of the
    constant image [[2, 2, 2]] is nan at every pixel while the local mean is
    2; and Niblack's threshold of [[2^700, 2^700, 2^700]] is nan while the
    local mean is [2^700]. *)
Lemma niblack_sauvola_k_zero_not_mean :
  (exists m s t,
      _mean_std integral_image _correlate_sparse (mk [3%nat] [2; 2; 2]) (WScalar 3) = Ok (m, s)
      /\ threshold_sauvola integral_image _correlate_sparse dtype_limits_uint8
                           (mk [3%nat] [2; 2; 2]) (WScalar 3) 0 (Some 0) = Ok t
      /\ data m = [2; 2; 2] /\ data t = [nan; nan; nan]
      /\ array_equal t m = false)
  /\ (exists m s t,
      _mean_std integral_image _correlate_sparse
                (mk [3%nat] [0x1p700; 0x1p700; 0x1p700]) (WScalar 3) = Ok (m, s)
      /\ threshold_niblack integral_image _correlate_sparse
                           (mk [3%nat] [0x1p700; 0x1p700; 0x1p700]) (WScalar 3) 0 = Ok t
      /\ data m = [0x1p700; 0x1p700; 0x1p700] /\ data t = [nan; nan; nan]
      /\ array_equal t m = false).
Proof.
  split; do 3 eexists; (split; [vm_compute; reflexivity|]);
    (split; [vm_compute; reflexivity|]); repeat split; reflexivity.
Qed.

End MeanStdFacts.

(** ** Window validation *)

Module LocalFacts.
Import NDArray MeanStd Local.
Open Scope Z_scope.

Lemma existsb_even (bs : list Z) :
  existsb (fun b => b mod 2 =? 0) bs = true <-> Exists (fun b => Z.even b = true) bs.
Proof.
  rewrite existsb_exists, Exists_exists.
  split; intros [b [Hin Hb]]; exists b; split; try assumption;
    rewrite Zeven_mod in *; assumption.
Qed.

Lemma existsb_even_or_nonpositive (w : list Z) :
  existsb (fun k => (k mod 2 =? 0) || (k <=? 0)) w = true
  <-> Exists (fun k => Z.even k = true \/ k <= 0) w.
Proof.
  rewrite existsb_exists, Exists_exists.
  split; intros [k [Hin Hk]]; exists k; split; try assumption.
  - apply orb_true_iff in Hk. rewrite Zeven_mod. rewrite <- Z.leb_le. exact Hk.
  - apply orb_true_iff. rewrite Zeven_mod in Hk. rewrite <- Z.leb_le in Hk. exact Hk.
Qed.

Section Filters.
Variable boundary : Type.
Variable gaussian : ndarray -> list float -> boundary -> ndarray.
Variable uniform_filter : ndarray -> list Z -> boundary -> ndarray.
Variable median_filter : ndarray -> list Z -> boundary -> ndarray.
Variable integral_image : ndarray -> ndarray.
Variable _correlate_sparse : ndarray -> list Z -> list (list Z) -> list Z -> ndarray.

Let threshold_local := threshold_local boundary gaussian uniform_filter median_filter.

(** Odd components, of either sign, pass the validation of [threshold_local]:
    no validation error about the block size is raised. *)
Lemma threshold_local_odd_passes image b method offset mode_cval param :
  Z.odd b = true ->
  forall e, threshold_local image (BScalar b) method offset mode_cval param = Raise e ->
            e = NotImplementedError_generic \/ e = ValueError_invalid_method.
Proof.
  intros Hb e. unfold threshold_local, Local.threshold_local. simpl.
  assert (Hex : existsb (fun b0 => b0 mod 2 =? 0) (repeat b (ndim image)) = false).
  { apply not_true_is_false. rewrite existsb_even, Exists_exists.
    intros [k [Hin Hk]]. apply repeat_spec in Hin. subst k.
    rewrite <- Z.negb_odd, Hb in Hk. discriminate. }
  rewrite Hex.
  destruct (String.eqb method "generic"); simpl; [intros H; inversion H; auto|].
  destruct (String.eqb method "gaussian"); simpl; [discriminate|].
  destruct (String.eqb method "mean"); simpl; [discriminate|].
  destruct (String.eqb method "median"); simpl; [discriminate|].
  intros H; inversion H; auto.
Qed.

(** C8, amended.  [threshold_local] raises the validation error on the
    length of [block_size] when a sequence has not one size per axis, and
    the validation error naming [block_size] when some component is even;
    [_mean_std] raises the validation error naming the window when some
    component is even or not positive.  Each is raised before a filter, the
    integral image or the correlation is evaluated. *)
Theorem window_validation_errors (image : ndarray) :
  (forall bs method offset mode_cval param,
      length bs <> ndim image ->
      threshold_local image (BSeq bs) method offset mode_cval param
      = Raise ValueError_block_size_len)
  /\ (forall block_size method offset mode_cval param,
         length (resolve_block_size image block_size) = ndim image ->
         Exists (fun b => Z.even b = true) (resolve_block_size image block_size) ->
         threshold_local image block_size method offset mode_cval param
         = Raise (ValueError_block_size_even (resolve_block_size image block_size)))
  /\ (forall w,
         Exists (fun k => Z.even k = true \/ k <= 0) (resolve_window image w) ->
         _mean_std integral_image _correlate_sparse image w
         = Raise (ValueError_window_size (resolve_window image w))).
Proof.
  repeat split.
  - intros bs method offset mode_cval param Hlen.
    unfold threshold_local, Local.threshold_local.
    apply Nat.eqb_neq in Hlen. now rewrite Hlen.
  - intros block_size method offset mode_cval param Hlen Hev.
    apply existsb_even in Hev.
    unfold threshold_local, Local.threshold_local.
    destruct block_size as [b|bs]; simpl in *.
    + now rewrite Hev.
    + apply Nat.eqb_eq in Hlen. rewrite Hlen. simpl. now rewrite Hev.
  - intros w Hw. apply existsb_even_or_nonpositive in Hw.
    unfold _mean_std, local_moments, _validate_window_size.
    fold (resolve_window image w). now rewrite Hw.
Qed.

End Filters.

Lemma window_validation_errors_witness :
  Local.threshold_local unit (no_filter _) (no_filter _) (no_filter _)
                        (mk [3%nat] [1; 2; 3]%float) (BSeq [3; 3]) "mean" 0%float tt None
  = Raise ValueError_block_size_len
  /\ Local.threshold_local unit (no_filter _) (no_filter _) (no_filter _)
                           (mk [3%nat] [1; 2; 3]%float) (BScalar 4) "mean" 0%float tt None
     = Raise (ValueError_block_size_even [4])
  /\ _mean_std integral_image _correlate_sparse (mk [3%nat] [1; 2; 3]%float) (WScalar (-3))
     = Raise (ValueError_window_size [-3]).
Proof.
  destruct (window_validation_errors unit (no_filter _) (no_filter _) (no_filter _)
              integral_image _correlate_sparse (mk [3%nat] [1; 2; 3]%float))
    as (H1 & H2 & H3).
  split; [|split].
  - apply H1. cbv. lia.
  - apply (H2 (BScalar 4)); [reflexivity|]. apply Exists_cons_hd. reflexivity.
  - apply (H3 (WScalar (-3))). apply Exists_cons_hd. right. lia.
Defined.

(** C8 fails as stated: the block size [-1] is odd and not positive, and
    [threshold_local] raises no validation error on it; with the method
    ['generic'] the call goes on to the [NotImplementedError] of the method
    dispatch. *)
Lemma threshold_local_negative_block_size :
  Z.odd (-1) = true /\ -1 <= 0
  /\ Local.threshold_local unit (no_filter _) (no_filter _) (no_filter _)
                           (mk [3%nat] [1; 2; 3]%float) (BScalar (-1)) "generic" 0%float tt None
     = Raise NotImplementedError_generic
  /\ Local.threshold_local unit (no_filter _) (no_filter _) (no_filter _)
                           (mk [3%nat] [1; 2; 3]%float) (BSeq [-1]) "generic" 0%float tt None
     = Raise NotImplementedError_generic.
Proof. repeat split; try reflexivity. lia. Qed.

End LocalFacts.

(** ** Hysteresis thresholding *)

Module HysteresisFacts.
Import NDArray Hysteresis F64Facts.
Open Scope float_scope.

Lemma clip_max_py_min l h : F64.clip l None (Some h) = py_min l h.
Proof. unfold F64.clip, py_min. now rewrite ltb_neg_infinity. Qed.

Lemma py_min_idempotent l h : py_min (py_min l h) h = py_min l h.
Proof.
  unfold py_min. destruct (h <? l) eqn:E.
  - now destruct (h <? h).
  - now rewrite E.
Qed.

Lemma broadcast_ext f g a b :
  (forall x y, f x y = g x y) -> broadcast f a b = broadcast g a b.
Proof.
  intros H. destruct a as [x|xs], b as [y|ys]; simpl; f_equal;
    try apply H; apply map_ext; intros; apply H.
Qed.

Lemma broadcast_idempotent g a b :
  (forall x y, g (g x y) y = g x y) ->
  broadcast g (broadcast g a b) b = broadcast g a b.
Proof.
  intros H. destruct a as [x|xs], b as [y|ys]; simpl; f_equal.
  - apply H.
  - induction ys as [|y ys IH]; simpl; [reflexivity|]. now rewrite H, IH.
  - rewrite map_map. apply map_ext. intros; apply H.
  - revert ys. induction xs as [|x xs IH]; intros [|y ys]; simpl; try reflexivity.
    now rewrite H, IH.
Qed.

Lemma clip_max_idempotent low high :
  clip_max (broadcast py_min low high) high = clip_max low high.
Proof.
  unfold clip_max.
  rewrite !(broadcast_ext (fun l h => F64.clip l None (Some h)) py_min _ _ clip_max_py_min).
  apply broadcast_idempotent, py_min_idempotent.
Qed.

(** C10.  [apply_hysteresis_threshold] first clips [low] to at most [high]:
    its result on [(low, high)] is its result on [(min(low, high), high)],
    and with scalar thresholds [low > high] it is its result on
    [(high, high)]. *)
Theorem hysteresis_low_clipped_to_high
        (label : list nat -> list bool -> list nat * nat)
        (image : ndarray) (low high : threshold_arg) :
  apply_hysteresis_threshold label image low high
  = apply_hysteresis_threshold label image (broadcast py_min low high) high
  /\ forall l h, low = TScalar l -> high = TScalar h -> (h <? l) = true ->
       apply_hysteresis_threshold label image low high
       = apply_hysteresis_threshold label image (TScalar h) (TScalar h).
Proof.
  assert (H : apply_hysteresis_threshold label image low high
              = apply_hysteresis_threshold label image (broadcast py_min low high) high).
  { unfold apply_hysteresis_threshold. now rewrite clip_max_idempotent. }
  split; [exact H|].
  intros l h -> -> Hlt. rewrite H. simpl. unfold py_min. now rewrite Hlt.
Qed.

Lemma hysteresis_low_clipped_to_high_witness :
  apply_hysteresis_threshold label_1d (mk [9%nat] [1; 2; 3; 2; 1; 2; 1; 3; 2])
                             (TScalar 3.5) (TScalar 2.5)
  = apply_hysteresis_threshold label_1d (mk [9%nat] [1; 2; 3; 2; 1; 2; 1; 3; 2])
                               (TScalar 2.5) (TScalar 2.5).
Proof.
  apply (proj2 (hysteresis_low_clipped_to_high label_1d
                  (mk [9%nat] [1; 2; 3; 2; 1; 2; 1; 3; 2]) (TScalar 3.5) (TScalar 2.5))
               3.5 2.5); reflexivity.
Defined.

(** The scenario of the docstring. *)
Example hysteresis_docstring :
  apply_hysteresis_threshold label_1d (mk [9%nat] [1; 2; 3; 2; 1; 2; 1; 3; 2])
                             (TScalar 1.5) (TScalar 2.5)
  = [false; true; true; true; false; false; false; true; true].
Proof. reflexivity. Qed.

End HysteresisFacts.

(** ** Li's threshold *)

Module LiFacts.
Import NDArray Li F64Facts.
Open Scope float_scope.

Lemma filter_nil {A} (f : A -> bool) l :
  (forall x, In x l -> f x = false) -> filter f l = [].
Proof.
  induction l as [|a l IH]; intros H; simpl; [reflexivity|].
  rewrite (H a) by (now left). apply IH. intros x Hx. apply H. now right.
Qed.

Lemma forallb_const_eqb (v : float) l :
  is_nan v = false -> (forall x, In x l -> x = v) -> forallb (fun x => x =? v) l = true.
Proof.
  intros Hv H. apply forallb_forall. intros x Hx. rewrite (H x Hx).
  unfold is_nan in Hv. now apply negb_false_iff in Hv.
Qed.

Lemma eqb_both_infinities v :
  (infinity =? v) = true -> (neg_infinity =? v) = true -> False.
Proof.
  rewrite !eqb_spec.
  change (Prim2SF infinity) with (S754_infinity false).
  change (Prim2SF neg_infinity) with (S754_infinity true).
  destruct (Prim2SF v) as [s|s| |s m e]; try discriminate. destruct s; discriminate.
Qed.


Lemma background_is_leb (bin_centers : list float) (t_curr : float) :
  is_nan t_curr = false ->
  Forall (fun c => is_nan c = false) bin_centers ->
  map negb (map (fun c => t_curr <? c) bin_centers)
  = map (fun c => c <=? t_curr) bin_centers.
Proof.
  intros Ht Hc. rewrite map_map. apply map_ext_in. intros c Hin.
  rewrite Forall_forall in Hc. apply leb_negb_ltb; auto.
Qed.

Lemma li_iterate_raised (step : float -> result float) tolerance image_min cb fuel :
  forall t_next t_curr calls e calls',
    li_iterate step tolerance image_min cb fuel t_next t_curr calls = (Raised e, calls') ->
    exists t, step t = Raise e.
Proof.
  induction fuel as [|fuel IH]; intros t_next t_curr calls e calls'; simpl.
  - destruct (tolerance <? abs (t_next - t_curr)); discriminate.
  - destruct (tolerance <? abs (t_next - t_curr)); [|discriminate].
    destruct (step t_next) as [t'|e'] eqn:E.
    + apply IH.
    + intros H. inversion H; subst. eauto.
Qed.

Lemma li_iterate_calls (step : float -> result float) tolerance image_min cb fuel :
  forall t_next t_curr calls,
    exists rest,
      snd (li_iterate step tolerance image_min cb fuel t_next t_curr calls) = calls ++ rest.
Proof.
  induction fuel as [|fuel IH]; intros t_next t_curr calls; simpl.
  - destruct (tolerance <? abs (t_next - t_curr)); exists []; simpl; now rewrite app_nil_r.
  - destruct (tolerance <? abs (t_next - t_curr)); [|exists []; simpl; now rewrite app_nil_r].
    destruct (step t_next) as [t'|e'].
    + destruct cb.
      * destruct (IH t' t_next (calls ++ [t' + image_min])) as [rest Hrest].
        rewrite Hrest, <- app_assoc. eauto.
      * apply IH.
    + exists []. simpl. now rewrite app_nil_r.
Qed.


(** *** [cp.unique], [cp.diff] and [cp.min] on floats that are not nan *)

Lemma insert_unique_in x l y : In y (insert_unique x l) -> y = x \/ In y l.
Proof.
  induction l as [|z l IH]; simpl.
  - intros [ <- |[]]. now left.
  - destruct (x <? z).
    + intros [ <- |H]; auto.
    + destruct (x =? z); [auto|].
      intros [ <- |H]; [right; now left|].
      destruct (IH H); auto.
Qed.

Lemma unique_in a y : In y (unique a) -> In y a.
Proof.
  induction a as [|x a IH]; simpl; [auto|].
  intros H. apply insert_unique_in in H. destruct H; auto.
Qed.

Lemma ascending_cons x l :
  ascending (x :: l) = true <->
  (match l with [] => True | y :: _ => (x <? y) = true end) /\ ascending l = true.
Proof.
  destruct l as [|y l]; simpl.
  - tauto.
  - rewrite andb_true_iff. tauto.
Qed.

Lemma insert_unique_ascending x l :
  not_nan x -> Forall not_nan l -> ascending l = true ->
  ascending (insert_unique x l) = true.
Proof.
  intros Hx. induction l as [|z l IH]; intros Hl Hasc.
  - reflexivity.
  - inversion Hl as [|? ? Hz Hl']; subst.
    cbn [insert_unique].
    destruct (x <? z) eqn:Hlt.
    + apply ascending_cons. split; assumption.
    + destruct (x =? z) eqn:Heq; [assumption|].
      apply ascending_cons in Hasc. destruct Hasc as [Hhead Hasc].
      specialize (IH Hl' Hasc).
      apply ascending_cons. split; [|assumption].
      destruct l as [|w l]; cbn [insert_unique].
      * now apply ltb_trichotomy.
      * destruct (x <? w).
        -- now apply ltb_trichotomy.
        -- destruct (x =? w); assumption.
Qed.

Lemma insert_unique_not_nan x l :
  not_nan x -> Forall not_nan l -> Forall not_nan (insert_unique x l).
Proof.
  intros Hx Hl. apply Forall_forall. intros y Hy.
  apply insert_unique_in in Hy. destruct Hy as [->|Hy]; [assumption|].
  rewrite Forall_forall in Hl. auto.
Qed.

Lemma unique_ascending a :
  Forall not_nan a -> Forall not_nan (unique a) /\ ascending (unique a) = true.
Proof.
  induction 1 as [|x a Hx Ha [IH1 IH2]]; simpl.
  - split; [constructor|reflexivity].
  - split.
    + now apply insert_unique_not_nan.
    + now apply insert_unique_ascending.
Qed.

Lemma diff_ascending_not_nan a :
  ascending a = true -> Forall not_nan (diff a).
Proof.
  induction a as [|x a IH]; [constructor|].
  destruct a as [|y a]; [constructor|].
  intros H. apply ascending_cons in H. destruct H as [Hxy H].
  cbn [diff]. constructor; [|now apply IH].
  now apply sub_ascending_not_nan.
Qed.

Lemma fold_min_least rest x :
  Forall not_nan (x :: rest) ->
  let m := fold_left (fun acc y => if y <? acc then y else acc) rest x in
  In m (x :: rest) /\ Forall (fun d => (m <=? d) = true) (x :: rest).
Proof.
  revert x. induction rest as [|y rest IH]; intros x Hall; simpl.
  - inversion Hall; subst. split; [now left|]. constructor; [|constructor].
    now apply leb_refl.
  - inversion Hall as [|? ? Hx Hrest]; subst. inversion Hrest as [|? ? Hy Hrest']; subst.
    set (acc := if y <? x then y else x).
    assert (Hacc : not_nan acc) by (unfold acc; destruct (y <? x); assumption).
    assert (Haccx : (acc <=? x) = true).
    { unfold acc. destruct (y <? x) eqn:E; [now apply ltb_leb|now apply leb_refl]. }
    assert (Haccy : (acc <=? y) = true).
    { unfold acc. destruct (y <? x) eqn:E; [now apply leb_refl|].
      rewrite <- leb_negb_ltb by assumption. now rewrite E. }
    destruct (IH acc (Forall_cons _ Hacc Hrest')) as [Hin Hle]. simpl in Hin, Hle.
    inversion Hle as [|? ? Hm Hle']; subst.
    split.
    + destruct Hin as [Hin|Hin]; [|right; right; exact Hin].
      rewrite <- Hin. unfold acc. destruct (y <? x); auto.
    + constructor; [eapply leb_trans; eassumption|].
      constructor; [eapply leb_trans; eassumption|assumption].
Qed.

Lemma cp_min_least a gap :
  Forall not_nan a -> cp_min a = Ok gap ->
  In gap a /\ Forall (fun d => (gap <=? d) = true) a.
Proof.
  destruct a as [|x rest]; simpl; [discriminate|].
  intros Hall H. inversion H; subst. now apply fold_min_least.
Qed.

Lemma filter_finite_forall (l : list float) :
  Forall (fun x => is_finite x = true) (filter is_finite l).
Proof.
  apply Forall_forall. intros x Hx. apply filter_In in Hx. tauto.
Qed.

Lemma fold_min_in rest x :
  In (fold_left (fun acc y => if y <? acc then y else acc) rest x) (x :: rest).
Proof.
  revert x. induction rest as [|y rest IH]; intros x; simpl; [now left|].
  destruct (IH (if y <? x then y else x)) as [H|H]; [|right; right; exact H].
  rewrite <- H. destruct (y <? x); auto.
Qed.

Section Library.
Variable fsum : list float -> float.
Variable log : float -> float.
Variable histogram : list Z -> list float * list float.

Let threshold_li := threshold_li fsum log histogram.

(** C4.  The early returns of [threshold_li]: an image that is empty once
    its nan values are removed gives nan; an image whose remaining values
    all equal one value [v] gives [v]; an image that holds both [+inf] and
    [-inf] and no finite value gives [0.0].  No callback is called. *)
Theorem li_degenerate_inputs tolerance initial_guess iter_callback fuel :
  (forall px,
      filter (fun x => negb (is_nan x)) px = [] ->
      threshold_li (FloatPixels px) tolerance initial_guess iter_callback fuel
      = (Return (SFloat nan), []))
  /\ (forall px v,
         filter (fun x => negb (is_nan x)) px <> [] ->
         (forall x, In x px -> is_nan x = false -> x = v) ->
         threshold_li (FloatPixels px) tolerance initial_guess iter_callback fuel
         = (Return (SFloat v), []))
  /\ (forall px,
         In infinity px -> In neg_infinity px ->
         (forall x, In x px -> is_nan x = false -> is_finite x = false) ->
         threshold_li (FloatPixels px) tolerance initial_guess iter_callback fuel
         = (Return (SFloat 0), []))
  /\ (forall dt,
         threshold_li (IntPixels dt []) tolerance initial_guess iter_callback fuel
         = (Return (SFloat nan), []))
  /\ (forall dt px v,
         px <> [] -> (forall x, In x px -> x = v) ->
         threshold_li (IntPixels dt px) tolerance initial_guess iter_callback fuel
         = (Return (SInt v), [])).
Proof.
  unfold threshold_li, Li.threshold_li, li_prepare.
  split; [|split; [|split; [|split]]].
  - intros px Hnil. now rewrite Hnil.
  - intros px v Hne Hall.
    destruct (filter (fun x => negb (is_nan x)) px) as [|val0 rest] eqn:E; [congruence|].
    assert (Hin : forall x, In x (val0 :: rest) -> In x px /\ is_nan x = false).
    { intros x Hx. rewrite <- E in Hx. apply filter_In in Hx.
      destruct Hx as [Hx Hn]. now apply negb_true_iff in Hn. }
    assert (Hv : val0 = v) by (destruct (Hin val0 (or_introl eq_refl)); auto).
    subst val0.
    rewrite forallb_const_eqb; [reflexivity| |].
    + apply (Hin v). now left.
    + intros x Hx. destruct (Hin x Hx). auto.
  - intros px Hpos Hneg Hnf.
    assert (Hmem : forall x, In x (filter (fun x => negb (is_nan x)) px)
                             <-> In x px /\ is_nan x = false).
    { intros x. rewrite filter_In, negb_true_iff. reflexivity. }
    destruct (filter (fun x => negb (is_nan x)) px) as [|val0 rest] eqn:E.
    { exfalso. apply (proj2 (Hmem infinity)). split; [assumption|reflexivity]. }
    destruct (forallb (fun x => x =? val0) (val0 :: rest)) eqn:Hall.
    { exfalso. rewrite forallb_forall in Hall.
      apply (eqb_both_infinities val0); apply Hall, Hmem; split;
        assumption || reflexivity. }
    rewrite filter_nil; [reflexivity|].
    intros x Hx. apply Hmem in Hx. destruct Hx. auto.
  - reflexivity.
  - intros dt px v Hne Hall. destruct px as [|val0 rest]; [congruence|].
    assert (Hv : val0 = v) by (apply Hall; now left). subst val0.
    assert (Hf : forallb (fun x => (x =? v)%Z) (v :: rest) = true).
    { apply forallb_forall. intros x Hx. apply Z.eqb_eq. auto. }
    now rewrite Hf.
Qed.

Lemma li_update_raises mean_back mean_fore e :
  li_update log mean_back mean_fore = Raise e ->
  e = ValueError_math_domain \/ e = ZeroDivisionError.
Proof.
  unfold li_update, py_log, py_div, bind.
  repeat match goal with
         | |- context [if ?c then _ else _] => destruct c
         end; intros H; inversion H; auto.
Qed.

Lemma li_step_raises image t e :
  li_step fsum log histogram image t = Raise e ->
  e = ValueError_math_domain \/ e = ZeroDivisionError.
Proof.
  unfold li_step. destruct image as [dt px|px].
  - destruct (histogram px) as [hist bin_centers].
    unfold li_step_hist, average, bind.
    repeat match goal with
           | |- context [if ?c =? 0 then _ else _] => destruct (c =? 0)
           end; try (intros H; inversion H; now auto); apply li_update_raises.
  - apply li_update_raises.
Qed.

(** [a[mask]] and [w[mask]] for a mask computed from [a], as the bins that
    pass the test. *)
Lemma select_combine (p : float -> bool) (a w : list float) :
  length w = length a ->
  combine (select a (map p a)) (select w (map p a))
  = filter (fun b => p (fst b)) (combine a w)
  /\ select w (map p a) = map snd (filter (fun b => p (fst b)) (combine a w)).
Proof.
  revert w. induction a as [|x a IH]; intros [|y w] Hlen; try discriminate.
  - split; reflexivity.
  - simpl in Hlen. injection Hlen as Hlen. destruct (IH w Hlen) as [H1 H2].
    simpl. destruct (p x); simpl; rewrite H1, H2; split; reflexivity.
Qed.

Lemma average_bins (p : float -> bool) (a w : list float) :
  length w = length a ->
  average fsum (select a (map p a)) (select w (map p a))
  = let bins := filter (fun b => p (fst b)) (combine a w) in
    if fsum (map snd bins) =? 0 then Raise ZeroDivisionError
    else Ok (spec_weighted_mean fsum bins).
Proof.
  intros Hlen. destruct (select_combine p a w Hlen) as [H1 H2].
  unfold average, spec_weighted_mean. cbv zeta. now rewrite H1, H2.
Qed.

Lemma is_nan_eq (x : float) : is_nan x = true -> x = nan.
Proof.
  rewrite is_nan_spec. intros H. apply Prim2SF_inj.
  destruct (Prim2SF x); try discriminate. reflexivity.
Qed.

Lemma py_log_defined (x : float) :
  log nan = nan ->
  py_log log x = if x <=? 0 then (if is_nan x then Ok (log x) else Raise ValueError_math_domain)
                 else Ok (log x).
Proof.
  intros Hlog. unfold py_log. destruct (is_nan x) eqn:Hn.
  - apply is_nan_eq in Hn. subst x. rewrite Hlog. now destruct (nan <=? 0).
  - reflexivity.
Qed.

Lemma nan_leb (x : float) : is_nan x = true -> (x <=? 0) = false.
Proof.
  rewrite is_nan_spec, leb_spec. unfold SFleb.
  destruct (Prim2SF x); try discriminate. reflexivity.
Qed.

(** One pass of the loop body of the source is the update of the spec,
    where that is defined, and an exception elsewhere. *)
Lemma li_step_hist_spec hist bin_centers t_curr :
  log nan = nan ->
  length hist = length bin_centers ->
  is_nan t_curr = false ->
  Forall (fun c => is_nan c = false) bin_centers ->
  let bins := combine bin_centers hist in
  (spec_defined fsum log bins t_curr = true ->
   li_step_hist fsum log hist bin_centers t_curr = Ok (spec_t_next fsum log bins t_curr))
  /\ (spec_defined fsum log bins t_curr = false ->
      exists e, li_step_hist fsum log hist bin_centers t_curr = Raise e).
Proof.
  intros Hlog Hlen Ht Hc bins.
  unfold li_step_hist. rewrite (background_is_leb bin_centers t_curr Ht Hc).
  rewrite (average_bins (fun c => t_curr <? c) bin_centers hist Hlen).
  rewrite (average_bins (fun c => c <=? t_curr) bin_centers hist Hlen).
  unfold spec_defined, spec_t_next, spec_background, spec_foreground. fold bins.
  cbv zeta.
  set (back := filter (fun b => fst b <=? t_curr) bins).
  set (fore := filter (fun b => t_curr <? fst b) bins).
  set (mean_back := spec_weighted_mean fsum back).
  set (mean_fore := spec_weighted_mean fsum fore).
  unfold bind, li_update, eps. fold spec_eps.
  destruct (fsum (map snd fore) =? 0) eqn:Wf.
  { rewrite andb_false_r. simpl. split; [discriminate|eauto]. }
  destruct (fsum (map snd back) =? 0) eqn:Wb.
  { simpl. split; [discriminate|eauto]. }
  simpl. unfold bind. rewrite !(py_log_defined _ Hlog).
  destruct (mean_back + spec_eps <=? 0) eqn:Lb.
  { destruct (is_nan (mean_back + spec_eps)) eqn:Nb.
    - rewrite (nan_leb _ Nb) in Lb. discriminate.
    - simpl. split; [discriminate|eauto]. }
  destruct (mean_fore + spec_eps <=? 0) eqn:Lf.
  { destruct (is_nan (mean_fore + spec_eps)) eqn:Nf.
    - rewrite (nan_leb _ Nf) in Lf. discriminate.
    - simpl. split; [discriminate|eauto]. }
  simpl. unfold py_div.
  destruct (log (mean_back + spec_eps) - log (mean_fore + spec_eps) =? 0); simpl.
  - split; [discriminate|eauto].
  - split; [reflexivity|discriminate].
Qed.

Lemma li_prepare_int dt px tolerance shifted image_min tol :
  li_prepare (IntPixels dt px) tolerance = Ready shifted image_min tol ->
  exists px' m, shifted = IntPixels dt px' /\ image_min = SInt m
                /\ py_or tolerance (Ok 0.5) = Ok tol.
Proof.
  unfold li_prepare. destruct px as [|val0 rest]; [discriminate|].
  destruct (forallb _ _); [discriminate|].
  destruct (py_or tolerance (Ok 0.5)) as [t|e]; [|discriminate].
  intros H. inversion H; subst. eauto.
Qed.

(** The loop of the source returns exactly what the iteration of the spec
    ends with, for a loop body that is the update where that is defined and
    raises elsewhere. *)
Lemma li_iterate_spec (step : float -> result float) (defined : float -> bool)
      (update : float -> float) (tolerance image_min : float) (cb : bool) :
  (forall t, is_nan t = false ->
             (defined t = true -> step t = Ok (update t))
             /\ (defined t = false -> exists e, step t = Raise e)) ->
  forall fuel t_next t_curr calls r calls',
    li_iterate step tolerance image_min cb fuel t_next t_curr calls = (Return r, calls')
    <-> exists later final,
          (length later <= fuel)%nat
          /\ spec_iterates defined update tolerance t_curr t_next later final
          /\ r = SFloat (final + image_min)
          /\ calls' = calls ++ (if cb then map (fun t => t + image_min) later else []).
Proof.
  intros Hstep. induction fuel as [|fuel IH]; intros t_next t_curr calls r calls'.
  - simpl. destruct (tolerance <? abs (t_next - t_curr)) eqn:Hguard.
    + split; [discriminate|].
      intros (later & final & Hlen & Hit & _). inversion Hit; subst; [congruence|].
      simpl in Hlen. lia.
    + split.
      * intros H. injection H as <- <-. exists [], t_next.
        split; [simpl; lia|]. split; [now constructor|]. split; [reflexivity|].
        destruct cb; simpl; now rewrite app_nil_r.
      * intros (later & final & _ & Hit & -> & ->). inversion Hit; subst; [|congruence].
        destruct cb; simpl; now rewrite app_nil_r.
  - simpl. destruct (tolerance <? abs (t_next - t_curr)) eqn:Hguard.
    + assert (Hn : is_nan t_next = false) by (eapply ltb_abs_sub_not_nan; eassumption).
      destruct (Hstep t_next Hn) as [Hdef Hundef].
      destruct (defined t_next) eqn:Hd.
      * rewrite (Hdef eq_refl). rewrite IH. split.
        -- intros (later & final & Hlen & Hit & -> & ->).
           exists (update t_next :: later), final.
           split; [simpl; lia|]. split; [now constructor|]. split; [reflexivity|].
           destruct cb; simpl; [now rewrite <- app_assoc|reflexivity].
        -- intros (later & final & Hlen & Hit & -> & ->).
           inversion Hit; subst; [congruence|].
           exists later0, final. split; [simpl in Hlen; lia|].
           split; [assumption|]. split; [reflexivity|].
           destruct cb; simpl; [now rewrite <- app_assoc|reflexivity].
      * destruct (Hundef eq_refl) as [e He]. rewrite He. split; [discriminate|].
        intros (later & final & _ & Hit & _). inversion Hit; subst; congruence.
    + split.
      * intros H. injection H as <- <-. exists [], t_next.
        split; [simpl; lia|]. split; [now constructor|]. split; [reflexivity|].
        destruct cb; simpl; now rewrite app_nil_r.
      * intros (later & final & _ & Hit & -> & ->). inversion Hit; subst; [|congruence].
        destruct cb; simpl; now rewrite app_nil_r.
Qed.

(** C1.  For an integer image that reaches the loop of [threshold_li],
    with [math.log] giving NaN on NaN and a histogram of as many counts as
    bin centers, none of them NaN: one pass of the loop body at a threshold
    [t_curr] that is not NaN (the loop guard lets no other through) splits
    the bins into background ([bin_center <= t_curr]) and foreground
    ([bin_center > t_curr]), takes the count-weighted mean bin center of
    each part (the sum of center times count over the sum of the counts)
    and gives
    [t_next = (mean_back - mean_fore) / (ln(mean_back + eps) - ln(mean_fore + eps))]
    with [eps] 100 times the machine epsilon, where that is defined, and
    raises elsewhere.  [threshold_li] returns a value exactly when the
    iteration of that update from the initial estimate ends within the
    fuel, and then the last [t_next] plus the image minimum; the callback
    gets the initial estimate and every [t_next], each plus the image
    minimum. *)
Theorem li_integer_update dt px tolerance initial_guess iter_callback fuel
        shifted image_min tol t0 :
  log nan = nan ->
  li_prepare (IntPixels dt px) tolerance = Ready (IntPixels dt shifted) image_min tol ->
  length (fst (histogram shifted)) = length (snd (histogram shifted)) ->
  Forall (fun c => is_nan c = false) (snd (histogram shifted)) ->
  li_initial_guess fsum (IntPixels dt shifted) image_min initial_guess = Ok t0 ->
  let bins := combine (snd (histogram shifted)) (fst (histogram shifted)) in
  (forall t_curr, is_nan t_curr = false ->
     (spec_defined fsum log bins t_curr = true ->
      li_step fsum log histogram (IntPixels dt shifted) t_curr
      = Ok (spec_t_next fsum log bins t_curr))
     /\ (spec_defined fsum log bins t_curr = false ->
         exists e, li_step fsum log histogram (IntPixels dt shifted) t_curr = Raise e))
  /\ forall r calls,
       threshold_li (IntPixels dt px) tolerance initial_guess iter_callback fuel
       = (Return r, calls)
       <-> exists later final,
             (length later <= fuel)%nat
             /\ spec_iterates (spec_defined fsum log bins) (spec_t_next fsum log bins)
                              tol (-2 * tol) t0 later final
             /\ r = SFloat (final + to_float image_min)
             /\ calls = if iter_callback
                        then map (fun t => t + to_float image_min) (t0 :: later)
                        else [].
Proof.
  intros Hlog Hprep Hlen Hcenters Hguess bins.
  assert (Hstep : forall t, is_nan t = false ->
             (spec_defined fsum log bins t = true ->
              li_step fsum log histogram (IntPixels dt shifted) t
              = Ok (spec_t_next fsum log bins t))
             /\ (spec_defined fsum log bins t = false ->
                 exists e, li_step fsum log histogram (IntPixels dt shifted) t = Raise e)).
  { intros t Ht. unfold li_step, bins.
    destruct (histogram shifted) as [hist bin_centers]. simpl in *.
    now apply li_step_hist_spec. }
  split; [exact Hstep|].
  intros r calls. unfold threshold_li, Li.threshold_li. rewrite Hprep, Hguess.
  unfold li_run.
  rewrite (li_iterate_spec _ _ _ tol (to_float image_min) iter_callback Hstep).
  split; intros (later & final & Hl & Hit & Hr & Hc); exists later, final;
    (split; [assumption|]); (split; [assumption|]); (split; [assumption|]);
    rewrite Hc; destruct iter_callback; reflexivity.
Qed.

(** The errors of the initial guess, for an image that reaches its
    resolution. *)
Lemma li_guess_errors image tolerance shifted image_min tol
        initial_guess iter_callback fuel :
  li_prepare image tolerance = Ready shifted image_min tol ->
  ((exists x lo hi,
       fst (threshold_li image tolerance initial_guess iter_callback fuel)
       = Raised (ValueError_initial_guess x lo hi))
   <-> exists x, initial_guess = GuessScalar x
                 /\ (0 <? x - to_float image_min)
                    && (x - to_float image_min <? to_float (image_maximum shifted)) = false)
  /\ (fst (threshold_li image tolerance initial_guess iter_callback fuel)
      = Raised TypeError_initial_guess
      <-> initial_guess = GuessOther)
  /\ (forall e,
         e = TypeError_initial_guess \/ (exists x lo hi, e = ValueError_initial_guess x lo hi) ->
         fst (threshold_li image tolerance initial_guess iter_callback fuel) = Raised e ->
         forall cb' fuel',
           threshold_li image tolerance initial_guess cb' fuel' = (Raised e, [])).
Proof.
  intros Hprep.
  assert (Hloop : forall t_next e,
             fst (li_run (li_step fsum log histogram shifted) tol (to_float image_min)
                         iter_callback fuel t_next) = Raised e ->
             e = ValueError_math_domain \/ e = ZeroDivisionError).
  { intros t_next e. unfold li_run.
    destruct (li_iterate _ _ _ _ _ _ _ _) as [o calls] eqn:E. simpl. intros ->.
    apply li_iterate_raised in E. destruct E as [t Ht].
    eapply li_step_raises; eassumption. }
  unfold threshold_li, Li.threshold_li. rewrite Hprep.
  destruct initial_guess as [|f|x|]; simpl.
  - (* None *)
    split; [|split].
    + split.
      * intros (x & lo & hi & H). apply Hloop in H. destruct H; discriminate.
      * intros (x & H & _). discriminate.
    + split; [|discriminate].
      intros H. apply Hloop in H. destruct H; discriminate.
    + intros e [->|(x & lo & hi & ->)] H; apply Hloop in H; destruct H; discriminate.
  - (* callable *)
    split; [|split].
    + split.
      * intros (x & lo & hi & H). apply Hloop in H. destruct H; discriminate.
      * intros (x & H & _). discriminate.
    + split; [|discriminate].
      intros H. apply Hloop in H. destruct H; discriminate.
    + intros e [->|(x & lo & hi & ->)] H; apply Hloop in H; destruct H; discriminate.
  - (* scalar *)
    destruct ((0 <? x - to_float image_min)
              && (x - to_float image_min <? to_float (image_maximum shifted))) eqn:Hrange;
      simpl.
    + split; [|split].
      * split.
        -- intros (y & lo & hi & H). apply Hloop in H. destruct H; discriminate.
        -- intros (y & H & Hy). inversion H; subst. congruence.
      * split; [|discriminate].
        intros H. apply Hloop in H. destruct H; discriminate.
      * intros e [->|(y & lo & hi & ->)] H; apply Hloop in H; destruct H; discriminate.
    + split; [|split].
      * split; [|eauto]. intros _. exists x. auto.
      * split; discriminate.
      * intros e _ H cb' fuel'. inversion H; subst. reflexivity.
  - (* another type *)
    split; [|split].
    + split.
      * intros (x & lo & hi & H). discriminate.
      * intros (x & H & _). discriminate.
    + split; reflexivity.
    + intros e _ H cb' fuel'. inversion H; subst. reflexivity.
Qed.

(** Past the preparation, an error is one of the two of the initial guess
    or comes from the loop. *)
Lemma li_raised_after_prepare image tolerance shifted image_min tol
      initial_guess iter_callback fuel e :
  li_prepare image tolerance = Ready shifted image_min tol ->
  fst (threshold_li image tolerance initial_guess iter_callback fuel) = Raised e ->
  e = TypeError_initial_guess
  \/ (exists x lo hi, e = ValueError_initial_guess x lo hi)
  \/ e = ValueError_math_domain
  \/ e = ZeroDivisionError.
Proof.
  intros Hprep. unfold threshold_li, Li.threshold_li. rewrite Hprep.
  destruct (li_initial_guess fsum shifted image_min initial_guess) as [t0|e0] eqn:Hg.
  - unfold li_run.
    destruct (li_iterate _ _ _ _ _ _ _ _) as [o calls] eqn:E. simpl. intros ->.
    apply li_iterate_raised in E. destruct E as [t Ht].
    apply li_step_raises in Ht. tauto.
  - simpl. intros H. injection H as <-.
    destruct initial_guess as [|f|x|]; simpl in Hg; try discriminate.
    + destruct (negb _); [|discriminate]. injection Hg as <-. right. left. eauto.
    + injection Hg as <-. now left.
Qed.

(** C7.  For an image that reaches the resolution of the initial guess
    (the preparation of lines 636-661 neither returns early nor raises),
    [threshold_li] raises the validation error on the initial guess, the
    [ValueError] of lines 671-675, exactly when [initial_guess] is a scalar
    that, shifted by the image minimum, is not strictly between 0 and the
    maximum of the shifted image; it raises the type error exactly when
    [initial_guess] is neither [None], nor callable, nor a scalar; either
    error is raised before the callback is called or an iteration runs; and
    any other error on such an image is a math domain [ValueError] or a
    [ZeroDivisionError] of the loop. *)
Theorem li_initial_guess_validation image tolerance shifted image_min tol
        initial_guess iter_callback fuel :
  li_prepare image tolerance = Ready shifted image_min tol ->
  ((exists x lo hi,
       fst (threshold_li image tolerance initial_guess iter_callback fuel)
       = Raised (ValueError_initial_guess x lo hi))
   <-> exists x, initial_guess = GuessScalar x
                 /\ (0 <? x - to_float image_min)
                    && (x - to_float image_min <? to_float (image_maximum shifted)) = false)
  /\ (fst (threshold_li image tolerance initial_guess iter_callback fuel)
      = Raised TypeError_initial_guess
      <-> initial_guess = GuessOther)
  /\ (forall e,
         e = TypeError_initial_guess \/ (exists x lo hi, e = ValueError_initial_guess x lo hi) ->
         fst (threshold_li image tolerance initial_guess iter_callback fuel) = Raised e ->
         forall cb' fuel',
           threshold_li image tolerance initial_guess cb' fuel' = (Raised e, []))
  /\ (forall e,
         fst (threshold_li image tolerance initial_guess iter_callback fuel) = Raised e ->
         e = TypeError_initial_guess
         \/ (exists x lo hi, e = ValueError_initial_guess x lo hi)
         \/ e = ValueError_math_domain
         \/ e = ZeroDivisionError).
Proof.
  intros Hprep.
  destruct (li_guess_errors image tolerance shifted image_min tol initial_guess
              iter_callback fuel Hprep) as (H1 & H2 & H3).
  split; [exact H1|]. split; [exact H2|]. split; [exact H3|].
  intros e. now apply li_raised_after_prepare with (shifted := shifted) (image_min := image_min)
                                                   (tol := tol).
Qed.

(** C9.  With a callable [initial_guess], [threshold_li] starts the
    iteration from the value the callable returns on the shifted image,
    without a range check: the validation error on the initial guess is
    never raised, and the first value handed to the callback is that value
    plus the image minimum. *)
Theorem li_callable_guess_unchecked image tolerance shifted image_min tol
        (f : pixels -> float) iter_callback fuel :
  li_prepare image tolerance = Ready shifted image_min tol ->
  threshold_li image tolerance (GuessCallable f) iter_callback fuel
  = li_run (li_step fsum log histogram shifted) tol (to_float image_min)
           iter_callback fuel (f shifted)
  /\ (forall x lo hi,
         fst (threshold_li image tolerance (GuessCallable f) iter_callback fuel)
         <> Raised (ValueError_initial_guess x lo hi))
  /\ (exists rest,
         snd (threshold_li image tolerance (GuessCallable f) true fuel)
         = (f shifted + to_float image_min) :: rest).
Proof.
  intros Hprep. unfold threshold_li, Li.threshold_li. rewrite Hprep. simpl.
  split; [reflexivity|]. split.
  - intros x lo hi H. unfold li_run in H.
    destruct (li_iterate _ _ _ _ _ _ _ _) as [o calls] eqn:E. simpl in H. subst o.
    apply li_iterate_raised in E. destruct E as [t Ht].
    apply li_step_raises in Ht. destruct Ht; discriminate.
  - unfold li_run.
    destruct (li_iterate_calls (li_step fsum log histogram shifted) tol (to_float image_min)
                               true fuel (f shifted) (-2 * tol)
                               [f shifted + to_float image_min]) as [rest Hrest].
    exists rest. exact Hrest.
Qed.

Lemma li_prepare_float px tolerance shifted image_min tol :
  li_prepare (FloatPixels px) tolerance = Ready shifted image_min tol ->
  exists m,
    image_min = SFloat m
    /\ In m (filter is_finite (filter (fun x => negb (is_nan x)) px))
    /\ shifted = FloatPixels (map (fun x => x - m)
                                  (filter is_finite (filter (fun x => negb (is_nan x)) px)))
    /\ py_or tolerance
             (d <- cp_min (diff (unique (map (fun x => x - m)
                     (filter is_finite (filter (fun x => negb (is_nan x)) px))))) ;;
              Ok (d / 2)) = Ok tol.
Proof.
  unfold li_prepare.
  destruct (filter (fun x => negb (is_nan x)) px) as [|val0 rest0]; [discriminate|].
  destruct (forallb _ _); [discriminate|].
  destruct (filter is_finite (val0 :: rest0)) as [|x rest] eqn:E; [discriminate|].
  set (m := fold_left (fun acc y => if y <? acc then y else acc) rest x).
  destruct (py_or tolerance _) as [t|e] eqn:Et; [|discriminate].
  intros H. inversion H; subst. exists m. repeat split.
  - apply fold_min_in.
  - exact Et.
Qed.

(** C5.  With no [tolerance] given, the tolerance of the convergence test
    [abs(t_next - t_curr) > tolerance] is 0.5 for an integer image; for a
    float image it is half the smallest difference between consecutive
    values of the strictly ascending distinct values of the shifted finite
    image. *)
Theorem li_default_tolerance :
  (forall dt px shifted image_min tol,
      li_prepare (IntPixels dt px) None = Ready shifted image_min tol -> tol = 0.5)
  /\ (forall px shifted image_min tol,
         li_prepare (FloatPixels px) None = Ready shifted image_min tol ->
         exists values gap,
           shifted = FloatPixels values
           /\ values = map (fun x => x - to_float image_min)
                           (filter is_finite (filter (fun x => negb (is_nan x)) px))
           /\ ascending (unique values) = true
           /\ In gap (diff (unique values))
           /\ Forall (fun d => (gap <=? d) = true) (diff (unique values))
           /\ tol = gap / 2)
  /\ (forall image shifted image_min tol initial_guess t0 iter_callback fuel,
         li_prepare image None = Ready shifted image_min tol ->
         li_initial_guess fsum shifted image_min initial_guess = Ok t0 ->
         threshold_li image None initial_guess iter_callback fuel
         = li_iterate (li_step fsum log histogram shifted) tol (to_float image_min)
                      iter_callback fuel t0 (-2 * tol)
                      (if iter_callback then [t0 + to_float image_min] else [])).
Proof.
  split; [|split].
  - intros dt px shifted image_min tol H.
    apply li_prepare_int in H. destruct H as (_ & _ & _ & _ & H).
    simpl in H. now inversion H.
  - intros px shifted image_min tol H.
    apply li_prepare_float in H. destruct H as (m & -> & Hm & -> & Htol).
    set (finite := filter is_finite (filter (fun x => negb (is_nan x)) px)) in *.
    set (values := map (fun x => x - m) finite) in *.
    assert (Hfin : Forall (fun x => is_finite x = true) finite)
      by apply filter_finite_forall.
    assert (Hvalues : Forall not_nan values).
    { apply Forall_forall. intros v Hv. apply in_map_iff in Hv.
      destruct Hv as [x [ <- Hx]]. rewrite Forall_forall in Hfin.
      apply sub_finite_not_nan; auto. }
    destruct (unique_ascending values Hvalues) as [Hnn Hasc].
    pose proof (diff_ascending_not_nan _ Hasc) as Hdiff.
    simpl in Htol. unfold bind in Htol.
    destruct (cp_min (diff (unique values))) as [gap|e] eqn:Emin; [|discriminate].
    inversion Htol; subst tol.
    destruct (cp_min_least _ _ Hdiff Emin) as [Hin Hle].
    exists values, gap. simpl. repeat split; assumption.
  - intros image shifted image_min tol initial_guess t0 iter_callback fuel Hprep Hguess.
    unfold threshold_li, Li.threshold_li. now rewrite Hprep, Hguess.
Qed.

End Library.

Lemma li_degenerate_inputs_witness :
  threshold_li sum_seq no_log histogram (FloatPixels [nan; nan]) None GuessNone true 5
  = (Return (SFloat nan), [])
  /\ threshold_li sum_seq no_log histogram (FloatPixels [5; nan; 5]) None GuessNone true 5
     = (Return (SFloat 5), [])
  /\ threshold_li sum_seq no_log histogram
                     (FloatPixels [infinity; nan; neg_infinity]) None GuessNone true 5
     = (Return (SFloat 0), []).
Proof.
  destruct (li_degenerate_inputs sum_seq no_log histogram None GuessNone true 5)
    as (H1 & H2 & H3 & _).
  split; [|split].
  - apply H1. reflexivity.
  - apply H2; [discriminate|].
    intros x [Hx|[Hx|[Hx|[]]]] Hn; subst; try reflexivity; discriminate.
  - apply H3; simpl; auto.
    intros x [Hx|[Hx|[Hx|[]]]] Hn; subst; try reflexivity; discriminate.
Defined.
Lemma li_integer_update_witness :
  li_step sum_seq no_log histogram (IntPixels uint8 [0; 0; 190; 190]%Z) 95
  = Ok (spec_t_next sum_seq no_log
          (combine (snd (histogram [0; 0; 190; 190]%Z)) (fst (histogram [0; 0; 190; 190]%Z)))
          95)
  /\ exists later final,
       spec_iterates
         (spec_defined sum_seq no_log
            (combine (snd (histogram [0; 0; 190; 190]%Z))
                     (fst (histogram [0; 0; 190; 190]%Z))))
         (spec_t_next sum_seq no_log
            (combine (snd (histogram [0; 0; 190; 190]%Z))
                     (fst (histogram [0; 0; 190; 190]%Z))))
         0.5 (-2 * 0.5) 95 later final
       /\ SFloat 11 = SFloat (final + 10)
       /\ [105; 11; 11] = map (fun t => t + 10) (95 :: later).
Proof.
  destruct (li_integer_update sum_seq no_log histogram uint8 [10; 10; 200; 200]%Z
              None GuessNone true 5 [0; 0; 190; 190]%Z (SInt 10) 0.5 95) as [H1 H2].
  - reflexivity.
  - reflexivity.
  - reflexivity.
  - vm_compute. repeat constructor.
  - reflexivity.
  - split; [apply (H1 95); reflexivity|].
    destruct (proj1 (H2 (SFloat 11) [105; 11; 11])) as (later & final & _ & Hit & Hr & Hc).
    + vm_compute. reflexivity.
    + exists later, final. auto.
Defined.

Lemma li_default_tolerance_witness :
  exists values gap,
    FloatPixels [0; 1; 3; 1.5] = FloatPixels values
    /\ In gap (diff (unique values))
    /\ 0.25 = gap / 2.
Proof.
  destruct (proj1 (proj2 (li_default_tolerance sum_seq no_log histogram))
                  [1; 2; nan; 4; 2.5] (FloatPixels [0; 1; 3; 1.5]) (SFloat 1) 0.25)
    as (values & gap & H1 & _ & _ & H2 & _ & H3).
  - reflexivity.
  - exists values, gap. auto.
Defined.

Lemma li_initial_guess_validation_witness :
  (exists x lo hi,
      fst (threshold_li sum_seq no_log histogram (FloatPixels [1; 2; 4]) None
                        (GuessScalar 0.5) true 3)
      = Raised (ValueError_initial_guess x lo hi))
  /\ threshold_li sum_seq no_log histogram (FloatPixels [1; 2; 4]) None
                  (GuessScalar 0.5) true 3
     = (Raised (ValueError_initial_guess 0.5 (SFloat 1) (SFloat 4)), []).
Proof.
  destruct (li_initial_guess_validation sum_seq no_log histogram
              (FloatPixels [1; 2; 4]) None (FloatPixels [0; 1; 3]) (SFloat 1) 0.5
              (GuessScalar 0.5) true 3) as (H1 & _ & H3 & _).
  - reflexivity.
  - assert (H : exists x lo hi,
               fst (threshold_li sum_seq no_log histogram (FloatPixels [1; 2; 4]) None
                                 (GuessScalar 0.5) true 3)
               = Raised (ValueError_initial_guess x lo hi)).
    { apply H1. exists 0.5. split; reflexivity. }
    split; [exact H|].
    apply (H3 (ValueError_initial_guess 0.5 (SFloat 1) (SFloat 4))).
    + right. eauto.
    + reflexivity.
Defined.

(** The image [[1.0, inf]] is not degenerate: it is not empty, not constant
    and has a finite value.  With no tolerance the preparation raises the
    [ValueError] of [cp.min] on its empty array of differences before the
    initial guess is looked at: a guess of a wrong type raises no type
    error, and a [ValueError] is raised though the guess is no scalar. *)
Lemma li_wrong_type_guess_raises_value_error :
  li_prepare (FloatPixels [1; infinity]) None = Early (Raised ValueError_zero_size_reduction)
  /\ threshold_li sum_seq no_log histogram (FloatPixels [1; infinity]) None GuessOther false 0
     = (Raised ValueError_zero_size_reduction, [])
  /\ fst (threshold_li sum_seq no_log histogram (FloatPixels [1; infinity]) None GuessOther
            false 0)
     <> Raised TypeError_initial_guess.
Proof.
  split; [reflexivity|]. split; [reflexivity|]. discriminate.
Qed.

Lemma li_callable_guess_unchecked_witness :
  exists rest,
    snd (threshold_li sum_seq no_log histogram (FloatPixels [1; 2; 4]) None
                      (GuessCallable (fun _ => 100)) true 0)
    = 101 :: rest.
Proof.
  destruct (li_callable_guess_unchecked sum_seq no_log histogram
              (FloatPixels [1; 2; 4]) None (FloatPixels [0; 1; 3]) (SFloat 1) 0.5
              (fun _ => 100) true 0) as (_ & _ & H).
  - reflexivity.
  - exact H.
Defined.

End LiFacts.


(** ** Histogram validation and the histogram-based thresholds *)

Module HistogramFacts.
Import NDArray Histogram.
Local Open Scope nat_scope.

(** *** First and last element satisfying a test *)

Lemma first_true_split {A} (p : A -> bool) (l : list A) a :
  first_true (map p l) = Some a ->
  exists pre x post,
    l = pre ++ x :: post /\ length pre = a
    /\ Forall (fun c => p c = false) pre /\ p x = true.
Proof.
  revert a. induction l as [|c l IH]; intros a; simpl; [discriminate|].
  destruct (p c) eqn:Hc.
  - intros H. inversion H; subst. exists [], c, l. repeat split; auto.
  - destruct (first_true (map p l)) as [k|]; [|discriminate].
    intros H. inversion H; subst.
    destruct (IH k eq_refl) as (pre & x & post & -> & Hlen & Hpre & Hx).
    exists (c :: pre), x, post. simpl. repeat split; auto.
Qed.

Lemma first_true_none_map {A} (p : A -> bool) (l : list A) :
  first_true (map p l) = None <-> Forall (fun c => p c = false) l.
Proof.
  induction l as [|c l IH]; simpl.
  - split; constructor.
  - destruct (p c) eqn:Hc.
    + split; [discriminate|]. intros H. inversion H; congruence.
    + destruct (first_true (map p l)).
      * split; [discriminate|]. intros H. inversion H; subst.
        apply IH in H3. discriminate.
      * split; [|reflexivity]. intros _. constructor; [assumption|]. now apply IH.
Qed.

Lemma slice_middle {A} (pre mid post : list A) :
  slice (pre ++ mid ++ post) (length pre) (length pre + length mid) = mid.
Proof.
  unfold slice. rewrite skipn_app, skipn_all, Nat.sub_diag. simpl.
  replace (length pre + length mid - length pre) with (length mid) by lia.
  rewrite firstn_app, firstn_all, Nat.sub_diag. simpl. apply app_nil_r.
Qed.

Lemma slice_all {A} (l : list A) : slice l 0 (length l) = l.
Proof. unfold slice. simpl. rewrite Nat.sub_0_r. apply firstn_all. Qed.

Lemma existsb_Forall_false {A} (p : A -> bool) l :
  existsb p l = true -> Forall (fun c => p c = false) l -> False.
Proof.
  intros He Hf. apply existsb_exists in He. destruct He as [x [Hin Hx]].
  rewrite Forall_forall in Hf. specialize (Hf x Hin). congruence.
Qed.

Lemma slice_decompose {A} (l : list A) a m :
  a + m <= length l ->
  exists pre post,
    l = pre ++ slice l a (a + m) ++ post
    /\ length pre = a /\ length (slice l a (a + m)) = m.
Proof.
  intros H. exists (firstn a l), (skipn m (skipn a l)). unfold slice.
  replace (a + m - a) with m by lia.
  rewrite (firstn_skipn m (skipn a l)), (firstn_skipn a l).
  repeat split; auto.
  - rewrite length_firstn. lia.
  - rewrite length_firstn, length_skipn. lia.
Qed.

Lemma last_default {A} (l : list A) d d' : l <> [] -> last l d = last l d'.
Proof.
  induction l as [|x l IH]; [congruence|]. intros _.
  destruct l as [|y l]; [reflexivity|].
  change (last (y :: l) d = last (y :: l) d'). apply IH. discriminate.
Qed.

Lemma app_eq_length {A} (l1 l2 l1' l2' : list A) :
  l1 ++ l2 = l1' ++ l2' -> length l1 = length l1' -> l1 = l1' /\ l2 = l2'.
Proof.
  revert l1'. induction l1 as [|x l1 IH]; intros [|y l1']; simpl; try discriminate.
  - auto.
  - intros H Hl. injection H as -> H. injection Hl as Hl.
    destruct (IH _ H Hl) as [-> ->]. auto.
Qed.

Lemma first_true_app {A} (p : A -> bool) pre x post :
  Forall (fun c => p c = false) pre -> p x = true ->
  first_true (map p (pre ++ x :: post)) = Some (length pre).
Proof.
  intros Hpre Hx. induction Hpre as [|c pre Hc _ IH]; simpl.
  - now rewrite Hx.
  - now rewrite Hc, IH.
Qed.

Lemma range_slice {A} (f : nat -> A) n (pre mid post : list A) :
  map f (seq 0 n) = pre ++ mid ++ post ->
  mid = map f (seq (length pre) (length mid)).
Proof.
  intros H.
  assert (Hn : n = length pre + (length mid + length post)).
  { apply (f_equal (@length A)) in H.
    rewrite length_map, length_seq, !length_app in H. exact H. }
  rewrite Hn, !seq_app, !map_app in H. simpl in H.
  apply app_eq_length in H; [|now rewrite length_map, length_seq].
  destruct H as [_ H].
  apply app_eq_length in H; [|now rewrite length_map, length_seq].
  symmetry. apply H.
Qed.

Lemma slice_one {A} (l : list A) a d :
  a < length l -> slice l a (a + 1) = [nth a l d].
Proof.
  intros H. unfold slice. replace (a + 1 - a) with 1 by lia.
  revert a H. induction l as [|x l IH]; intros a H; simpl in H; [lia|].
  destruct a as [|a]; simpl.
  - reflexivity.
  - apply IH. lia.
Qed.

Section Dtype.
Variable count : Type.
Variable eq_zero : count -> bool.
Variable gt_zero : count -> bool.

(** The two ends of a list that holds an element above zero: the part
    before the first such element and the part after the last. *)
Lemma positive_ends (counts : list count) a b :
  first_true (map gt_zero counts) = Some a ->
  first_true (rev (map gt_zero counts)) = Some b ->
  exists pre t y post,
    counts = pre ++ (t ++ [y]) ++ post
    /\ length pre = a /\ length post = b
    /\ Forall (fun c => gt_zero c = false) pre
    /\ Forall (fun c => gt_zero c = false) post
    /\ gt_zero y = true /\ gt_zero (hd y t) = true.
Proof.
  intros Ha Hb. rewrite <- map_rev in Hb.
  apply first_true_split in Ha. destruct Ha as (pre & x & tl & Hl & Hlen & Hpre & Hx).
  apply first_true_split in Hb. destruct Hb as (pre' & y & tl' & Hr & Hlen' & Hpre' & Hy).
  assert (Hl' : counts = rev tl' ++ y :: rev pre').
  { rewrite <- (rev_involutive counts), Hr, rev_app_distr. simpl.
    now rewrite <- app_assoc. }
  assert (Hpost : Forall (fun c => gt_zero c = false) (rev pre')).
  { apply Forall_forall. intros c Hc. apply in_rev in Hc.
    rewrite Forall_forall in Hpre'. auto. }
  assert (Hlr : length (rev pre') = b) by now rewrite length_rev.
  clear Hr Hpre'. remember (rev pre') as post eqn:Hp. clear Hp.
  rewrite Hl in Hl'. subst counts.
  apply app_eq_app in Hl'. destruct Hl' as [l [[H1 H2]|[H1 H2]]].
  - destruct l as [|z l]; simpl in H2.
    + rewrite app_nil_r in H1. injection H2 as H2 H3. subst y tl pre.
      exists (rev tl'), [], x, post. simpl. repeat split; auto.
    + (* the last element above zero would lie before the first *)
      injection H2 as H2 H3. subst z. exfalso. rewrite Forall_forall in Hpre.
      assert (Hin : In y pre).
      { rewrite H1. apply in_or_app. right. now left. }
      specialize (Hpre y Hin). congruence.
  - destruct l as [|z l]; simpl in H2.
    + injection H2 as H2 H3. subst y tl. 
      exists pre, [], x, post. simpl. repeat split; auto.
    + injection H2 as H2 H3. subst z tl.
      exists pre, (x :: l), y, post. simpl. repeat split; auto.
      rewrite <- app_assoc. reflexivity.
Qed.

(** What the trimming keeps: the span from the first to the last count above
    zero, with the bin centers cut at the same places. *)
Lemma trim_zeros_span (counts : list count) (bin_centers : list scalar)
        (cs : list count) (bs : list scalar) :
  length bin_centers = length counts ->
  trim_zeros count eq_zero gt_zero counts bin_centers = Returns (cs, bs) ->
  exists pre post bpre bpost,
    counts = pre ++ cs ++ post
    /\ bin_centers = bpre ++ bs ++ bpost
    /\ length bpre = length pre /\ length bs = length cs
    /\ Forall (fun c => gt_zero c = false) pre
    /\ Forall (fun c => gt_zero c = false) post
    /\ cs <> []
    /\ ((forall c, gt_zero c = true -> eq_zero c = false) ->
        existsb gt_zero counts = true ->
        forall d, eq_zero (hd d cs) = false /\ eq_zero (last cs d) = false).
Proof.
  intros Hlen. unfold trim_zeros. destruct counts as [|c0 rest]; [discriminate|].
  set (counts := c0 :: rest) in *.
  destruct (eq_zero c0 || eq_zero (last counts c0)) eqn:Hz.
  - unfold argmax_bool. rewrite length_map.
    destruct (first_true (map gt_zero counts)) as [a|] eqn:Ha.
    + (* a count above zero *)
      destruct (first_true (rev (map gt_zero counts))) as [b|] eqn:Hb.
      2:{ exfalso. rewrite <- map_rev in Hb. apply first_true_none_map in Hb.
          apply first_true_split in Ha.
          destruct Ha as (pre & x & post & Hl & _ & _ & Hx).
          rewrite Forall_forall in Hb.
          assert (Hin : In x (rev counts)).
          { apply -> in_rev. rewrite Hl. apply in_or_app. right. now left. }
          specialize (Hb x Hin). congruence. }
      destruct (positive_ends counts a b Ha Hb)
        as (pre & t & y & post & Hl & Hla & Hlb & Hpre & Hpost & Hy & Hx).
      assert (Hend : length counts - b = length pre + length (t ++ [y])).
      { rewrite Hl, !length_app. lia. }
      rewrite Hend, <- Hla. intros H.
      rewrite Hl in H at 1. rewrite slice_middle in H.
      inversion H; subst cs. clear H.
      destruct (slice_decompose bin_centers (length pre) (length (t ++ [y])))
        as (bpre & bpost & Hb1 & Hb2 & Hb3).
      { rewrite Hlen, Hl, !length_app. lia. }
      exists pre, post, bpre, bpost. subst bs.
      split; [assumption|]. split; [assumption|]. split; [assumption|].
      split; [assumption|]. split; [assumption|]. split; [assumption|].
      split; [destruct t; discriminate|].
      intros Hpos _ d. split.
      * destruct t as [|z t]; simpl in *; apply Hpos; assumption.
      * rewrite last_last. apply Hpos; assumption.
    + (* no count above zero: nothing is cut *)
      assert (Hb : first_true (rev (map gt_zero counts)) = None).
      { rewrite <- map_rev. apply first_true_none_map.
        apply first_true_none_map in Ha. apply Forall_forall. intros c Hc.
        apply in_rev in Hc. rewrite Forall_forall in Ha. auto. }
      rewrite Hb, Nat.sub_0_r. rewrite slice_all. rewrite <- Hlen, slice_all.
      intros H. inversion H; subst cs bs. exists [], [], [], []. simpl.
      rewrite !app_nil_r.
      assert (Hnone : existsb gt_zero counts = true -> False).
      { intros He. apply first_true_none_map in Ha.
        eapply existsb_Forall_false; eassumption. }
      repeat split; auto; try discriminate; intros; exfalso; auto.
  - intros H. inversion H; subst cs bs. exists [], [], [], []. simpl.
    rewrite !app_nil_r. apply orb_false_iff in Hz. destruct Hz as [Hz1 Hz2].
    repeat split; auto; try discriminate.
    change (eq_zero (last counts d) = false).
    rewrite (last_default counts d c0); [assumption|discriminate].
Qed.

Lemma trim_zeros_nonempty (counts : list count) (bin_centers : list scalar) (d : count) :
  counts <> [] ->
  trim_zeros count eq_zero gt_zero counts bin_centers
  = if eq_zero (hd d counts) || eq_zero (last counts d) then
      Returns (slice counts (argmax_bool (map gt_zero counts))
                 (length (map gt_zero counts) - argmax_bool (rev (map gt_zero counts))),
               slice bin_centers (argmax_bool (map gt_zero counts))
                 (length (map gt_zero counts) - argmax_bool (rev (map gt_zero counts))))
    else Returns (counts, bin_centers).
Proof.
  intros Hne. destruct counts as [|c0 rest]; [congruence|].
  unfold trim_zeros. rewrite (last_default (c0 :: rest) c0 d) by discriminate.
  reflexivity.
Qed.

(** The trimming of a histogram whose zero ends are known. *)
Lemma trim_zeros_exact (pre cs post : list count) (bin_centers : list scalar)
        (d : count) :
  length bin_centers = length (pre ++ cs ++ post) ->
  Forall (fun c => eq_zero c = true /\ gt_zero c = false) pre ->
  Forall (fun c => eq_zero c = true /\ gt_zero c = false) post ->
  cs <> [] ->
  gt_zero (hd d cs) = true -> eq_zero (hd d cs) = false ->
  gt_zero (last cs d) = true -> eq_zero (last cs d) = false ->
  trim_zeros count eq_zero gt_zero (pre ++ cs ++ post) bin_centers
  = Returns (cs, slice bin_centers (length pre) (length pre + length cs)).
Proof.
  intros Hlen Hpre Hpost Hne Hh1 Hh2 Hl1 Hl2.
  destruct (exists_last Hne) as (t & y & Hcs).
  assert (Hy : last cs d = y) by (subst cs; apply last_last).
  rewrite Hy in Hl1, Hl2.
  assert (Hgpre : Forall (fun c => gt_zero c = false) pre).
  { eapply Forall_impl; [|exact Hpre]. simpl. tauto. }
  assert (Hgpost : Forall (fun c => gt_zero c = false) (rev post)).
  { apply Forall_forall. intros c Hc. apply in_rev in Hc.
    rewrite Forall_forall in Hpost. apply Hpost. assumption. }
  destruct cs as [|x cs']; [congruence|]. simpl in Hh1, Hh2.
  assert (Ha : first_true (map gt_zero (pre ++ (x :: cs') ++ post)) = Some (length pre)).
  { simpl. now apply first_true_app. }
  assert (Hb : first_true (rev (map gt_zero (pre ++ (x :: cs') ++ post)))
               = Some (length post)).
  { rewrite <- map_rev, Hcs, !rev_app_distr. simpl. rewrite <- !app_assoc. simpl.
    rewrite <- (length_rev post). now apply first_true_app. }
  rewrite (trim_zeros_nonempty _ _ d) by (destruct pre; discriminate).
  destruct (eq_zero (hd d (pre ++ (x :: cs') ++ post))
            || eq_zero (last (pre ++ (x :: cs') ++ post) d)) eqn:Hz.
  - unfold argmax_bool. rewrite Ha, Hb, length_map.
    replace (length (pre ++ (x :: cs') ++ post) - length post)
      with (length pre + length (x :: cs')) by (rewrite !length_app; lia).
    now rewrite slice_middle.
  - apply orb_false_iff in Hz. destruct Hz as [Hz1 Hz2].
    assert (Hpre0 : pre = []).
    { destruct pre as [|p pre]; [reflexivity|]. exfalso.
      simpl in Hz1. inversion Hpre as [|? ? [Hp _] _]; subst. congruence. }
    assert (Hpost0 : post = []).
    { destruct post as [|p0 post']; [reflexivity|].
      assert (Hp0 : p0 :: post' <> []) by discriminate.
      destruct (exists_last Hp0) as (t' & z & Hp).
      exfalso. rewrite Hp in *. rewrite !app_assoc, last_last in Hz2.
      rewrite Forall_forall in Hpost.
      destruct (Hpost z) as [Hzz _]; [apply in_or_app; right; now left|]. congruence. }
    subst pre post. simpl. rewrite app_nil_r.
    simpl in Hlen. rewrite app_nil_r in Hlen. simpl in Hlen.
    rewrite <- Hlen. now rewrite slice_all.
Qed.

(** X1 ([_validate_image_histogram], the trimming of a given histogram):
    when the counts have as many bin centers, the counts returned are a
    contiguous, non-empty part of the counts given, the bin centers are cut
    at the same two places, and no count cut off is above zero (a negative
    count at an end goes too).  If some count is above zero, and counts
    above zero are not equal to zero, the counts returned start and end
    with a count that is not zero. *)
Theorem trim_zeros_keeps_positive_span (counts : list count) (bin_centers : list scalar)
        (cs : list count) (bs : list scalar) :
  length bin_centers = length counts ->
  trim_zeros count eq_zero gt_zero counts bin_centers = Returns (cs, bs) ->
  exists pre post bpre bpost,
    counts = pre ++ cs ++ post
    /\ bin_centers = bpre ++ bs ++ bpost
    /\ length bpre = length pre /\ length bs = length cs
    /\ Forall (fun c => gt_zero c = false) pre
    /\ Forall (fun c => gt_zero c = false) post
    /\ cs <> []
    /\ ((forall c, gt_zero c = true -> eq_zero c = false) ->
        existsb gt_zero counts = true ->
        forall d, eq_zero (hd d cs) = false /\ eq_zero (last cs d) = false).
Proof. exact (trim_zeros_span counts bin_centers cs bs). Qed.

(** X2 ([_validate_image_histogram], the trimming of a given histogram):
    for counts made of zeros, then counts that start and end with a count
    above zero, then zeros, the trimming returns exactly the middle part
    and its bin centers: zeros inside it are kept, and a histogram with no
    zero at either end is returned as it is. *)
Theorem trim_zeros_removes_zero_ends (pre cs post : list count) (bin_centers : list scalar)
        (d : count) :
  length bin_centers = length (pre ++ cs ++ post) ->
  Forall (fun c => eq_zero c = true /\ gt_zero c = false) pre ->
  Forall (fun c => eq_zero c = true /\ gt_zero c = false) post ->
  cs <> [] ->
  gt_zero (hd d cs) = true -> eq_zero (hd d cs) = false ->
  gt_zero (last cs d) = true -> eq_zero (last cs d) = false ->
  trim_zeros count eq_zero gt_zero (pre ++ cs ++ post) bin_centers
  = Returns (cs, slice bin_centers (length pre) (length pre + length cs)).
Proof. exact (trim_zeros_exact pre cs post bin_centers d). Qed.

Variable astype_float : count -> float.
Variable pixel : Type.
Variable pixel_eqb : pixel -> pixel -> bool.
Variable histogram : list pixel -> Z -> bool -> list count * list scalar.

Local Abbreviation validate :=
  (_validate_image_histogram count eq_zero gt_zero astype_float pixel histogram).

(** X3 ([_validate_image_histogram], [hist] given as an array of counts):
    the bin centers returned are the indices that the counts kept had in
    the array given, not indices counted from zero again; the counts
    returned are the kept counts as floats, and the image is ignored. *)
Theorem counts_only_bin_centers_are_indices (image : option (list pixel))
        (counts : list count) (nbins : Z) (normalize : bool)
        (fs : list float) (bs : list scalar) :
  validate image (Some (HistCounts count counts)) nbins normalize = Returns (fs, bs) ->
  exists pre cs post,
    counts = pre ++ cs ++ post
    /\ fs = map astype_float cs
    /\ bs = map (fun i => SInt (Z.of_nat i)) (seq (length pre) (length cs))
    /\ Forall (fun c => gt_zero c = false) pre
    /\ Forall (fun c => gt_zero c = false) post.
Proof.
  unfold validate, _validate_image_histogram.
  set (centers := map (fun i => SInt (Z.of_nat i)) (seq 0 (length counts))).
  intros H.
  assert (H' : match trim_zeros count eq_zero gt_zero counts centers with
               | Throws e => Throws e
               | Returns (cs, bs) => Returns (map astype_float cs, bs)
               end = Returns (fs, bs)).
  { destruct image; exact H. }
  clear H.
  destruct (trim_zeros count eq_zero gt_zero counts centers) as [[cs bs']|e] eqn:Ht;
    [|discriminate].
  injection H' as <- <-.
  apply trim_zeros_span in Ht.
  2:{ unfold centers. now rewrite length_map, length_seq. }
  destruct Ht as (pre & post & bpre & bpost & Hc & Hb & Hl1 & Hl2 & Hpre & Hpost & _).
  exists pre, cs, post. repeat split; auto.
  unfold centers in Hb. apply range_slice in Hb. now rewrite Hl1, Hl2 in Hb.
Qed.

Variable _threshold_otsu_cpu : Z -> list float -> list scalar -> float.
Variable _threshold_yen_cpu : Z -> list float -> list scalar -> float.
Variable _threshold_isodata_cpu : Z -> list float -> list scalar -> float.
Variable _threshold_isodata_all_cpu : Z -> list float -> list scalar -> list float.
Variable astype_float32 : float -> float.

Local Abbreviation otsu :=
  (threshold_otsu count eq_zero gt_zero astype_float pixel pixel_eqb histogram
     _threshold_otsu_cpu).
Local Abbreviation yen :=
  (threshold_yen count eq_zero gt_zero astype_float pixel histogram _threshold_yen_cpu).
Local Abbreviation isodata :=
  (threshold_isodata count eq_zero gt_zero astype_float pixel histogram
     _threshold_isodata_cpu _threshold_isodata_all_cpu astype_float32).

Lemma validate_single_bin (image : option (list pixel)) (pre post : list count) (c : count)
      (bin_centers : list scalar) (nbins : Z) (normalize : bool) (d : scalar) :
  length bin_centers = length (pre ++ [c] ++ post) ->
  Forall (fun c => eq_zero c = true /\ gt_zero c = false) pre ->
  Forall (fun c => eq_zero c = true /\ gt_zero c = false) post ->
  gt_zero c = true -> eq_zero c = false ->
  validate image (Some (HistPair count (pre ++ [c] ++ post) bin_centers)) nbins normalize
  = Returns ([astype_float c], [nth (length pre) bin_centers d]).
Proof.
  intros Hlen Hpre Hpost Hg He.
  assert (Ht : trim_zeros count eq_zero gt_zero (pre ++ [c] ++ post) bin_centers
               = Returns ([c], [nth (length pre) bin_centers d])).
  { rewrite (trim_zeros_exact pre [c] post bin_centers c);
      try assumption; try discriminate.
    simpl length. rewrite (slice_one _ _ d); [reflexivity|].
    rewrite Hlen, !length_app. simpl. lia. }
  unfold _validate_image_histogram. destruct image; rewrite Ht; reflexivity.
Qed.

(** X4 ([threshold_yen], [threshold_isodata]): for a histogram given with
    its bin centers, in which one count is above zero and all others are
    zero, both functions return the center of that bin ([threshold_isodata]
    with [return_all] an array holding it), whatever the image and [nbins]
    are; the host routines of skimage are not used. *)
Theorem single_bin_histogram_gives_its_center (image : option (list pixel))
        (pre post : list count) (c : count) (bin_centers : list scalar) (nbins : Z)
        (d : scalar) :
  length bin_centers = length (pre ++ [c] ++ post) ->
  Forall (fun c => eq_zero c = true /\ gt_zero c = false) pre ->
  Forall (fun c => eq_zero c = true /\ gt_zero c = false) post ->
  gt_zero c = true -> eq_zero c = false ->
  let hist := Some (HistPair count (pre ++ [c] ++ post) bin_centers) in
  let center := nth (length pre) bin_centers d in
  yen image nbins hist = Returns (Center pixel center)
  /\ isodata image nbins false hist = Returns (Center pixel center)
  /\ isodata image nbins true hist = Returns (Centers pixel [center]).
Proof.
  intros Hlen Hpre Hpost Hg He hist center.
  unfold threshold_yen, threshold_isodata, hist.
  rewrite (validate_single_bin image pre post c bin_centers nbins false d) by assumption.
  repeat split.
Qed.

(** X5 ([threshold_otsu], image and [hist] both given): a constant image
    gives its pixel value and the histogram is ignored; an image that is
    not constant is ignored, and the result is that of the histogram
    alone. *)
Theorem otsu_image_beside_hist (p : pixel) (rest : list pixel) (nbins : Z)
        (hist : hist_arg count) :
  otsu (Some (p :: rest)) nbins (Some hist)
  = if forallb (fun q => pixel_eqb q p) (p :: rest)
    then Returns (Pixel pixel p)
    else otsu None nbins (Some hist).
Proof.
  unfold threshold_otsu.
  destruct (forallb (fun q => pixel_eqb q p) (p :: rest)); reflexivity.
Qed.

(** X6 ([threshold_otsu], [threshold_yen], [threshold_isodata]): with
    neither image nor histogram the three functions raise the plain
    [Exception] of [_validate_image_histogram]; a histogram with no counts
    raises an [IndexError], and so does an empty image given to
    [threshold_otsu]. *)
Theorem histogram_thresholds_errors (nbins : Z) (return_all : bool)
        (image : option (list pixel)) (bin_centers : list scalar) :
  (otsu None nbins None = Throws Exception_no_input
   /\ yen None nbins None = Throws Exception_no_input
   /\ isodata None nbins return_all None = Throws Exception_no_input)
  /\ (otsu None nbins (Some (HistPair count [] bin_centers)) = Throws IndexError
      /\ yen image nbins (Some (HistPair count [] bin_centers)) = Throws IndexError
      /\ isodata image nbins return_all (Some (HistPair count [] bin_centers))
         = Throws IndexError
      /\ yen image nbins (Some (HistCounts count [])) = Throws IndexError
      /\ isodata image nbins return_all (Some (HistCounts count [])) = Throws IndexError)
  /\ otsu (Some []) nbins None = Throws IndexError.
Proof.
  unfold threshold_otsu, threshold_yen, threshold_isodata, _validate_image_histogram.
  destruct image; repeat split.
Qed.

Variable _threshold_minimum_cpu : Z -> Z -> list float -> list scalar -> float.
Variable _threshold_multiotsu_cpu : Z -> Z -> list float -> list scalar -> list float.

Local Abbreviation minimum :=
  (threshold_minimum count eq_zero gt_zero astype_float pixel histogram
     _threshold_minimum_cpu).
Local Abbreviation multiotsu :=
  (threshold_multiotsu count eq_zero gt_zero astype_float pixel histogram astype_float32
     _threshold_multiotsu_cpu).

(** X7 ([_validate_image_histogram], [threshold_minimum],
    [threshold_multiotsu]): when [hist] is given, the image, [nbins] and
    [normalize] have no part in the histogram returned.  So
    [threshold_multiotsu], which asks for a normalized histogram, passes the
    counts of a given histogram on as they are: for counts with no zero at
    either end the routine of skimage gets those counts, converted to float
    and to float32, as its probabilities. *)
Theorem given_hist_is_not_normalized (image image' : option (list pixel))
        (hist : hist_arg count) (nbins nbins' classes max_num_iter : Z)
        (normalize normalize' : bool) :
  validate image (Some hist) nbins normalize = validate image' (Some hist) nbins' normalize'
  /\ minimum image nbins max_num_iter (Some hist)
     = minimum image' nbins max_num_iter (Some hist)
  /\ multiotsu image classes nbins (Some hist) = multiotsu image' classes nbins (Some hist)
  /\ forall c counts bin_centers,
       hist = HistPair count (c :: counts) bin_centers ->
       eq_zero c = false -> eq_zero (last counts c) = false ->
       multiotsu image classes nbins (Some hist)
       = Returns (ComputedAll pixel
                    (_threshold_multiotsu_cpu classes nbins
                       (map astype_float32 (map astype_float (c :: counts)))
                       bin_centers)).
Proof.
  assert (Hv : forall im im' n n' b b',
             validate im (Some hist) n b = validate im' (Some hist) n' b').
  { intros im im' n n' b b'. unfold _validate_image_histogram.
    destruct im, im'; reflexivity. }
  split; [apply Hv|]. split.
  { unfold threshold_minimum. now rewrite (Hv image image' nbins nbins false false). }
  split.
  { unfold threshold_multiotsu. now rewrite (Hv image image' nbins nbins true true). }
  intros c counts bin_centers -> Hc Hl.
  unfold threshold_multiotsu, _validate_image_histogram, trim_zeros.
  replace (last (c :: counts) c) with (last counts c) by (destruct counts; reflexivity).
  destruct image; rewrite Hc, Hl; reflexivity.
Qed.

End Dtype.

Lemma trim_zeros_keeps_positive_span_witness :
  exists pre post bpre bpost,
    [0; 0; 3; 0; 5; 0]%Z = pre ++ [3; 0; 5]%Z ++ post
    /\ map SInt [10; 11; 12; 13; 14; 15]%Z = bpre ++ map SInt [12; 13; 14]%Z ++ bpost
    /\ length bpre = length pre.
Proof.
  destruct (trim_zeros_keeps_positive_span Z int_eq_zero int_gt_zero
              [0; 0; 3; 0; 5; 0]%Z (map SInt [10; 11; 12; 13; 14; 15]%Z)
              [3; 0; 5]%Z (map SInt [12; 13; 14]%Z))
    as (pre & post & bpre & bpost & H1 & H2 & H3 & _).
  - reflexivity.
  - reflexivity.
  - exists pre, post, bpre, bpost. repeat split; assumption.
Defined.

Lemma trim_zeros_removes_zero_ends_witness :
  trim_zeros Z int_eq_zero int_gt_zero [0; 0; 3; 0; 5; 0]%Z
    (map SInt [10; 11; 12; 13; 14; 15]%Z)
  = Returns ([3; 0; 5]%Z, map SInt [12; 13; 14]%Z).
Proof.
  apply (trim_zeros_removes_zero_ends Z int_eq_zero int_gt_zero
           [0; 0]%Z [3; 0; 5]%Z [0]%Z (map SInt [10; 11; 12; 13; 14; 15]%Z) 0%Z).
  - reflexivity.
  - repeat constructor.
  - repeat constructor.
  - discriminate.
  - reflexivity.
  - reflexivity.
  - reflexivity.
  - reflexivity.
Defined.

Lemma counts_only_bin_centers_are_indices_witness :
  exists pre cs post,
    [0; 0; 3; 0; 5; 0]%Z = pre ++ cs ++ post
    /\ [F64.of_Z 3; F64.of_Z 0; F64.of_Z 5] = map F64.of_Z cs
    /\ map SInt [2; 3; 4]%Z
       = map (fun i => SInt (Z.of_nat i)) (seq (length pre) (length cs)).
Proof.
  destruct (counts_only_bin_centers_are_indices Z int_eq_zero int_gt_zero F64.of_Z
              unit (fun _ _ _ => ([], [])) None [0; 0; 3; 0; 5; 0]%Z 256%Z false
              [F64.of_Z 3; F64.of_Z 0; F64.of_Z 5] (map SInt [2; 3; 4]%Z))
    as (pre & cs & post & H1 & H2 & H3 & _).
  - reflexivity.
  - exists pre, cs, post. repeat split; assumption.
Defined.

Lemma single_bin_histogram_gives_its_center_witness :
  threshold_yen Z int_eq_zero int_gt_zero F64.of_Z unit (fun _ _ _ => ([], []))
    (fun _ _ _ => 0%float) None 256%Z
    (Some (HistPair Z [0; 0; 7; 0]%Z (map SInt [10; 11; 12; 13]%Z)))
  = Returns (Center unit (SInt 12)).
Proof.
  apply (single_bin_histogram_gives_its_center Z int_eq_zero int_gt_zero F64.of_Z
           unit (fun _ _ _ => ([], [])) (fun _ _ _ => 0%float) (fun _ _ _ => 0%float)
           (fun _ _ _ => []) (fun x => x) None [0; 0]%Z [0]%Z 7%Z
           (map SInt [10; 11; 12; 13]%Z) 256%Z (SInt 0)).
  - reflexivity.
  - repeat constructor.
  - repeat constructor.
  - reflexivity.
  - reflexivity.
Defined.


Lemma given_hist_is_not_normalized_witness :
  threshold_multiotsu Z int_eq_zero int_gt_zero F64.of_Z unit (fun _ _ _ => ([], []))
    (fun x => x) (fun _ _ prob _ => prob) None 3%Z 256%Z
    (Some (HistPair Z [2; 0; 6]%Z (map SInt [0; 1; 2]%Z)))
  = Returns (ComputedAll unit [F64.of_Z 2; F64.of_Z 0; F64.of_Z 6]).
Proof.
  destruct (given_hist_is_not_normalized Z int_eq_zero int_gt_zero F64.of_Z unit
              (fun _ _ _ => ([], [])) (fun x => x) (fun _ _ _ _ => 0%float)
              (fun _ _ prob _ => prob) None None
              (HistPair Z [2; 0; 6]%Z (map SInt [0; 1; 2]%Z))
              256%Z 256%Z 3%Z 0%Z true true) as (_ & _ & _ & H).
  apply (H 2%Z [0; 6]%Z (map SInt [0; 1; 2]%Z)); reflexivity.
Defined.

End HistogramFacts.


(** ** The triangle threshold *)

Module TriangleFacts.
Import Histogram Triangle.
Local Open Scope Z_scope.

Lemma argmax_from_spec (l : list Z) (i best : nat) (bv : Z) :
  (best < i)%nat ->
  let r := argmax_from l i best bv in
  (r = best /\ Forall (fun x => x <= bv) l)
  \/ (exists k, r = (i + k)%nat /\ (k < length l)%nat
               /\ bv < nth k l 0 /\ Forall (fun x => x <= nth k l 0) l).
Proof.
  revert i best bv. induction l as [|x l IH]; intros i best bv Hlt; simpl.
  - left. split; [reflexivity|constructor].
  - destruct (bv <? x) eqn:Hx.
    + apply Z.ltb_lt in Hx.
      destruct (IH (S i) i x (Nat.lt_succ_diag_r i)) as [[Hr Hall]|(k & Hr & Hk & Hv & Hall)].
      * right. exists 0%nat. rewrite Hr. simpl. repeat split; try lia.
        constructor; [lia|assumption].
      * right. exists (S k). rewrite Hr. simpl. repeat split; try lia.
        constructor; [lia|assumption].
    + apply Z.ltb_ge in Hx.
      destruct (IH (S i) best bv) as [[Hr Hall]|(k & Hr & Hk & Hv & Hall)]; [lia| |].
      * left. split; [assumption|]. constructor; assumption.
      * right. exists (S k). rewrite Hr. simpl. repeat split; try lia.
        constructor; [lia|assumption].
Qed.

(** The peak is an index of [hist], and no count is above the count there. *)
Lemma argmax_int_spec (hist : list Z) (peak : nat) :
  argmax_int hist = Some peak ->
  (peak < length hist)%nat /\ Forall (fun x => x <= nth peak hist 0) hist.
Proof.
  destruct hist as [|x l]; [discriminate|]. simpl. intros H. injection H as <-.
  destruct (argmax_from_spec l 1 0 x Nat.lt_0_1) as [[Hr Hall]|(k & Hr & Hk & Hv & Hall)];
    simpl in *; rewrite Hr.
  - split; [lia|]. constructor; [lia|assumption].
  - split; [lia|]. simpl. constructor; [lia|assumption].
Qed.

Lemma filter_seq_first (p : nat -> bool) (n a first : nat) (rest : list nat) :
  filter p (seq a n) = first :: rest ->
  forall i, In i (first :: rest) -> (first <= i)%nat.
Proof.
  revert a. induction n as [|n IH]; intros a; simpl; [discriminate|].
  destruct (p a) eqn:Hp.
  - intros H i Hi. injection H as <- <-.
    destruct Hi as [<-|Hi]; [lia|].
    apply filter_In in Hi. destruct Hi as [Hi _]. apply in_seq in Hi. lia.
  - apply IH.
Qed.

Lemma filter_seq_last (p : nat -> bool) (n a d : nat) :
  filter p (seq a n) <> [] ->
  forall i, In i (filter p (seq a n)) -> (i <= last (filter p (seq a n)) d)%nat.
Proof.
  induction n as [|n IH]; [simpl; congruence|].
  rewrite seq_S, filter_app. simpl. destruct (p (a + n)%nat) eqn:Hp.
  - intros _ i Hi. rewrite last_last. apply in_app_or in Hi.
    destruct Hi as [Hi|[<-|[]]]; [|lia].
    apply filter_In in Hi. destruct Hi as [Hi _]. apply in_seq in Hi. lia.
  - rewrite app_nil_r. exact IH.
Qed.

Lemma last_In {A} (l : list A) (d : A) : l <> [] -> In (last l d) l.
Proof.
  induction l as [|x l IH]; [congruence|]. intros _.
  destruct l as [|y l]; [now left|].
  right. apply IH. discriminate.
Qed.

Lemma positive_indices_In (hist : list Z) (i : nat) :
  In i (positive_indices hist) <-> 0 < nth i hist 0.
Proof.
  unfold positive_indices. rewrite filter_In, in_seq, Z.ltb_lt. split.
  - tauto.
  - intros H. split; [|assumption]. split; [lia|]. simpl.
    destruct (Nat.lt_ge_cases i (length hist)) as [Hi|Hi]; [assumption|].
    rewrite nth_overflow in H by assumption. lia.
Qed.

(** The lowest and the highest gray level: the first and the last bin with
    a count above zero. *)
Lemma levels_spec (hist : list Z) (first : nat) (rest : list nat) :
  positive_indices hist = first :: rest ->
  let high := last (first :: rest) first in
  0 < nth first hist 0 /\ 0 < nth high hist 0
  /\ (high < length hist)%nat
  /\ forall i, 0 < nth i hist 0 -> (first <= i <= high)%nat.
Proof.
  intros H high.
  assert (Hne : positive_indices hist <> []) by (rewrite H; discriminate).
  assert (Hhigh : In high (positive_indices hist)).
  { unfold high. rewrite <- H. now apply last_In. }
  split; [apply positive_indices_In; rewrite H; now left|].
  split; [now apply positive_indices_In|].
  split.
  { unfold positive_indices in Hhigh. apply filter_In in Hhigh.
    destruct Hhigh as [Hh _]. apply in_seq in Hh. lia. }
  intros i Hi. apply positive_indices_In in Hi. split.
  - apply (filter_seq_first _ _ _ _ _ H). now rewrite <- H.
  - unfold high. rewrite <- H. now apply filter_seq_last.
Qed.

Lemma peak_between_levels (hist : list Z) (peak first : nat) (rest : list nat) :
  argmax_int hist = Some peak ->
  positive_indices hist = first :: rest ->
  (first <= peak <= last (first :: rest) first)%nat.
Proof.
  intros Hp Hl. destruct (levels_spec hist first rest Hl) as (H1 & _ & _ & Hall).
  apply argmax_int_spec in Hp. destruct Hp as [Hlt Hmax].
  apply Hall. rewrite Forall_forall in Hmax.
  assert (Hin : In (nth first hist 0) hist).
  { apply nth_In. destruct (Nat.lt_ge_cases first (length hist)) as [Hi|Hi]; [assumption|].
    rewrite nth_overflow in H1 by assumption. lia. }
  specialize (Hmax _ Hin). lia.
Qed.

Lemma getitem_some {A} (a : list A) (i : Z) (x : A) :
  0 <= i -> getitem a i = Some x -> nth_error a (Z.to_nat i) = Some x.
Proof.
  intros Hi. unfold getitem.
  destruct ((0 <=? i) && (i <? Z.of_nat (length a))) eqn:H1; [auto|].
  destruct ((- Z.of_nat (length a) <=? i) && (i <? 0)) eqn:H2; [|discriminate].
  apply andb_true_iff in H2. destruct H2 as [_ H2]. apply Z.ltb_lt in H2. lia.
Qed.

Lemma getitem_in_range {A} (a : list A) (i : Z) :
  0 <= i < Z.of_nat (length a) -> exists x, getitem a i = Some x.
Proof.
  intros Hi. unfold getitem.
  replace ((0 <=? i) && (i <? Z.of_nat (length a))) with true.
  2:{ symmetry. apply andb_true_iff. split; [apply Z.leb_le|apply Z.ltb_lt]; lia. }
  destruct (nth_error a (Z.to_nat i)) eqn:Hn; [eauto|].
  apply nth_error_None in Hn. lia.
Qed.

Lemma positive_indices_NoDup (hist : list Z) : NoDup (positive_indices hist).
Proof. unfold positive_indices. apply NoDup_filter, seq_NoDup. Qed.

Lemma first_max_from_valid (l : list float) (i best : nat) (bv : float) :
  (best < i)%nat -> (first_max_from l i best bv < i + length l)%nat.
Proof.
  revert i best bv. induction l as [|x l IH]; intros i best bv H; simpl; [lia|].
  destruct (bv <? x)%float.
  - specialize (IH (S i) i x). lia.
  - specialize (IH (S i) best bv). lia.
Qed.

Lemma first_max_valid (l : list float) (a : nat) :
  first_max l = Some a -> (a < length l)%nat.
Proof.
  destruct l as [|x l]; [discriminate|]. simpl. intros H. injection H as <-.
  pose proof (first_max_from_valid l 1 0 x). lia.
Qed.

Lemma first_max_total (l : list float) :
  l <> [] -> exists a, first_max l = Some a /\ (a < length l)%nat.
Proof.
  destruct l as [|x l]; [congruence|]. intros _. eexists. split; [reflexivity|].
  now apply first_max_valid.
Qed.

Section Histogram.
Variable pixel : Type.
Variable histogram : list pixel -> Z -> list Z * list scalar.
Variable argmax : list float -> option nat.

Local Abbreviation triangle := (threshold_triangle pixel histogram argmax).

(** X8 ([threshold_triangle]): the value returned is the center of a bin
    that lies between the lowest and the highest occupied bin, on the side
    of the longer tail of the peak and never at the peak itself: from the
    lowest bin up to the bin before the peak when the left tail is at least
    as long as the right one, from the bin after the peak up to the highest
    bin otherwise.  [argmax] is only taken to return an index of its
    array. *)
Theorem triangle_threshold_on_longer_tail (image : list pixel) (nbins : Z) (c : scalar) :
  (forall l a, argmax l = Some a -> (a < length l)%nat) ->
  triangle image nbins = Returns c ->
  let hist := fst (histogram image nbins) in
  let bin_centers := snd (histogram image nbins) in
  exists peak low high k : nat,
    nth_error bin_centers k = Some c
    /\ (peak < length hist)%nat /\ Forall (fun x => x <= nth peak hist 0) hist
    /\ 0 < nth low hist 0 /\ 0 < nth high hist 0
    /\ (forall i, 0 < nth i hist 0 -> (low <= i <= high)%nat)
    /\ (low <= peak <= high)%nat
    /\ ((high + low <= 2 * peak /\ low <= k < peak)%nat
        \/ (2 * peak < high + low /\ peak < k <= high)%nat).
Proof.
  intros Hargmax. unfold threshold_triangle.
  destruct (histogram image nbins) as [hist bin_centers]. cbn [fst snd].
  destruct (argmax_int hist) as [peak|] eqn:Hpeak; [|discriminate].
  destruct (positive_indices hist) as [|low rest] eqn:Hpos; [discriminate|].
  cbv zeta. set (high := last (low :: rest) low).
  destruct (levels_spec hist low rest Hpos) as (Hl & Hh & Hhl & Hall).
  fold high in Hh, Hhl, Hall.
  pose proof (peak_between_levels hist peak low rest Hpeak Hpos) as Hb. fold high in Hb.
  destruct (argmax_int_spec hist peak Hpeak) as [Hpl Hmax].
  destruct (Z.of_nat peak - Z.of_nat low <? Z.of_nat high - Z.of_nat peak) eqn:Hflip.
  - apply Z.ltb_lt in Hflip.
    match goal with |- context [argmax ?l] => destruct (argmax l) as [a|] eqn:Ha end;
      [|discriminate].
    apply Hargmax in Ha.
    rewrite length_map, length_combine, !length_map, length_seq, Nat.min_id in Ha.
    destruct (getitem bin_centers _) as [c'|] eqn:Hget; [|discriminate].
    intros H. injection H as ->.
    apply getitem_some in Hget; [|lia].
    eexists peak, low, high, _. split; [exact Hget|].
    repeat (split; [assumption|]). right. lia.
  - apply Z.ltb_ge in Hflip.
    match goal with |- context [argmax ?l] => destruct (argmax l) as [a|] eqn:Ha end;
      [|discriminate].
    apply Hargmax in Ha.
    rewrite length_map, length_combine, !length_map, length_seq, Nat.min_id in Ha.
    destruct (getitem bin_centers _) as [c'|] eqn:Hget; [|discriminate].
    intros H. injection H as ->.
    apply getitem_some in Hget; [|lia].
    eexists peak, low, high, _. split; [exact Hget|].
    repeat (split; [assumption|]). left. lia.
Qed.

(** X9 ([threshold_triangle]): on a histogram with a single occupied bin,
    as that of a constant image, the function raises the [ValueError] of an
    [argmax] over an empty array; with two or more occupied bins, and as
    many bin centers as counts, it returns a value.  [argmax] is taken to
    raise on an empty array and to return an index of any other one. *)
Theorem triangle_raises_on_single_bin (image : list pixel) (nbins : Z)
        (low : nat) (rest : list nat) :
  argmax [] = None ->
  (forall l, l <> [] -> exists a, argmax l = Some a /\ (a < length l)%nat) ->
  length (snd (histogram image nbins)) = length (fst (histogram image nbins)) ->
  positive_indices (fst (histogram image nbins)) = low :: rest ->
  match rest with
  | [] => triangle image nbins = Throws ValueError_argmax_empty
  | _ :: _ => exists c, triangle image nbins = Returns c
  end.
Proof.
  intros Hempty Htotal. unfold threshold_triangle.
  destruct (histogram image nbins) as [hist bin_centers]. cbn [fst snd].
  intros Hlen Hpos.
  destruct (argmax_int hist) as [peak|] eqn:Hpeak.
  2:{ destruct hist; [discriminate Hpos|discriminate Hpeak]. }
  pose proof (peak_between_levels hist peak low rest Hpeak Hpos) as Hb.
  destruct (levels_spec hist low rest Hpos) as (_ & _ & Hhl & _).
  pose proof (positive_indices_NoDup hist) as Hnd.
  rewrite Hpos. rewrite Hpos in Hnd. cbv zeta.
  set (high := last (low :: rest) low) in *.
  destruct rest as [|r rest].
  - (* one occupied bin: the peak, the lowest and the highest level agree *)
    simpl in high. subst high.
    replace (Z.of_nat peak - Z.of_nat low <? Z.of_nat low - Z.of_nat peak) with false
      by (symmetry; apply Z.ltb_ge; lia).
    replace (Z.of_nat peak - Z.of_nat low) with 0 by lia.
    simpl. now rewrite Hempty.
  - assert (Hlh : (low < high)%nat).
    { assert (Hin : In high (r :: rest)).
      { unfold high. change (last (low :: r :: rest) low) with (last (r :: rest) low).
        apply last_In. discriminate. }
      inversion Hnd as [|? ? Hnotin _]; subst.
      assert (high <> low) by (intros E; apply Hnotin; now rewrite <- E).
      lia. }
    destruct (Z.of_nat peak - Z.of_nat low <? Z.of_nat high - Z.of_nat peak) eqn:Hflip.
    + apply Z.ltb_lt in Hflip.
      match goal with |- context [argmax ?l] => destruct (Htotal l) as (a & Ha & Hal) end.
      { intros E. apply (f_equal (@length float)) in E.
        rewrite length_map, length_combine, !length_map, length_seq, Nat.min_id in E.
        simpl in E. lia. }
      rewrite Ha.
      rewrite length_map, length_combine, !length_map, length_seq, Nat.min_id in Hal.
      match goal with |- context [getitem bin_centers ?i] =>
        destruct (getitem_in_range bin_centers i) as (c & Hc) end.
      { rewrite Hlen. lia. }
      rewrite Hc. eauto.
    + apply Z.ltb_ge in Hflip.
      match goal with |- context [argmax ?l] => destruct (Htotal l) as (a & Ha & Hal) end.
      { intros E. apply (f_equal (@length float)) in E.
        rewrite length_map, length_combine, !length_map, length_seq, Nat.min_id in E.
        simpl in E. lia. }
      rewrite Ha.
      rewrite length_map, length_combine, !length_map, length_seq, Nat.min_id in Hal.
      match goal with |- context [getitem bin_centers ?i] =>
        destruct (getitem_in_range bin_centers i) as (c & Hc) end.
      { rewrite Hlen. lia. }
      rewrite Hc. eauto.
Qed.

End Histogram.

Lemma triangle_threshold_on_longer_tail_witness :
  exists peak low high k : nat,
    nth_error (map SInt [0; 1; 2; 3; 4; 5; 6]) k = Some (SInt 3)
    /\ ((high + low <= 2 * peak /\ low <= k < peak)%nat
        \/ (2 * peak < high + low /\ peak < k <= high)%nat).
Proof.
  destruct (triangle_threshold_on_longer_tail Z
              (fun image _ => (image, map SInt [0; 1; 2; 3; 4; 5; 6])) first_max
              [0; 5; 9; 3; 1; 1; 0] 256 (SInt 3) first_max_valid)
    as (peak & low & high & k & H1 & _ & _ & _ & _ & _ & _ & H2).
  - vm_compute. reflexivity.
  - exists peak, low, high, k. split; assumption.
Defined.

Lemma triangle_raises_on_single_bin_witness :
  threshold_triangle Z (fun image _ => (image, map SInt [0; 1; 2; 3; 4; 5; 6])) first_max
    [0; 0; 9; 0; 0; 0; 0] 256
  = Throws ValueError_argmax_empty.
Proof.
  apply (triangle_raises_on_single_bin Z
           (fun image _ => (image, map SInt [0; 1; 2; 3; 4; 5; 6])) first_max
           [0; 0; 9; 0; 0; 0; 0] 256 2%nat []).
  - reflexivity.
  - exact first_max_total.
  - reflexivity.
  - reflexivity.
Defined.

End TriangleFacts.


(** ** More on Li's threshold: the callback, a zero tolerance, a single
    finite value *)

Module LiEdgeFacts.
Import Li LiEdge F64Facts.
Local Open Scope float_scope.

Lemma compare_cont_Eq_eq (p q : positive) : Pos.compare_cont Eq p q = Eq -> p = q.
Proof.
  rewrite Pos.compare_cont_spec. destruct (p ?= q)%positive eqn:E; simpl; try discriminate.
  intros _. now apply Pos.compare_eq.
Qed.

Lemma SFcompare_finite_Eq s1 m1 e1 s2 m2 e2 :
  SFcompare (S754_finite s1 m1 e1) (S754_finite s2 m2 e2) = Some Eq ->
  s1 = s2 /\ e1 = e2 /\ m1 = m2.
Proof.
  simpl. destruct s1, s2; try discriminate;
    destruct (Z.compare_spec e1 e2) as [He|He|He]; try discriminate;
    intros H; injection H as H.
  - apply (f_equal CompOpp) in H. rewrite CompOpp_involutive in H. simpl in H.
    apply compare_cont_Eq_eq in H. auto.
  - apply compare_cont_Eq_eq in H. auto.
Qed.

Lemma eqb_finite_sub_zero (y m : float) :
  is_finite y = true -> is_finite m = true -> (y =? m) = true -> is_zero (y - m).
Proof.
  unfold is_zero. rewrite !is_finite_spec, eqb_spec, sub_spec. unfold SFeqb.
  destruct (Prim2SF y) as [sy|sy| |sy my ey]; try discriminate;
    destruct (Prim2SF m) as [sm|sm| |sm mm em]; try discriminate; intros _ _.
  - intros _. destruct sy, sm; simpl; eauto.
  - simpl. destruct sm; discriminate.
  - simpl. destruct sy; discriminate.
  - destruct (SFcompare (S754_finite sy my ey) (S754_finite sm mm em)) as [[| |]|] eqn:Hc;
      try discriminate.
    intros _. apply SFcompare_finite_Eq in Hc. rename Hc into H.
    destruct H as (-> & -> & ->).
    unfold SF64sub, SFsub. cbv zeta. rewrite Z.sub_diag. simpl. eauto.
Qed.

Lemma insert_unique_zero (x w : float) :
  is_zero x -> is_zero w -> insert_unique x [w] = [w].
Proof.
  intros [sx Hx] [sw Hw]. simpl.
  rewrite ltb_spec, eqb_spec, Hx, Hw. reflexivity.
Qed.

Lemma unique_zeros (l : list float) :
  l <> [] -> Forall is_zero l -> exists w, unique l = [w] /\ is_zero w.
Proof.
  induction l as [|x l IH]; [congruence|]. intros _ H.
  inversion H as [|? ? Hx Hl]; subst.
  destruct l as [|y l].
  - exists x. split; [reflexivity|assumption].
  - destruct IH as (w & Hw & Hz); [discriminate|assumption|].
    exists w. split; [|assumption].
    change (unique (x :: y :: l)) with (insert_unique x (unique (y :: l))).
    rewrite Hw. now apply insert_unique_zero.
Qed.

Section Library.
Variable fsum : list float -> float.
Variable log : float -> float.
Variable histogram : list Z -> list float * list float.

Local Abbreviation li := (threshold_li fsum log histogram).

Lemma li_iterate_callback (step : float -> result float) (tolerance image_min : float)
      (fuel : nat) :
  forall t_next t_curr earlier calls',
    let with_callback :=
      li_iterate step tolerance image_min true fuel t_next t_curr
                 (earlier ++ [t_next + image_min]) in
    let without :=
      li_iterate step tolerance image_min false fuel t_next t_curr calls' in
    fst with_callback = fst without
    /\ snd without = calls'
    /\ reported (fst with_callback) (snd with_callback).
Proof.
  induction fuel as [|fuel IH]; intros t_next t_curr earlier calls'; simpl.
  - destruct (tolerance <? abs (t_next - t_curr)); simpl; repeat split; eauto.
  - destruct (tolerance <? abs (t_next - t_curr)); simpl.
    + destruct (step t_next) as [t|e]; simpl; [|repeat split].
      apply (IH t t_next (earlier ++ [t_next + image_min]) calls').
    + repeat split. eauto.
Qed.

(** X10 ([threshold_li], [iter_callback]): a callback changes no result
    and no error.  When a threshold is returned after the image passed the
    checks for degenerate input, the callback was called at least once and
    its last argument is the threshold returned; on the early returns for
    degenerate input (all NaN, constant, no finite value) it is not called
    at all. *)
Theorem li_callback_last_is_threshold (image : pixels) (tolerance : option float)
        (initial_guess : guess) (fuel : nat) :
  let with_callback := li image tolerance initial_guess true fuel in
  let without := li image tolerance initial_guess false fuel in
  fst with_callback = fst without
  /\ snd without = []
  /\ match li_prepare image tolerance with
     | Early _ => snd with_callback = []
     | Ready _ _ _ => reported (fst with_callback) (snd with_callback)
     end.
Proof.
  unfold threshold_li. destruct (li_prepare image tolerance) as [r|shifted image_min tol].
  - simpl. auto.
  - destruct (li_initial_guess fsum shifted image_min initial_guess) as [t|e]; simpl.
    + unfold li_run.
      apply (li_iterate_callback (li_step fsum log histogram shifted) tol
               (to_float image_min) fuel t (-2 * tol) [] []).
    + auto.
Qed.

(** X11 ([threshold_li], [tolerance]): a tolerance of zero is not used as
    given: [tolerance or default] replaces it, so the call behaves as the
    one with no tolerance (0.5 for an integer image, half the smallest gap
    between the values of a float image). *)
Theorem li_zero_tolerance_is_default (image : pixels) (tolerance : float)
        (initial_guess : guess) (iter_callback : bool) (fuel : nat) :
  (tolerance =? 0) = true ->
  li image (Some tolerance) initial_guess iter_callback fuel
  = li image None initial_guess iter_callback fuel.
Proof.
  intros Hz.
  assert (Hp : li_prepare image (Some tolerance) = li_prepare image None).
  { unfold li_prepare, py_or. rewrite Hz. reflexivity. }
  unfold threshold_li. now rewrite Hp.
Qed.

(** X12 ([threshold_li], a float image that is not constant and whose finite
    values are all equal, as one finite value beside an infinity): with no
    tolerance given, the default tolerance takes the minimum of an empty
    array of differences, and the call raises the [ValueError] of that
    reduction, whatever the initial guess is. *)
Theorem li_raises_on_single_finite_value (px : list float) (v : float)
        (initial_guess : guess) (iter_callback : bool) (fuel : nat) :
  let values := filter (fun x => negb (is_nan x)) px in
  forallb (fun x => x =? hd v values) values = false ->
  filter is_finite values <> [] ->
  (forall y, In y (filter is_finite values) -> (y =? v) = true) ->
  li (FloatPixels px) None initial_guess iter_callback fuel
  = (Raised ValueError_zero_size_reduction, []).
Proof.
  intros values Hvar Hne Hall. unfold threshold_li, li_prepare. fold values.
  destruct values as [|val0 values'] eqn:Hv; [discriminate|].
  simpl hd in Hvar. rewrite Hvar.
  destruct (filter is_finite (val0 :: values')) as [|x rest] eqn:Hf; [congruence|].
  set (image_min := fold_left (fun acc y => if y <? acc then y else acc) rest x).
  assert (Hfin : forall y, In y (x :: rest) -> is_finite y = true).
  { intros y Hy. rewrite <- Hf in Hy. apply filter_In in Hy. tauto. }
  assert (Hmin : In image_min (x :: rest)) by apply LiFacts.fold_min_in.
  assert (Heq : forall y, In y (x :: rest) -> (y =? image_min) = true).
  { intros y Hy. pose proof (Hall y Hy) as H1. pose proof (Hall _ Hmin) as H2.
    pose proof (Hfin y Hy) as F1. pose proof (Hfin _ Hmin) as F2.
    revert H1 H2 F1 F2. rewrite !is_finite_spec, !eqb_spec. unfold SFeqb.
    destruct (SFcompare (Prim2SF y) (Prim2SF v)) as [[| |]|] eqn:C1; try discriminate.
    destruct (SFcompare (Prim2SF image_min) (Prim2SF v)) as [[| |]|] eqn:C2;
      try discriminate.
    intros _ _.
    destruct (Prim2SF y) as [sy|sy| |sy my ey]; try discriminate;
      destruct (Prim2SF v) as [sv|sv| |sv mv ev]; try discriminate;
      destruct (Prim2SF image_min) as [sm|sm| |sm mm em]; try discriminate;
      intros _ _; try reflexivity;
      try (simpl in C1; destruct sy; discriminate);
      try (simpl in C1; destruct sv; discriminate);
      try (simpl in C2; destruct sm; discriminate);
      try (simpl in C2; destruct sv; discriminate).
    apply SFcompare_finite_Eq in C1. apply SFcompare_finite_Eq in C2.
    rename C1 into E1. rename C2 into E2.
    destruct E1 as (-> & -> & ->). destruct E2 as (-> & -> & ->).
    rewrite SFcompare_refl by discriminate. reflexivity. }
  assert (Hz : Forall is_zero (map (fun y => y - image_min) (x :: rest))).
  { apply Forall_forall. intros d Hd. apply in_map_iff in Hd.
    destruct Hd as (y & <- & Hy). apply eqb_finite_sub_zero; auto. }
  assert (Hn : map (fun y => y - image_min) (x :: rest) <> []) by discriminate.
  destruct (unique_zeros _ Hn Hz) as (w & Hw & _).
  unfold py_or. rewrite Hw. simpl. reflexivity.
Qed.

End Library.

Lemma li_raises_on_single_finite_value_witness :
  threshold_li sum_seq no_log histogram (FloatPixels [1; infinity]) None GuessNone false 0
  = (Raised ValueError_zero_size_reduction, []).
Proof.
  apply (li_raises_on_single_finite_value sum_seq no_log histogram [1; infinity] 1
           GuessNone false 0).
  - reflexivity.
  - discriminate.
  - intros y [<-|[]]. reflexivity.
Defined.

Lemma li_zero_tolerance_is_default_witness :
  threshold_li sum_seq no_log histogram (IntPixels uint8 [1; 2; 9]%Z) (Some (-0)%float)
    (GuessScalar 2) true 0
  = threshold_li sum_seq no_log histogram (IntPixels uint8 [1; 2; 9]%Z) None
      (GuessScalar 2) true 0.
Proof.
  apply (li_zero_tolerance_is_default sum_seq no_log histogram (IntPixels uint8 [1; 2; 9]%Z)
           (-0)%float (GuessScalar 2) true 0).
  reflexivity.
Defined.

End LiEdgeFacts.


(** ** Hysteresis thresholding and the labels of the components *)

Module HysteresisLabelFacts.
Import NDArray Hysteresis HysteresisLabels F64Facts.
Local Open Scope nat_scope.

Lemma insert_unique_In (x z : nat) (l : list nat) :
  In z (insert_unique x l) <-> z = x \/ In z l.
Proof.
  induction l as [|y l IH]; simpl.
  - intuition.
  - destruct (Nat.ltb x y) eqn:Hlt; simpl.
    + intuition.
    + destruct (Nat.eqb x y) eqn:Heq; simpl.
      * apply Nat.eqb_eq in Heq. subst. intuition.
      * rewrite IH. intuition.
Qed.

Lemma unique_In (z : nat) (l : list nat) : In z (unique l) <-> In z l.
Proof.
  induction l as [|x l IH]; simpl; [tauto|].
  change (unique (x :: l)) with (insert_unique x (unique l)).
  rewrite insert_unique_In, IH. intuition.
Qed.

Lemma set_true_length (table : list bool) (i : nat) :
  length (set_true table i) = length table.
Proof.
  revert i. induction table as [|b t IH]; intros [|i]; simpl; auto.
Qed.

Lemma set_true_nth (table : list bool) (i l : nat) :
  nth l (set_true table i) false = true
  <-> nth l table false = true \/ (l = i /\ i < length table).
Proof.
  revert i l. induction table as [|b t IH]; intros i l.
  - destruct i, l; simpl; split; intros H; try discriminate;
      destruct H as [H|[_ H]]; try discriminate; lia.
  - destruct i as [|i], l as [|l]; simpl.
    + split; auto. intros _. right. split; [reflexivity|lia].
    + split; [auto|]. intros [H|[H _]]; [assumption|discriminate].
    + split; [auto|]. intros [H|[H _]]; [assumption|discriminate].
    + rewrite IH. split; intros [H|[H1 H2]]; auto; right; split; lia.
Qed.

Lemma fold_set_true_length (us : list nat) (table : list bool) :
  length (fold_left set_true us table) = length table.
Proof.
  revert table. induction us as [|u us IH]; intros table; simpl; [reflexivity|].
  now rewrite IH, set_true_length.
Qed.

Lemma fold_set_true_nth (us : list nat) (table : list bool) (l : nat) :
  nth l (fold_left set_true us table) false = true
  <-> nth l table false = true \/ (In l us /\ l < length table).
Proof.
  revert table. induction us as [|u us IH]; intros table; simpl.
  - intuition.
  - rewrite IH, set_true_nth, set_true_length. intuition; subst; auto.
Qed.

Lemma nth_repeat_false (n l : nat) : nth l (repeat false n) false = false.
Proof.
  revert l. induction n as [|n IH]; intros [|l]; simpl; auto.
Qed.

Lemma existsb_eqb_In (l : nat) (xs : list nat) :
  existsb (Nat.eqb l) xs = true <-> In l xs.
Proof.
  rewrite existsb_exists. split.
  - intros (x & Hx & He). apply Nat.eqb_eq in He. now subst.
  - intros H. exists l. split; [assumption|apply Nat.eqb_refl].
Qed.

Lemma select_In {A} (x : A) (a : list A) (mask : list bool) (d : A) :
  In x (select a mask)
  <-> exists j, j < length a /\ nth j a d = x /\ nth j mask false = true.
Proof.
  revert mask. induction a as [|y a IH]; intros mask; simpl.
  - split; [tauto|]. intros (j & Hj & _). lia.
  - destruct mask as [|b mask].
    + simpl. split; [tauto|]. intros (j & _ & _ & H). destruct j; discriminate.
    + destruct b; simpl; rewrite IH; split.
      * intros [->|(j & Hj & H1 & H2)]; [exists 0|exists (S j)]; simpl; auto with arith.
      * intros ([|j] & Hj & H1 & H2); simpl in *; [now left|right].
        exists j. auto with arith.
      * intros (j & Hj & H1 & H2). exists (S j). simpl. auto with arith.
      * intros ([|j] & Hj & H1 & H2); simpl in *; [discriminate|].
        exists j. auto with arith.
Qed.

Lemma nth_map_lt {A B} (f : A -> B) (l : list A) (i : nat) (d : A) (d' : B) :
  i < length l -> nth i (map f l) d' = f (nth i l d).
Proof.
  intros H. rewrite (nth_indep _ d' (f d)) by now rewrite length_map.
  apply map_nth.
Qed.

Lemma map_const {A B} (c : B) (l : list A) : map (fun _ => c) l = repeat c (length l).
Proof. induction l as [|x l IH]; simpl; congruence. Qed.

(** A pixel above [high] is above the clipped [low]. *)
Lemma above_high_above_low (l h p : float) :
  is_nan l = false -> is_nan h = false ->
  (h <? p)%float = true -> (py_min l h <? p)%float = true.
Proof.
  intros Hl Hh Hp. unfold py_min. destruct (h <? l)%float eqn:Hlt; [assumption|].
  destruct (ltb_not_nan _ _ Hp) as [_ Hpn].
  destruct (l <? p)%float eqn:Hlp; [reflexivity|exfalso].
  assert (H1 : (p <=? l)%float = true).
  { rewrite <- (leb_negb_ltb p l) by assumption. now rewrite Hlp. }
  assert (H2 : (l <=? h)%float = true).
  { rewrite <- (leb_negb_ltb l h) by assumption. now rewrite Hlt. }
  pose proof (leb_trans _ _ _ H1 H2) as H3.
  rewrite <- (leb_negb_ltb p h) in H3 by assumption. rewrite Hp in H3. discriminate.
Qed.

Lemma nan_ltb (x p : float) : is_nan x = true -> (x <? p)%float = false.
Proof.
  intros Hx. destruct (x <? p)%float eqn:E; [|reflexivity].
  apply ltb_not_nan in E. destruct E. congruence.
Qed.

Lemma clip_nan (x h : float) : is_nan x = true -> is_nan (F64.clip x None (Some h)) = true.
Proof.
  intros Hx. unfold F64.clip. rewrite (nan_ltb x _ Hx).
  destruct (h <? x)%float eqn:E; [|assumption].
  apply ltb_not_nan in E. destruct E. congruence.
Qed.

Section Label.
Variable label : list nat -> list bool -> list nat * nat.

(** The result in terms of the labels. *)
Lemma hysteresis_connected (image : ndarray) (low high : threshold_arg)
      (labels : list nat) (num_labels : nat) :
  label (shape image) (greater (data image) (clip_max low high)) = (labels, num_labels) ->
  Forall (fun l => l <= num_labels) labels ->
  apply_hysteresis_threshold label image low high
  = connected_to labels (greater (data image) high).
Proof.
  intros Hlabel Hle. unfold apply_hysteresis_threshold, connected_to. rewrite Hlabel.
  apply map_ext_in. intros l Hl. cbv beta.
  rewrite Forall_forall in Hle. specialize (Hle l Hl).
  match goal with |- ?a = ?b => destruct a eqn:Ea; destruct b eqn:Eb; try reflexivity end.
  - apply fold_set_true_nth in Ea. rewrite nth_repeat_false in Ea.
    destruct Ea as [Ea|[Ea _]]; [discriminate|].
    apply (proj1 (unique_In _ _)) in Ea. apply (proj2 (existsb_eqb_In _ _)) in Ea.
    congruence.
  - apply existsb_eqb_In in Eb.
    assert (H : nth l (fold_left set_true
                         (unique (select labels (greater (data image) high)))
                         (repeat false (num_labels + 1))) false = true).
    { apply fold_set_true_nth. right. split; [now apply (proj2 (unique_In _ _))|].
      rewrite repeat_length. lia. }
    congruence.
Qed.

(** X13 ([apply_hysteresis_threshold]): when the labels that [ndi.label]
    returns for the pixels above the clipped [low] do not exceed the number
    of labels, a pixel is in the result if and only if its label is the
    label of some pixel above [high]. *)
Theorem hysteresis_keeps_components_of_high_pixels (image : ndarray)
        (low high : threshold_arg) (labels : list nat) (num_labels : nat) :
  label (shape image) (greater (data image) (clip_max low high)) = (labels, num_labels) ->
  Forall (fun l => l <= num_labels) labels ->
  apply_hysteresis_threshold label image low high
  = connected_to labels (greater (data image) high)
  /\ forall i, i < length labels ->
       (nth i (apply_hysteresis_threshold label image low high) false = true
        <-> exists j, j < length labels
                      /\ nth j labels 0 = nth i labels 0
                      /\ nth j (greater (data image) high) false = true).
Proof.
  intros Hlabel Hle.
  pose proof (hysteresis_connected image low high labels num_labels Hlabel Hle) as H.
  split; [exact H|]. intros i Hi. rewrite H. unfold connected_to.
  rewrite (nth_indep _ false (existsb (Nat.eqb 0) (select labels (greater (data image) high))))
    by now rewrite length_map.
  rewrite (map_nth (fun l => existsb (Nat.eqb l) (select labels (greater (data image) high)))).
  rewrite existsb_eqb_In. apply (select_In _ _ _ 0).
Qed.

(** X14 ([apply_hysteresis_threshold], scalar thresholds that are not NaN,
    labels with 0 exactly on the pixels not above the clipped [low]): every
    pixel of the result is above [min(low, high)], and every pixel above
    [high] is in the result. *)
Theorem hysteresis_between_thresholds (image : ndarray) (l h : float)
        (labels : list nat) (num_labels : nat) (i : nat) :
  is_nan l = false -> is_nan h = false ->
  label (shape image) (greater (data image) (clip_max (TScalar l) (TScalar h)))
  = (labels, num_labels) ->
  labelling (greater (data image) (clip_max (TScalar l) (TScalar h))) labels num_labels ->
  i < length (data image) ->
  let pixel := nth i (data image) 0%float in
  let kept := nth i (apply_hysteresis_threshold label image (TScalar l) (TScalar h)) false in
  (kept = true -> (py_min l h <? pixel)%float = true)
  /\ ((h <? pixel)%float = true -> kept = true).
Proof.
  intros Hl Hh Hlabel (Hlen & Hle & Hzero) Hi pixel kept.
  pose proof (hysteresis_connected image _ _ labels num_labels Hlabel Hle) as H.
  simpl in Hlen, Hzero. rewrite length_map in Hlen.
  assert (Hkept : kept = true
                  <-> exists j, j < length labels
                                /\ nth j labels 0 = nth i labels 0
                                /\ (h <? nth j (data image) 0%float)%float = true).
  { unfold kept. rewrite H. unfold connected_to.
    rewrite (nth_map_lt _ _ _ 0) by lia. rewrite existsb_eqb_In.
    rewrite (select_In _ _ _ 0). simpl.
    split; intros (j & Hj & H1 & H2); exists j; (split; [assumption|]);
      (split; [assumption|]);
      [rewrite (nth_map_lt _ _ _ 0%float) in H2 by lia
      |rewrite (nth_map_lt _ _ _ 0%float) by lia]; assumption. }
  assert (Hlow : forall j, j < length (data image) ->
                   (nth j labels 0 = 0
                    <-> (py_min l h <? nth j (data image) 0%float)%float = false)).
  { intros j Hj. rewrite Hzero, (nth_map_lt _ _ _ 0%float) by assumption.
    now rewrite HysteresisFacts.clip_max_py_min. }
  split.
  - intros Hk. apply Hkept in Hk. destruct Hk as (j & Hj & Hsame & Hhigh).
    destruct (py_min l h <? pixel)%float eqn:E; [reflexivity|exfalso].
    apply Hlow in E; [|assumption]. rewrite E in Hsame.
    apply Hlow in Hsame; [|lia].
    rewrite (above_high_above_low l h _ Hl Hh Hhigh) in Hsame. discriminate.
  - intros Hp. apply Hkept. exists i. repeat split; [lia|assumption].
Qed.

(** X15 ([apply_hysteresis_threshold], [low] a NaN): no pixel is above the
    clipped [low], so every pixel has the label 0; if some pixel is above
    [high], the entry of the label 0 is set and the result is true on the
    whole image. *)
Theorem hysteresis_nan_low_floods (image : ndarray) (l h : float)
        (labels : list nat) (num_labels : nat) (j : nat) :
  is_nan l = true ->
  j < length (data image) -> (h <? nth j (data image) 0%float)%float = true ->
  label (shape image) (greater (data image) (clip_max (TScalar l) (TScalar h)))
  = (labels, num_labels) ->
  labelling (greater (data image) (clip_max (TScalar l) (TScalar h))) labels num_labels ->
  apply_hysteresis_threshold label image (TScalar l) (TScalar h)
  = repeat true (length (data image)).
Proof.
  intros Hl Hj Hp Hlabel (Hlen & Hle & Hzero).
  rewrite (hysteresis_connected image _ _ labels num_labels Hlabel Hle).
  simpl in Hlen, Hzero. rewrite length_map in Hlen.
  assert (Hall : forall i, nth i labels 0 = 0).
  { intros i. apply Hzero.
    destruct (Nat.lt_ge_cases i (length (data image))) as [Hi|Hi].
    - rewrite (nth_map_lt _ _ _ 0%float) by assumption.
      apply nan_ltb, clip_nan, Hl.
    - apply nth_overflow. now rewrite length_map. }
  assert (Hin : In 0 (select labels (greater (data image) (TScalar h)))).
  { apply (select_In _ _ _ 0). exists j. split; [lia|]. split; [apply Hall|].
    simpl. now rewrite (nth_map_lt _ _ _ 0%float) by assumption. }
  unfold connected_to. rewrite <- Hlen, <- map_const.
  apply map_ext_in. intros x Hx.
  apply In_nth with (d := 0) in Hx. destruct Hx as (i & _ & <-).
  rewrite Hall. now apply existsb_eqb_In.
Qed.

End Label.

Lemma hysteresis_keeps_components_of_high_pixels_witness :
  apply_hysteresis_threshold label_1d (mk [5] [1; 2; 3; 0; 2]%float)
    (TScalar 1.5%float) (TScalar 2.5%float)
  = [false; true; true; false; false].
Proof.
  destruct (hysteresis_keeps_components_of_high_pixels label_1d
              (mk [5] [1; 2; 3; 0; 2]%float) (TScalar 1.5%float) (TScalar 2.5%float)
              [0; 1; 1; 0; 2] 2) as [H _].
  - reflexivity.
  - repeat constructor.
  - rewrite H. reflexivity.
Defined.

Lemma hysteresis_between_thresholds_witness :
  (nth 1 (apply_hysteresis_threshold label_1d (mk [3] [1; 2; 3]%float)
            (TScalar 1.5%float) (TScalar 2.5%float)) false = true
   -> (py_min 1.5 2.5 <? 2)%float = true)
  /\ ((2.5 <? 2)%float = true
      -> nth 1 (apply_hysteresis_threshold label_1d (mk [3] [1; 2; 3]%float)
                  (TScalar 1.5%float) (TScalar 2.5%float)) false = true).
Proof.
  apply (hysteresis_between_thresholds label_1d (mk [3] [1; 2; 3]%float) 1.5%float 2.5%float
           [0; 1; 1] 1 1).
  - reflexivity.
  - reflexivity.
  - reflexivity.
  - split; [reflexivity|]. split; [repeat constructor|].
    intros [|[|[|i]]]; simpl; split; intros H; try reflexivity; try discriminate;
      destruct i; reflexivity.
  - simpl. lia.
Defined.

Lemma hysteresis_nan_low_floods_witness :
  apply_hysteresis_threshold label_1d (mk [3] [1; 2; 3]%float) (TScalar nan)
    (TScalar 2.5%float)
  = [true; true; true].
Proof.
  apply (hysteresis_nan_low_floods label_1d (mk [3] [1; 2; 3]%float) nan 2.5%float
           [0; 0; 0] 0 2).
  - reflexivity.
  - simpl. lia.
  - reflexivity.
  - reflexivity.
  - split; [reflexivity|]. split; [repeat constructor|].
    intros [|[|[|i]]]; simpl; split; intros H; try reflexivity; try discriminate;
      destruct i; reflexivity.
Defined.

End HysteresisLabelFacts.


(** ** Normalized moments and the eigenvalues of the inertia tensor *)

Module MomentsFacts.
Import NDArray Moments F64Facts.
Local Open Scope nat_scope.

Lemma ravel_lt (shape idx : list nat) :
  in_range idx shape -> ravel shape idx < fold_right Nat.mul 1 shape.
Proof.
  intros H. induction H as [|i n idx shape Hi _ IH]; simpl; [lia|].
  set (P := fold_right Nat.mul 1 shape) in *. clearbody P. nia.
Qed.

Lemma ravel_inj (shape idx idx' : list nat) :
  in_range idx shape -> in_range idx' shape ->
  ravel shape idx = ravel shape idx' -> idx = idx'.
Proof.
  intros H. revert idx'. induction H as [|i n idx shape Hi Hr IH]; intros idx' H'.
  - inversion H'. reflexivity.
  - inversion H' as [|i' ? idx'' ? Hi' Hr']; subst. simpl.
    pose proof (ravel_lt _ _ Hr) as B. pose proof (ravel_lt _ _ Hr') as B'.
    set (P := fold_right Nat.mul 1 shape) in *.
    set (r := ravel shape idx) in *. set (r' := ravel shape idx'') in *.
    intros E.
    assert (Hii : i = i') by (clearbody P r r'; nia).
    subst i'.
    assert (Hrr : r = r') by (clearbody P r r'; nia).
    f_equal. apply IH; assumption.
Qed.

Lemma indices_in_range (shape idx : list nat) :
  In idx (indices shape) <-> in_range idx shape.
Proof.
  revert idx. induction shape as [|n shape IH]; intros idx; simpl.
  - split.
    + intros [<-|[]]. constructor.
    + intros H. inversion H. now left.
  - rewrite in_flat_map. split.
    + intros (i & Hi & Hin). apply in_seq in Hi. apply in_map_iff in Hin.
      destruct Hin as (rest & <- & Hrest). constructor; [lia|]. now apply IH.
    + intros H. inversion H as [|i ? rest ? Hi Hr]; subst.
      exists i. split; [apply in_seq; lia|]. apply in_map, IH, Hr.
Qed.

Lemma set_nth_length (l : list float) (i : nat) (v : float) :
  length (set_nth l i v) = length l.
Proof. revert i. induction l as [|x l IH]; intros [|i]; simpl; auto. Qed.

Lemma set_nth_same (l : list float) (i : nat) (v d : float) :
  i < length l -> nth i (set_nth l i v) d = v.
Proof.
  revert i. induction l as [|x l IH]; intros [|i] H; simpl in *; try lia; auto.
  apply IH. lia.
Qed.

Lemma set_nth_other (l : list float) (i j : nat) (v d : float) :
  i <> j -> nth j (set_nth l i v) d = nth j l d.
Proof.
  revert i j. induction l as [|x l IH]; intros [|i] [|j] H; simpl; auto; try congruence.
Qed.

(** Writing [f q] at every index [q] of a list: an index of the list holds
    [f] of itself, any other index what it held before. *)
Lemma fold_set_get (f : list nat -> float) (qs : list (list nat)) (a : ndarray)
      (p : list nat) :
  well_formed a -> in_range p (shape a) ->
  (forall q, In q qs -> in_range q (shape a)) ->
  let b := fold_left (fun nu q => set nu q (f q)) qs a in
  shape b = shape a /\ well_formed b
  /\ ((In p qs /\ get b p = f p) \/ (~ In p qs /\ get b p = get a p)).
Proof.
  revert a. induction qs as [|q qs IH]; intros a Hwf Hp Hqs; simpl.
  - repeat split; auto.
  - assert (Hq : in_range q (shape a)) by (apply Hqs; now left).
    assert (Hwf' : well_formed (set a q (f q))).
    { unfold well_formed, set. simpl. now rewrite set_nth_length. }
    destruct (IH (set a q (f q)) Hwf' Hp) as (Hs & Hw & Hg).
    { intros q' Hq'. apply Hqs. now right. }
    split; [exact Hs|]. split; [exact Hw|].
    destruct Hg as [[Hin Hg]|[Hnin Hg]].
    + left. split; [now right|exact Hg].
    + destruct (list_eq_dec Nat.eq_dec q p) as [->|Hne].
      * left. split; [now left|]. rewrite Hg. unfold get, set. simpl.
        apply set_nth_same. rewrite Hwf. now apply ravel_lt.
      * right. split.
        { intros [H|H]; [congruence|contradiction]. }
        rewrite Hg. unfold get, set. simpl. apply set_nth_other.
        intros E. apply Hne. eapply ravel_inj; eassumption.
Qed.

Lemma in_range_repeat (q : list nat) (k n : nat) :
  in_range q (repeat k n) <-> length q = n /\ Forall (fun i => i < k) q.
Proof.
  revert q. induction n as [|n IH]; intros q; simpl.
  - split.
    + intros H. inversion H. split; [reflexivity|constructor].
    + intros [H _]. destruct q; [constructor|discriminate].
  - split.
    + intros H. inversion H as [|i ? rest ? Hi Hr]; subst.
      apply IH in Hr. destruct Hr as [Hl Hf]. simpl. split; [congruence|].
      constructor; assumption.
    + intros [Hl Hf]. destruct q as [|i rest]; [discriminate|].
      inversion Hf; subst. constructor; [assumption|].
      apply IH. split; [simpl in Hl; congruence|assumption].
Qed.

Lemma in_range_length (idx shape : list nat) :
  in_range idx shape -> length idx = length shape.
Proof. intros H. induction H; simpl; congruence. Qed.

Lemma in_range_weaken (q shape : list nat) (k : nat) :
  Forall (fun s => k <= s) shape ->
  in_range q (repeat k (length shape)) -> in_range q shape.
Proof.
  intros Hs. revert q. induction Hs as [|s shape Hk _ IH]; intros q H; simpl in H.
  - inversion H. constructor.
  - inversion H as [|i ? rest ? Hi Hr]; subst. constructor; [lia|]. now apply IH.
Qed.

Lemma nth_map_const {A B} (c d : B) (l : list A) (i : nat) :
  i < length l -> nth i (map (fun _ => c) l) d = c.
Proof.
  revert i. induction l as [|x l IH]; intros [|i] H; simpl in *; try lia; auto.
  apply IH. lia.
Qed.

Lemma get_zeros_like (a : ndarray) (p : list nat) :
  well_formed a -> in_range p (shape a) -> get (zeros_like a) p = 0%float.
Proof.
  intros Hwf Hp. unfold get, zeros_like. simpl.
  apply nth_map_const. rewrite Hwf. now apply ravel_lt.
Qed.

Lemma fold_set_shape (f : list nat -> float) (qs : list (list nat)) (a : ndarray) :
  shape (fold_left (fun nu q => set nu q (f q)) qs a) = shape a.
Proof.
  revert a. induction qs as [|q qs IH]; intros a; simpl; [reflexivity|].
  now rewrite IH.
Qed.

Lemma prod_zero (shape : list nat) : fold_right Nat.mul 1 shape = 0 -> In 0 shape.
Proof.
  induction shape as [|s shape IH]; simpl; [discriminate|].
  intros H. apply Nat.eq_mul_0 in H. destruct H as [H|H]; auto.
Qed.

Section Power.
Variable pow : float -> float -> float.

(** X16 ([moments_normalized] on a float64 array [mu] whose data fill its
    shape): the call raises the [ValueError] exactly when some dimension of
    [mu] is [order] or less (a dimension equal to [order] raises, though
    the message asks for [>=]); an empty [mu] that passes this check, which
    takes a negative [order], raises an [IndexError].  Otherwise the result
    has the shape of [mu]; at an index whose entries are all at most
    [order] it holds NaN when the entries sum to less than 2 and
    [mu[p] / mu0 ** (sum(p) / ndim + 1)] else; everywhere else it holds
    0. *)
Theorem moments_normalized_entries (mu : ndarray) (order : Z) :
  well_formed mu ->
  match moments_normalized pow mu order with
  | Throws ValueError_order => exists s, In s (shape mu) /\ (Z.of_nat s <= order)%Z
  | Throws IndexError =>
      Forall (fun s => (order < Z.of_nat s)%Z) (shape mu) /\ In 0 (shape mu)
  | Throws ValueError_diag => False
  | Returns nu =>
      Forall (fun s => (order < Z.of_nat s)%Z) (shape mu)
      /\ shape nu = shape mu
      /\ forall p, in_range p (shape mu) ->
           get nu p = if forallb (fun i => (Z.of_nat i <=? order)%Z) p
                      then normalized pow mu (nth 0 (data mu) nan) p else 0%float
  end.
Proof.
  intros Hwf. unfold moments_normalized.
  destruct (existsb (fun s => (Z.of_nat s <=? order)%Z) (shape mu)) eqn:Hex.
  - apply existsb_exists in Hex. destruct Hex as (s & Hs & Hle).
    exists s. split; [assumption|]. now apply Z.leb_le.
  - assert (Hall : Forall (fun s => (order < Z.of_nat s)%Z) (shape mu)).
    { apply Forall_forall. intros s Hs.
      destruct (Z.leb_spec (Z.of_nat s) order) as [Hle|Hlt]; [|assumption].
      exfalso. assert (E : existsb (fun s => (Z.of_nat s <=? order)%Z) (shape mu) = true).
      { apply existsb_exists. exists s. split; [assumption|now apply Z.leb_le]. }
      congruence. }
    destruct (data mu) as [|mu0 rest] eqn:Hdata.
    { split; [exact Hall|]. apply prod_zero. unfold well_formed in Hwf.
      rewrite Hdata in Hwf. simpl in Hwf. congruence. }
    change (nth 0 (mu0 :: rest) nan) with mu0.
    split; [exact Hall|].
    assert (Hk : Forall (fun s => Z.to_nat (order + 1) <= s) (shape mu)).
    { eapply Forall_impl; [|exact Hall]. simpl. intros s Hs. lia. }
    assert (Hwf0 : well_formed (zeros_like mu)).
    { unfold well_formed, zeros_like. simpl. now rewrite length_map. }
    assert (Hqs : forall q, In q (powers_upto order (ndim mu)) ->
                            in_range q (shape (zeros_like mu))).
    { intros q Hq. apply indices_in_range in Hq. simpl.
      eapply in_range_weaken; eassumption. }
    split; [rewrite fold_set_shape; reflexivity|].
    intros p Hp.
    destruct (fold_set_get (normalized pow mu mu0) (powers_upto order (ndim mu))
                (zeros_like mu) p Hwf0 Hp Hqs) as (_ & _ & Hg).
    assert (Hiff : In p (powers_upto order (ndim mu))
                   <-> forallb (fun i => (Z.of_nat i <=? order)%Z) p = true).
    { unfold powers_upto. rewrite indices_in_range, in_range_repeat, forallb_forall.
      rewrite Forall_forall. pose proof (in_range_length _ _ Hp) as Hl.
      unfold ndim. split.
      - intros [_ H] i Hi. apply Z.leb_le. specialize (H i Hi). lia.
      - intros H. split; [assumption|]. intros i Hi. specialize (H i Hi).
        apply Z.leb_le in H. lia. }
    destruct Hg as [[Hin Hg]|[Hnin Hg]].
    + apply Hiff in Hin. now rewrite Hin.
    + destruct (forallb (fun i => (Z.of_nat i <=? order)%Z) p) eqn:E.
      * exfalso. apply Hnin, Hiff. reflexivity.
      * rewrite Hg. now apply get_zeros_like.
Qed.

End Power.

(** *** The inertia tensor *)

Lemma indices_length (shape : list nat) :
  length (indices shape) = fold_right Nat.mul 1 shape.
Proof.
  induction shape as [|n shape IH]; simpl; [reflexivity|].
  rewrite <- IH. generalize (indices shape) as l. intros l.
  generalize 0 as a. induction n as [|n IHn]; intros a; simpl; [reflexivity|].
  now rewrite length_app, length_map, IHn.
Qed.

Lemma nth_flat_map_blocks {A} (g : nat -> list A) (P n a i r : nat) (d : A) :
  (forall k, length (g k) = P) -> i < n -> r < P ->
  nth (i * P + r) (flat_map g (seq a n)) d = nth r (g (a + i)) d.
Proof.
  intros Hg. revert a i. induction n as [|n IH]; intros a i Hi Hr; [lia|].
  simpl. destruct i as [|i].
  - simpl. rewrite app_nth1 by (rewrite Hg; lia). now rewrite Nat.add_0_r.
  - rewrite app_nth2 by (rewrite Hg; simpl; lia).
    rewrite Hg. replace (S i * P + r - P) with (i * P + r) by (simpl; lia).
    rewrite IH by lia. f_equal. f_equal. lia.
Qed.

Lemma indices_nth (shape idx d : list nat) :
  in_range idx shape -> nth (ravel shape idx) (indices shape) d = idx.
Proof.
  intros H. induction H as [|i n idx shape Hi Hr IH]; simpl; [reflexivity|].
  rewrite (nth_flat_map_blocks _ (fold_right Nat.mul 1 shape)).
  - simpl. rewrite (nth_indep _ d (i :: d)).
    + rewrite map_nth. now rewrite IH.
    + rewrite length_map, indices_length. now apply ravel_lt.
  - intros k. now rewrite length_map, indices_length.
  - assumption.
  - now apply ravel_lt.
Qed.

Lemma get_build (shape idx : list nat) (f : list nat -> float) :
  in_range idx shape -> get (build shape f) idx = f idx.
Proof.
  intros H. unfold get, build. simpl.
  rewrite (nth_indep _ nan (f [])).
  - rewrite map_nth. now rewrite indices_nth.
  - rewrite length_map, indices_length. now apply ravel_lt.
Qed.

Lemma build_well_formed (shape : list nat) (f : list nat -> float) :
  well_formed (build shape f).
Proof. unfold well_formed, build. simpl. now rewrite length_map, indices_length. Qed.

Lemma nth_map_seq {A} (g : nat -> A) (n k : nat) (d : A) :
  k < n -> nth k (map g (seq 0 n)) d = g k.
Proof.
  intros H. rewrite (nth_indep _ d (g 0)) by now rewrite length_map, length_seq.
  rewrite map_nth, seq_nth by assumption. reflexivity.
Qed.

(** The index that [mu[corners2]] reads at place [k] is twice the [k]-th
    unit vector. *)
Lemma corner2_unit (n k : nat) :
  k < n -> corner2 n k = twice_unit n k.
Proof.
  intros H. unfold corner2, eye2, twice_unit. rewrite map_map. apply map_ext.
  intros a. now rewrite nth_map_seq.
Qed.

Lemma combinations2_In (n a b : nat) :
  In (a, b) (combinations2 n) <-> a < b < n.
Proof.
  unfold combinations2. rewrite in_flat_map. split.
  - intros (i & Hi & Hin). apply in_seq in Hi. apply in_map_iff in Hin.
    destruct Hin as (j & E & Hj). injection E as <- <-. apply in_seq in Hj. lia.
  - intros H. exists a. split; [apply in_seq; lia|].
    apply in_map, in_seq. lia.
Qed.

Lemma fold_pairs (v : nat * nat -> float) (f : list nat -> float)
      (ds : list (nat * nat)) (a : ndarray) :
  (forall d, In d ds -> f [fst d; snd d] = v d /\ f [snd d; fst d] = v d) ->
  fold_left (fun r d => set (set r [fst d; snd d] (v d)) [snd d; fst d] (v d)) ds a
  = fold_left (fun r q => set r q (f q))
              (flat_map (fun d => [[fst d; snd d]; [snd d; fst d]]) ds) a.
Proof.
  revert a. induction ds as [|d ds IH]; intros a H; simpl; [reflexivity|].
  destruct (H d (or_introl eq_refl)) as [-> ->].
  apply IH. intros d' Hd'. apply H. now right.
Qed.

Section Sum.
Variable fsum : list float -> float.

(** X17 ([inertia_tensor] for a float64 array [mu] of the dimension of the
    image): an [IndexError] is raised exactly when some dimension of [mu]
    is below 3, and the [ValueError] of [np.diag] when [mu] has dimension
    0.  Otherwise the result is the square array of that dimension whose
    entry [(i, i)] is the sum of the second-order moments of all axes less
    the one of axis [i], over [mu0], and whose entries [(i, j)] and
    [(j, i)] are both [-mu[e_i + e_j] / mu0]: the tensor is symmetric. *)
Theorem inertia_tensor_entries (mu : ndarray) :
  match inertia_tensor fsum mu with
  | Throws IndexError => exists s, In s (shape mu) /\ s < 3
  | Throws ValueError_diag => shape mu = []
  | Throws ValueError_order => False
  | Returns T =>
      let n := ndim mu in
      let mu0 := get mu (repeat 0 n) in
      let second k := get mu (twice_unit n k) in
      let total := fsum (map second (seq 0 n)) in
      Forall (fun s => 3 <= s) (shape mu) /\ 0 < n
      /\ shape T = [n; n]
      /\ forall i j, i < n -> j < n ->
           get T [i; j]
           = (if i =? j then ((total - second i) / mu0)%float
              else (- get mu (mu_index n (i, j)) / mu0)%float)
           /\ get T [i; j] = get T [j; i]
  end.
Proof.
  unfold inertia_tensor.
  destruct (existsb (fun s => s <? 3) (shape mu)) eqn:Hex.
  { apply existsb_exists in Hex. destruct Hex as (s & Hs & Hlt).
    exists s. split; [assumption|]. now apply Nat.ltb_lt. }
  destruct (ndim mu =? 0) eqn:Hn0.
  { apply Nat.eqb_eq in Hn0. unfold ndim in Hn0. now apply length_zero_iff_nil. }
  apply Nat.eqb_neq in Hn0. cbv zeta.
  set (n := ndim mu) in *.
  set (mu0 := get mu (repeat 0 n)).
  set (second := fun k => get mu (twice_unit n k)).
  assert (Hc : map (fun k => get mu (corner2 n k)) (seq 0 n) = map second (seq 0 n)).
  { apply map_ext_in. intros k Hk. apply in_seq in Hk. unfold second.
    now rewrite corner2_unit by lia. }
  rewrite Hc. set (total := fsum (map second (seq 0 n))).
  set (v := fun dims : nat * nat => (- get mu (mu_index n dims) / mu0)%float).
  set (f := fun q : list nat =>
              match q with
              | [a; b] => v (a, b)
              | _ => 0%float
              end).
  set (D := diag (map (fun c => ((total - c) / mu0)%float) (map second (seq 0 n)))).
  assert (HD : shape D = [n; n]).
  { unfold D, diag. simpl. now rewrite !length_map, length_seq. }
  assert (Hsym : forall a b, v (a, b) = v (b, a)).
  { intros a b. unfold v, mu_index. simpl. do 2 f_equal. f_equal.
    apply map_ext. intros k. now rewrite orb_comm. }
  change (fun result dims =>
            set (set result [fst dims; snd dims] (- get mu (mu_index n dims) / mu0)%float)
                [snd dims; fst dims] (- get mu (mu_index n dims) / mu0)%float)
    with (fun result dims => set (set result [fst dims; snd dims] (v dims))
                                 [snd dims; fst dims] (v dims)).
  rewrite (fold_pairs v f).
  2:{ intros [a b] _. simpl. split; [reflexivity|apply Hsym]. }
  set (qs := flat_map (fun d => [[fst d; snd d]; [snd d; fst d]]) (combinations2 n)).
  assert (Hqs : forall q, In q qs -> in_range q (shape D)).
  { intros q Hq. unfold qs in Hq. apply in_flat_map in Hq.
    destruct Hq as ([a b] & Hd & Hq). apply combinations2_In in Hd.
    rewrite HD. simpl in Hq.
    destruct Hq as [<-|[<-|[]]]; repeat constructor; lia. }
  assert (Hin : forall i j, In [i; j] qs <-> (i <> j /\ i < n /\ j < n)).
  { intros i j. unfold qs. rewrite in_flat_map. split.
    - intros ([a b] & Hd & Hq). apply combinations2_In in Hd. simpl in Hq.
      destruct Hq as [E|[E|[]]]; injection E as <- <-; lia.
    - intros (Hne & Hi & Hj). destruct (Nat.lt_ge_cases i j).
      + exists (i, j). split; [apply combinations2_In; lia|now left].
      + exists (j, i). split; [apply combinations2_In; lia|right; now left]. }
  assert (Hget : forall i j, i < n -> j < n ->
             get (fold_left (fun r q => set r q (f q)) qs D) [i; j]
             = if i =? j then ((total - second i) / mu0)%float else v (i, j)).
  { intros i j Hi Hj.
    assert (Hp : in_range [i; j] (shape D)) by (rewrite HD; repeat constructor; lia).
    destruct (fold_set_get f qs D [i; j] (build_well_formed _ _) Hp Hqs)
      as (_ & _ & [[Hq Hg]|[Hq Hg]]).
    - apply Hin in Hq. destruct Hq as (Hne & _).
      apply Nat.eqb_neq in Hne. rewrite Hne. exact Hg.
    - destruct (Nat.eqb_spec i j) as [->|Hne].
      + rewrite Hg. unfold D, diag. rewrite get_build.
        2:{ rewrite !length_map, length_seq. repeat constructor; lia. }
        rewrite Nat.eqb_refl, map_map. now rewrite nth_map_seq.
      + exfalso. apply Hq, Hin. auto. }
  split.
  { apply Forall_forall. intros s Hs.
    destruct (Nat.ltb_spec s 3) as [Hlt|Hge]; [|assumption].
    exfalso. assert (E : existsb (fun s => s <? 3) (shape mu) = true).
    { apply existsb_exists. exists s. split; [assumption|now apply Nat.ltb_lt]. }
    congruence. }
  split; [lia|].
  split; [now rewrite fold_set_shape|].
  intros i j Hi Hj. rewrite !Hget by assumption. split.
  - destruct (i =? j); reflexivity.
  - rewrite (Nat.eqb_sym j i). destruct (Nat.eqb_spec i j) as [->|Hne]; [reflexivity|].
    apply Hsym.
Qed.

End Sum.

(** *** The eigenvalues of the inertia tensor *)

Lemma clip_zero_spec (x : float) :
  is_nan x = false ->
  let c := F64.clip x (Some 0%float) None in
  is_nan c = false /\ (0 <=? c)%float = true
  /\ c = (if (x <? 0)%float then 0%float else x).
Proof.
  intros Hx. unfold F64.clip. rewrite infinity_ltb.
  destruct (x <? 0)%float eqn:E; repeat split; auto.
  rewrite <- (leb_negb_ltb 0 x) by auto. now rewrite E.
Qed.

Lemma insert_descending_perm (x : float) (l : list float) :
  Permutation (insert_descending x l) (x :: l).
Proof.
  induction l as [|y l IH]; simpl; [reflexivity|].
  destruct (y <? x)%float; [reflexivity|].
  rewrite IH. apply perm_swap.
Qed.

Lemma insert_descending_sorted (x : float) (l : list float) :
  is_nan x = false -> Forall (fun y => is_nan y = false) l ->
  descending l = true -> descending (insert_descending x l) = true.
Proof.
  intros Hx Hl. induction Hl as [|y l Hy Hl IH]; intros Hd; [reflexivity|].
  simpl insert_descending. destruct (y <? x)%float eqn:E.
  - change (((y <=? x)%float && descending (y :: l)) = true).
    rewrite (ltb_leb _ _ E). exact Hd.
  - assert (Hxy : (x <=? y)%float = true).
    { rewrite <- (leb_negb_ltb x y) by assumption. now rewrite E. }
    destruct l as [|z l].
    + simpl. now rewrite Hxy.
    + change (((z <=? y)%float && descending (z :: l)) = true) in Hd.
      apply andb_true_iff in Hd. destruct Hd as [Hzy Hd].
      specialize (IH Hd). simpl insert_descending in *.
      destruct (z <? x)%float.
      * change (((x <=? y)%float && descending (x :: z :: l)) = true).
        now rewrite Hxy.
      * change (((z <=? y)%float && descending (z :: insert_descending x l)) = true).
        now rewrite Hzy.
Qed.

(** The sort by insertion is a sort of the kind [sorted] is taken to be. *)
Lemma sort_descending_sorts : sorts_descending sort_descending.
Proof.
  intros l Hl. induction Hl as [|x l Hx Hl [IHp IHd]]; simpl.
  - split; [constructor|reflexivity].
  - split.
    + rewrite insert_descending_perm. now constructor.
    + apply insert_descending_sorted; try assumption.
      eapply Permutation_Forall; [|exact Hl]. now symmetry.
Qed.

Section Eigvalsh.
Variable fsum : list float -> float.
Variable image : Type.
Variable moments_central : image -> Z -> ndarray.
Variable eigvalsh : ndarray -> list float.
Variable sorted_reverse : list float -> list float.

Local Abbreviation eigvals :=
  (inertia_tensor_eigvals fsum image moments_central eigvalsh sorted_reverse).

(** X18 ([inertia_tensor_eigvals]): with [T] given, the image and [mu] are
    ignored and nothing is raised.  When [eigvalsh] returns no NaN, the
    values returned are the eigenvalues with those below 0 replaced by 0,
    in descending order: as many as [eigvalsh] returned, none below 0.
    [sorted] is taken to sort floats without NaN. *)
Theorem inertia_eigvals_nonnegative_descending (im : image) (mu : option ndarray)
        (T : ndarray) :
  sorts_descending sorted_reverse ->
  Forall (fun x => is_nan x = false) (eigvalsh T) ->
  exists vals,
    (forall im' mu', eigvals im' mu' (Some T) = Returns vals)
    /\ Permutation vals (map (fun x => if (x <? 0)%float then 0%float else x) (eigvalsh T))
    /\ length vals = length (eigvalsh T)
    /\ descending vals = true
    /\ Forall (fun x => (0 <=? x)%float = true) vals.
Proof.
  intros Hsort Hnan.
  set (clipped := map (fun x => F64.clip x (Some 0%float) None) (eigvalsh T)).
  assert (Hc : clipped = map (fun x => if (x <? 0)%float then 0%float else x) (eigvalsh T)).
  { apply map_ext_in. intros x Hx. rewrite Forall_forall in Hnan.
    apply (clip_zero_spec x (Hnan x Hx)). }
  assert (Hcn : Forall (fun x => is_nan x = false) clipped).
  { apply Forall_forall. intros c Hin. apply in_map_iff in Hin.
    destruct Hin as (x & <- & Hx). rewrite Forall_forall in Hnan.
    apply (clip_zero_spec x (Hnan x Hx)). }
  assert (Hc0 : Forall (fun x => (0 <=? x)%float = true) clipped).
  { apply Forall_forall. intros c Hin. apply in_map_iff in Hin.
    destruct Hin as (x & <- & Hx). rewrite Forall_forall in Hnan.
    apply (clip_zero_spec x (Hnan x Hx)). }
  destruct (Hsort clipped Hcn) as [Hperm Hdesc].
  exists (sorted_reverse clipped). split; [reflexivity|].
  split; [now rewrite <- Hc|].
  split.
  { rewrite (Permutation_length Hperm). unfold clipped. apply length_map. }
  split; [exact Hdesc|].
  eapply Permutation_Forall; [|exact Hc0]. now symmetry.
Qed.

End Eigvalsh.

Lemma inertia_eigvals_nonnegative_descending_witness :
  exists vals,
    inertia_tensor_eigvals Li.sum_seq unit (fun _ _ => mk [] [])
      (fun T => [get T [0; 0]; get T [1; 1]]) sort_descending tt None
      (Some (mk [2; 2] [-1; 0; 0; 3]%float))
    = Returns vals
    /\ length vals = 2 /\ descending vals = true.
Proof.
  destruct (inertia_eigvals_nonnegative_descending Li.sum_seq unit (fun _ _ => mk [] [])
              (fun T => [get T [0; 0]; get T [1; 1]]) sort_descending tt None
              (mk [2; 2] [-1; 0; 0; 3]%float) sort_descending_sorts)
    as (vals & H & _ & Hl & Hd & _).
  - repeat constructor.
  - exists vals. split; [apply H|]. split; assumption.
Defined.

Lemma moments_normalized_entries_witness :
  match moments_normalized (fun x _ => x)
          (mk [3; 3] [4; 0; 6; 0; 2; 0; 8; 0; 0]%float) 1 with
  | Returns nu =>
      get nu [0; 1] = nan /\ get nu [1; 1] = 0.5%float /\ get nu [2; 0] = 0%float
  | Throws _ => False
  end.
Proof.
  pose proof (moments_normalized_entries (fun x _ => x)
                (mk [3; 3] [4; 0; 6; 0; 2; 0; 8; 0; 0]%float) 1 eq_refl) as H.
  destruct (moments_normalized _ _ _) as [nu|e] eqn:E; [|vm_compute in E; discriminate].
  destruct H as (_ & _ & H).
  repeat split; rewrite H by (repeat constructor); reflexivity.
Defined.

End MomentsFacts.
